(** * decoding_SSP: the SSP vector algebra, the vocabulary cleanup, the
    coupling builder and the robust phase-difference decoder.

    The notebook's code is embedded function by function.  Two numeric
    readings are used:
    - binary64 floats ([PrimFloat]) for the code that only adds, multiplies
      and compares numbers (cleanup, coupling builder, decode loop);
    - exact real and complex arithmetic ([R], [C]) for the code that goes
      through [fft], [ifft], [exp], [angle] and complex powers, whose
      floating-point results depend on the FFT library.  Rounding is not
      modelled there: an equality of this layer is the identity that the
      floating-point code approximates. *)

From Stdlib Require Import List ZArith Lia Bool Arith PeanoNat.
From Stdlib Require Import Floats.PrimFloat Floats.SpecFloat Floats.FloatOps.
From Stdlib Require Import Floats.FloatAxioms Uint63.
From Stdlib Require Import Permutation Sorted.
From Stdlib Require Import Reals Lra.
Import ListNotations.
Set Warnings "-inexact-float".

(** * Outcomes of a Python call *)

Inductive exn : Set := ValueError | IndexError | ZeroDivisionError.

Inductive result (A : Type) : Type :=
| Ok (a : A)
| Raise (e : exn).
Arguments Ok {A} a.
Arguments Raise {A} e.

Definition rbind {A B} (c : result A) (k : A -> result B) : result B :=
  match c with
  | Ok a => k a
  | Raise e => Raise e
  end.

Notation "x <- c ;; k" := (rbind c (fun x => k))
  (at level 61, c at next level, right associativity).

(** * Element types of numpy arrays *)

Class Scalar (A : Type) : Type := {
  s0 : A;
  sadd : A -> A -> A;
  ssub : A -> A -> A;
  smul : A -> A -> A;
  sdiv : A -> A -> A;
  sopp : A -> A
}.

#[export] Instance float_Scalar : Scalar float := {|
  s0 := 0%float;
  sadd := PrimFloat.add;
  ssub := PrimFloat.sub;
  smul := PrimFloat.mul;
  sdiv := PrimFloat.div;
  sopp := PrimFloat.opp
|}.

#[export] Instance R_Scalar : Scalar R := {|
  s0 := 0%R;
  sadd := Rplus;
  ssub := Rminus;
  smul := Rmult;
  sdiv := Rdiv;
  sopp := Ropp
|}.

(** * Python sequences and one-dimensional numpy arrays *)

Module Py.

(** [range(lo, hi)] *)
Definition range (lo hi : nat) : list nat := seq lo (hi - lo).

(** A slice bound [i] of a sequence of length [len]: negative bounds count
    from the end, and every bound is clamped into [0..len]. *)
Definition bound (len : nat) (i : Z) : nat :=
  if (i <? 0)%Z then Z.to_nat (Z.max 0 (Z.of_nat len + i))
  else Nat.min len (Z.to_nat i).

Definition start_of (len : nat) (start : option Z) : nat :=
  match start with Some i => bound len i | None => 0 end.

Definition stop_of (len : nat) (stop : option Z) : nat :=
  match stop with Some i => bound len i | None => len end.

(** [l[start:stop]] *)
Definition slice {A} (l : list A) (start stop : option Z) : list A :=
  let s := start_of (length l) start in
  let e := stop_of (length l) stop in
  firstn (e - s) (skipn s l).

(** [l[i]] with Python's negative indices. *)
Definition index {A} (l : list A) (i : Z) : result A :=
  let j := if (i <? 0)%Z then (Z.of_nat (length l) + i)%Z else i in
  if (j <? 0)%Z then Raise IndexError
  else match nth_error l (Z.to_nat j) with
       | Some a => Ok a
       | None => Raise IndexError
       end.

(** [l[i] = a] *)
Fixpoint update {A} (l : list A) (i : nat) (a : A) : list A :=
  match l, i with
  | [], _ => []
  | _ :: t, O => a :: t
  | h :: t, S i' => h :: update t i' a
  end.

Definition set_index {A} (l : list A) (i : nat) (a : A) : result (list A) :=
  if i <? length l then Ok (update l i a) else Raise IndexError.

(** [l[start:stop] = rhs] on a numpy array: the right-hand side must have
    the length of the slice, or length 1 (it is then broadcast). *)
Definition set_slice {A} (l : list A) (start stop : option Z) (rhs : list A)
  : result (list A) :=
  let s := start_of (length l) start in
  let e := stop_of (length l) stop in
  let n := length (slice l start stop) in
  if length rhs =? n then Ok (firstn s l ++ rhs ++ skipn (s + n) l)
  else match rhs with
       | [a] => Ok (firstn s l ++ repeat a n ++ skipn (s + n) l)
       | _ => Raise ValueError
       end.

(** [l[mask] = a] for a boolean mask of the same length. *)
Fixpoint set_mask {A} (l : list A) (mask : list bool) (a : A) : list A :=
  match l, mask with
  | h :: t, m :: ms => (if m then a else h) :: set_mask t ms a
  | _, _ => l
  end.

Fixpoint zip_with {A B C} (f : A -> B -> C) (a : list A) (b : list B) : list C :=
  match a, b with
  | x :: a', y :: b' => f x y :: zip_with f a' b'
  | _, _ => []
  end.

(** An element-wise binary operation with numpy's broadcasting of
    one-dimensional shapes: equal lengths, or one operand of length 1. *)
Definition broadcast {A B} (f : A -> A -> B) (a b : list A) : result (list B) :=
  if length a =? length b then Ok (zip_with f a b)
  else match a, b with
       | [x], _ => Ok (map (f x) b)
       | _, [y] => Ok (map (fun x => f x y) a)
       | _, _ => Raise ValueError
       end.

Section Arrays.
Context {A : Type} `{Scalar A}.

Definition np_add (a b : list A) := broadcast sadd a b.
Definition np_sub (a b : list A) := broadcast ssub a b.
Definition np_mul (a b : list A) := broadcast smul a b.
Definition np_div (a b : list A) := broadcast sdiv a b.
Definition np_neg (a : list A) : list A := map sopp a.
(** array * scalar *)
Definition np_scale (a : list A) (s : A) : list A := map (fun x => smul x s) a.
Definition flip (a : list A) : list A := rev a.

(** The sum of products, accumulated from index 0 upwards. *)
Definition sum_prod (a b : list A) : A :=
  fold_left (fun acc p => sadd acc (smul (fst p) (snd p))) (combine a b) s0.

(** [np.dot(a, b)] and [a @ b] on one-dimensional arrays: the lengths
    must agree (no broadcasting). *)
Definition dot (a b : list A) : result A :=
  if length a =? length b then Ok (sum_prod a b) else Raise ValueError.
End Arrays.

End Py.

(** * Exact complex numbers *)

Definition C : Type := (R * R)%type.

Module Cx.
Local Open Scope R_scope.

Definition Re (z : C) : R := fst z.
Definition Im (z : C) : R := snd z.
Definition RtoC (x : R) : C := (x, 0).
Definition C0 : C := (0, 0).
Definition C1 : C := (1, 0).
(** [1.j] *)
Definition Ci : C := (0, 1).

Definition Cadd (z w : C) : C := (Re z + Re w, Im z + Im w).
Definition Csub (z w : C) : C := (Re z - Re w, Im z - Im w).
Definition Copp (z : C) : C := (- Re z, - Im z).
Definition Cmul (z w : C) : C :=
  (Re z * Re w - Im z * Im w, Re z * Im w + Im z * Re w).
(** Division.  For the divisor 0 numpy yields nan or inf and goes on; the
    exact layer has no such values, and every statement about a quotient
    is made for a divisor other than 0. *)
Definition Cdiv (z w : C) : C :=
  let d := Re w * Re w + Im w * Im w in
  ((Re z * Re w + Im z * Im w) / d, (Im z * Re w - Re z * Im w) / d).
Definition Cconj (z : C) : C := (Re z, - Im z).
(** [abs] of a complex number *)
Definition Cmod (z : C) : R := sqrt (Re z * Re z + Im z * Im z).

(** [exp] of a complex number *)
Definition Cexp (z : C) : C := (exp (Re z) * cos (Im z), exp (Re z) * sin (Im z)).

(** The point of the unit circle at angle [t]. *)
Definition cis (t : R) : C := (cos t, sin t).

(** [arctan2(y, x)], with values in (-pi, pi] (the reals have one zero:
    the signs of floating-point zeros play no part). *)
Definition arctan2 (y x : R) : R :=
  if Rlt_dec 0 x then atan (y / x)
  else if Rlt_dec x 0 then
         if Rle_dec 0 y then atan (y / x) + PI else atan (y / x) - PI
       else if Rlt_dec 0 y then PI / 2
            else if Rlt_dec y 0 then - (PI / 2) else 0.

(** [angle] *)
Definition angle (z : C) : R := arctan2 (Im z) (Re z).

(** [z ** p] for a real exponent [p], as numpy computes a complex power:
    1 when [p] is 0; 0 for the base 0 (numpy yields nan there when [p] is
    negative, which the exact layer does not represent); otherwise the
    principal branch [exp(p * log z)]. *)
Definition Cpow (z : C) (p : R) : C :=
  if Req_dec_T p 0 then C1
  else if Req_dec_T (Cmod z) 0 then C0
       else Cmul (RtoC (Rpower (Cmod z) p)) (cis (p * angle z)).

(** The sum of [f 0], ..., [f (n-1)]. *)
Fixpoint Csum (f : nat -> C) (n : nat) : C :=
  match n with
  | O => C0
  | S n' => Cadd (Csum f n') (f n')
  end.

End Cx.

#[export] Instance C_Scalar : Scalar C := {|
  s0 := Cx.C0;
  sadd := Cx.Cadd;
  ssub := Cx.Csub;
  smul := Cx.Cmul;
  sdiv := Cx.Cdiv;
  sopp := Cx.Copp
|}.

(** * The discrete Fourier transform ([numpy.fft]) *)

Module Fourier.
Import Cx.
Local Open Scope R_scope.

(** [sum_m a[m] * exp(sign * 2 pi i m k / n)], for k = 0, ..., n-1. *)
Definition dft (sign : R) (a : list C) : list C :=
  let n := length a in
  map (fun k =>
         Csum (fun m => Cmul (nth m a C0)
                             (cis (sign * (2 * PI * INR (m * k) / INR n)))) n)
      (seq 0 n).

(** [fft]: an empty input is refused. *)
Definition fft (a : list C) : result (list C) :=
  match a with
  | [] => Raise ValueError
  | _ => Ok (dft (-1) a)
  end.

(** [ifft] *)
Definition ifft (a : list C) : result (list C) :=
  match a with
  | [] => Raise ValueError
  | _ => Ok (map (fun z => Cdiv z (RtoC (INR (length a)))) (dft 1 a))
  end.

(** A third of a turn, the angle between the cube roots of 1. *)
Definition third_turn : R := 2 * PI / 3.

(** A real array where a complex one is expected. *)
Definition complex (a : list R) : list C := map RtoC a.

(** [real] *)
Definition real (a : list C) : list R := map Re a.

(** The Fourier coefficients of a real vector, as [fft] computes them when
    it accepts the vector. *)
Definition spectrum (v : list R) : list C := dft (-1) (complex v).

(** A spectrum is conjugate-symmetric when the coefficient at the reflected
    index [(n - k) mod n] is the conjugate of the coefficient at [k]. *)
Definition conj_sym (Y : list C) : Prop :=
  forall k, (k < length Y)%nat ->
            nth ((length Y - k) mod length Y) Y C0 = Cconj (nth k Y C0).

(** A complex array without imaginary parts. *)
Definition is_real (y : list C) : Prop :=
  forall k, (k < length y)%nat -> Im (nth k y C0) = 0.

End Fourier.
(** * The [MySP] class *)

Module MySP.
Import Py.

(** An object of the class: the attribute [D], the array [v], and the
    phases [a], which only random construction stores. *)
Record t (A : Type) : Type := mk {
  D : nat;
  v : list A;
  a : option (list A)
}.
Arguments mk {A} D v a.
Arguments D {A} _.
Arguments v {A} _.
Arguments a {A} _.

(** [MySP(v=v)]: the parameter [D] keeps its default, 10. *)
Definition of_values {A} (vals : list A) : t A :=
  {| D := 10; v := vals; a := None |}.

(** The number of values of the vector. *)
Definition dim {A} (sp : t A) : nat := length (v sp).

Section Algebra.
Context {A : Type} `{Scalar A}.

(** [__mul__] *)
Definition scale (sp : t A) (s : A) : t A := of_values (np_scale (v sp) s).

Definition bundle (sp y : t A) : result (t A) :=
  s <- np_add (v sp) (v y) ;;
  Ok (of_values s).

Definition similarity (sp y : t A) : result A := dot (v sp) (v y).

(** The conjugate-symmetric phases of [__init__], from the scaled
    samples [angles]:
    [D2 = (D+1)//2; angles[-D2+1:] = flip(-angles[1:D2]);
     angles[0] = 0.; if D%2==0: angles[D2] = 0.] *)
Definition symmetrize (angles : list A) : result (list A) :=
  let D := length angles in
  let D2 := (D + 1) / 2 in
  angles <- set_slice angles (Some (- Z.of_nat D2 + 1)%Z) None
              (flip (np_neg (slice angles (Some 1%Z) (Some (Z.of_nat D2))))) ;;
  angles <- set_index angles 0 s0 ;;
  if D mod 2 =? 0 then set_index angles D2 s0 else Ok angles.

(** The array after [angles[-D2+1:] = flip(-angles[1:D2])], when the
    assignment is accepted. *)
Definition mirrored (angles : list A) : list A :=
  let D := length angles in
  let D2 := (D + 1) / 2 in
  firstn (D - (D2 - 1)) angles ++
  rev (map sopp (firstn (D2 - 1) (skipn 1 angles))).

(** [random.normal(size=D)*2.], the samples being [draw 0], [draw 1], ... *)
Definition scaled_samples (two : A) (draw : nat -> A) (D : nat) : list A :=
  np_scale (map draw (seq 0 D)) two.
End Algebra.

(** ** The operations through the Fourier domain (exact layer) *)

Import Cx Fourier.

(** [exp(1.j*angles)] *)
Definition phasors (angles : list R) : list C :=
  map (fun t => Cexp (Cmul Ci (RtoC t))) angles.

(** [__init__] with [v=None], the samples being [draw 0], [draw 1], ... *)
Definition init (D : nat) (draw : nat -> R) : result (t R) :=
  angles <- symmetrize (scaled_samples 2%R draw D) ;;
  y <- ifft (phasors angles) ;;
  Ok {| D := D; v := real y; a := Some angles |}.

Definition unitary (sp : t R) : result (t R) :=
  X <- fft (complex (v sp)) ;;
  y <- ifft (phasors (map angle X)) ;;
  Ok (of_values (real y)).

Definition bind (sp y : t R) : result (t R) :=
  X <- fft (complex (v sp)) ;;
  Y <- fft (complex (v y)) ;;
  P <- np_mul X Y ;;
  s <- ifft P ;;
  Ok (of_values (real s)).

Definition unbind (sp y : t R) : result (t R) :=
  X <- fft (complex (v sp)) ;;
  Y <- fft (complex (v y)) ;;
  Q <- np_div X Y ;;
  s <- ifft Q ;;
  Ok (of_values (real s)).

Definition power (sp : t R) (p : R) : result (t R) :=
  X <- fft (complex (v sp)) ;;
  y <- ifft (map (fun z => Cpow z p) X) ;;
  Ok (of_values (real y)).

(** A vector is unitary when all its Fourier coefficients have modulus 1. *)
Definition is_unitary (sp : t R) : Prop :=
  forall n, (n < dim sp)%nat -> Cmod (nth n (spectrum (v sp)) C0) = 1%R.

End MySP.

(** * The order of binary64 floats *)

Module FloatOrder.

(** A key that orders the floats other than NaN as the comparisons of
    IEEE 754 do: sign class first, then exponent, then mantissa. *)
Definition key (f : spec_float) : Z * Z * Z :=
  match f with
  | S754_zero _ => (0, 0, 0)%Z
  | S754_infinity true => (-2, 0, 0)%Z
  | S754_infinity false => (2, 0, 0)%Z
  | S754_nan => (0, 0, 0)%Z
  | S754_finite true m e => (-1, - e, - Zpos m)%Z
  | S754_finite false m e => (1, e, Zpos m)%Z
  end.

Definition lexlt (a b : Z * Z * Z) : Prop :=
  (fst (fst a) < fst (fst b) \/
   (fst (fst a) = fst (fst b) /\
    (snd (fst a) < snd (fst b) \/
     (snd (fst a) = snd (fst b) /\ snd a < snd b))))%Z.

Definition lexle (a b : Z * Z * Z) : Prop := lexlt a b \/ a = b.

Definition fkey (x : float) : Z * Z * Z := key (Prim2SF x).

(** The key numpy sorts by: as above, with NaN after everything else. *)
Definition sort_key (x : float) : Z * Z * Z :=
  match Prim2SF x with
  | S754_nan => (3, 0, 0)%Z
  | f => key f
  end.

(** [x] is not NaN. *)
Definition number (x : float) : Prop := Prim2SF x <> S754_nan.

End FloatOrder.

(** * The [HRR] class (the vocabulary) *)

Module HRR.
Import Py.
Local Open Scope float_scope.

Record t : Type := mk {
  N : nat;
  D : nat;
  vocab : list (MySP.t float)
}.

(** [__call__] *)
Definition call (h : t) (idx : Z) : result (MySP.t float) :=
  index (vocab h) idx.

(** The scan of [cleanup] over [enumerate(self.vocab)], from position [k],
    on the pair [(closest, max_sim)]. *)
Fixpoint scan (x : MySP.t float) (members : list (MySP.t float)) (k : nat)
         (st : Z * float) : result (Z * float) :=
  match members with
  | [] => Ok st
  | s :: rest =>
      sim <- MySP.similarity x s ;;
      scan x rest (S k) (if snd st <? sim then (Z.of_nat k, sim) else st)
  end.

Definition cleanup (h : t) (x : MySP.t float)
  : result (MySP.t float * Z * float) :=
  st <- scan x (vocab h) 0 ((-1)%Z, -1e50) ;;
  member <- call h (fst st) ;;
  Ok (member, fst st, snd st).

(** ** The answer the docstring and the specification describe *)

(** [k] is the first index of a member of maximum similarity in [sims]. *)
Definition first_argmax (sims : list float) (k : nat) : Prop :=
  (k < length sims)%nat /\
  (forall j, (j < length sims)%nat -> (nth j sims 0 <=? nth k sims 0) = true) /\
  (forall j, (j < k)%nat -> (nth j sims 0 <? nth k sims 0) = true).

(** The similarities of the query to the members, when every member has
    the dimension of the query. *)
Definition similarities (h : t) (x : MySP.t float) : list float :=
  map (fun s => Py.sum_prod (MySP.v x) (MySP.v s)) (vocab h).

End HRR.

(** * The coupling builder (cells 20 and 21) *)

Module Couplings.
Import Py.
Local Open Scope float_scope.

(** numpy's order on floats when sorting: NaN goes last. *)
Definition np_lt (x y : float) : bool :=
  (x <? y) || (negb (y =? y) && (x =? x)).

(** [argsort]: the indices in ascending order of their keys.  numpy does not
    fix the order of equal keys; here an index is inserted behind the
    indices of equal keys already placed. *)
Fixpoint insert (keys : list float) (i : nat) (sorted : list nat) : list nat :=
  match sorted with
  | [] => [i]
  | j :: rest =>
      if np_lt (nth i keys 0) (nth j keys 0) then i :: j :: rest
      else j :: insert keys i rest
  end.

Definition argsort (keys : list float) : list nat :=
  fold_left (fun sorted i => insert keys i sorted) (seq 0 (length keys)) [].

(** [i] may stand before [j] in the sorted order: the key of [j] is not
    below the key of [i]. *)
Definition in_order (keys : list float) (i j : nat) : Prop :=
  np_lt (nth j keys 0) (nth i keys 0) = false.

(** [zip(sidx[:-1], sidx[1:])] *)
Definition adjacent (sidx : list nat) : list (nat * nat) :=
  combine (slice sidx None (Some (-1)%Z)) (slice sidx (Some 1%Z) None).

(** [zip(sidx[:-2], sidx[2:])] *)
Definition skip_one (sidx : list nat) : list (nat * nat) :=
  combine (slice sidx None (Some (-2)%Z)) (slice sidx (Some 2%Z) None).

(** cell 20, from the sorted indices on. *)
Definition pairs (sidx : list nat) : list (nat * nat) :=
  adjacent sidx ++ skip_one sidx.

(** cell 20 *)
Definition couplings (phase : list float) : list (nat * nat) :=
  pairs (argsort phase).

(** cell 21: [array([sp.a[c[0]]-sp.a[c[1]] for c in couplings])].  The
    indices of the couplings come from [argsort] and are positions of
    [phase], so that no index is out of range. *)
Definition DeltaA (phase : list float) (cs : list (nat * nat)) : list float :=
  map (fun c => nth (fst c) phase 0 - nth (snd c) phase 0) cs.

End Couplings.
(** * The robust phase-difference decoder (the decode loop) *)

Module Decoder.
Import Py.
Local Open Scope float_scope.

(** A Python [int] used in float arithmetic. *)
Definition float_of_nat (n : nat) : float :=
  PrimFloat.of_uint63 (Uint63.of_Z (Z.of_nat n)).

(** [1./iter] *)
Definition one_over (iter : nat) : result float :=
  if (iter =? 0)%nat then Raise ZeroDivisionError
  else Ok (1 / float_of_nat iter).

(** What one run leaves behind: the final [x], the lines
    [Iter {iter}: x = {x}] printed on the way, and whether the loop was
    left through [break]. *)
Record outcome : Type := {
  x_final : float;
  printed : list (nat * float);
  broke : bool
}.

(** The body of the loop from "Compute residual" to [x += x_increment]:
    the new [x] and [x_increment]. *)
Definition step (kappa : float) (DeltaA DeltaPhi : list float)
           (iter : nat) (x : float) : result (float * float) :=
  resid <- np_sub DeltaPhi (np_scale DeltaA x) ;;
  thr <- one_over iter ;;
  let outliers := map (fun r => thr <? abs r) resid in
  let resid := set_mask resid outliers 0 in
  d <- dot DeltaA resid ;;
  let x_increment := kappa * d in
  Ok (x + x_increment, x_increment).

Fixpoint loop (kappa : float) (DeltaA DeltaPhi : list float)
         (iters : list nat) (x : float) (out : list (nat * float))
  : result outcome :=
  match iters with
  | [] => Ok {| x_final := x; printed := out; broke := false |}
  | iter :: rest =>
      let out := out ++ [(iter, x)] in
      r <- step kappa DeltaA DeltaPhi iter x ;;
      if abs (snd r) <? 0.0001
      then Ok {| x_final := fst r; printed := out; broke := true |}
      else loop kappa DeltaA DeltaPhi rest (fst r) out
  end.

(** cell 25: [x = 0.], then [for iter in range(1,max_iters)]. *)
Definition decode (DeltaA DeltaPhi : list float) (kappa : float)
           (max_iters : nat) : result outcome :=
  loop kappa DeltaA DeltaPhi (range 1 max_iters) 0 [].

Definition kappa_default : float := 0.1.
Definition max_iters_default : nat := 100.

(** ** The iteration as the specification words it *)

(** [r[i] = DeltaPhi[i] - DeltaA[i]*x] *)
Definition spec_residual (DeltaA DeltaPhi : list float) (x : float) (i : nat)
  : float :=
  nth i DeltaPhi 0 - nth i DeltaA 0 * x.

(** A residual with [|r| > 1/t] is zeroed. *)
Definition spec_reject (t : nat) (r : float) : float :=
  if (1 / float_of_nat t) <? abs r then 0 else r.

(** [x + kappa * (DeltaA . r)] with the partially zeroed residuals. *)
Definition spec_update (kappa : float) (DeltaA DeltaPhi : list float)
           (t : nat) (x : float) : float :=
  x + kappa * sum_prod DeltaA
        (map (fun i => spec_reject t (spec_residual DeltaA DeltaPhi x i))
             (seq 0 (length DeltaA))).

(** The estimate after [t] updates, starting from 0. *)
Fixpoint spec_x (kappa : float) (DeltaA DeltaPhi : list float) (t : nat)
  : float :=
  match t with
  | O => 0
  | S t' => spec_update kappa DeltaA DeltaPhi t (spec_x kappa DeltaA DeltaPhi t')
  end.

(** The line printed at the start of iteration [t], by the specification. *)
Definition entry (kappa : float) (DeltaA DeltaPhi : list float) (t : nat)
  : nat * float :=
  (t, spec_x kappa DeltaA DeltaPhi (t - 1)).

(** The number of loop bodies a run went through. *)
Definition iterations (r : outcome) : nat := length (printed r).

End Decoder.


(** * Further readings of the notebook *)

(** ** The increment of an iteration, by the update rule *)

Module DecoderSpec.
Import Py Decoder.
Local Open Scope float_scope.

(** [x_increment] of iteration [t], started from the estimate after
    [t - 1] updates. *)
Definition spec_increment (kappa : float) (DeltaA DeltaPhi : list float)
           (t : nat) : float :=
  kappa * sum_prod DeltaA
    (map (fun i => spec_reject t
                     (spec_residual DeltaA DeltaPhi
                        (spec_x kappa DeltaA DeltaPhi (t - 1)) i))
         (seq 0 (length DeltaA))).

End DecoderSpec.

(** ** Binding in the time domain *)

Module Convolution.
Import Cx Fourier.
Local Open Scope R_scope.

(** The sum of [f 0], ..., [f (n-1)]. *)
Fixpoint Rsum (f : nat -> R) (n : nat) : R :=
  match n with
  | O => 0
  | S n' => Rsum f n' + f n'
  end.

(** The array [1, 0, ..., 0] of [D] values. *)
Definition delta (D : nat) : list R :=
  map (fun k => if (k =? 0)%nat then 1 else 0) (seq 0 D).

(** The circular convolution of two arrays of the same length:
    [c[n] = sum_m a[m] * b[(n - m) mod D]]. *)
Definition circular (a b : list R) : list R :=
  let D := length a in
  map (fun n => Rsum (fun m => nth m a 0 * nth ((n + D - m) mod D) b 0) D)
      (seq 0 D).

End Convolution.

(** ** Phase differences (cells 21, 23 and 24), exact layer *)

Module PhaseDifferences.
Import Py Cx Fourier.
Local Open Scope R_scope.

(** A list comprehension whose body may raise. *)
Fixpoint for_each {X Y} (f : X -> result Y) (l : list X) : result (list Y) :=
  match l with
  | [] => Ok []
  | x :: rest =>
      y <- f x ;;
      ys <- for_each f rest ;;
      Ok (y :: ys)
  end.

(** cell 21: [array([sp.a[c[0]]-sp.a[c[1]] for c in couplings])] *)
Definition DeltaA (phase : list R) (cs : list (nat * nat)) : result (list R) :=
  for_each (fun c =>
              aj <- index phase (Z.of_nat (fst c)) ;;
              ak <- index phase (Z.of_nat (snd c)) ;;
              Ok (aj - ak)) cs.

(** cell 24: [array([angle(V[c[0]]*conj(V[c[1]])) for c in couplings])] *)
Definition DeltaPhi (V : list C) (cs : list (nat * nat)) : result (list R) :=
  for_each (fun c =>
              vj <- index V (Z.of_nat (fst c)) ;;
              vk <- index V (Z.of_nat (snd c)) ;;
              Ok (angle (Cmul vj (Cconj vk)))) cs.

(** cells 23 and 24: [spx = sp.power(true_x)], [V = fft(spx.v)], and the
    phase differences of [V]. *)
Definition observe (sp : MySP.t R) (true_x : R) (cs : list (nat * nat))
  : result (list R) :=
  spx <- MySP.power sp true_x ;;
  V <- fft (complex (MySP.v spx)) ;;
  DeltaPhi V cs.

End PhaseDifferences.

(** ** [HRR.__init__], exact layer *)

Module Vocabulary.
Import Py.

Record t : Type := mk {
  N : nat;
  D : nat;
  vocab : list (MySP.t R)
}.

(** [for k in range(N): self.vocab.append(MySP(D=self.D))], member [k]
    being made from the samples [draws k 0], [draws k 1], ... *)
Definition init (N D : nat) (draws : nat -> nat -> R) : result t :=
  members <- PhaseDifferences.for_each (fun k => MySP.init D (draws k))
                                       (range 0 N) ;;
  Ok {| N := N; D := D; vocab := members |}.

End Vocabulary.

(** ** The methods that change an object *)

(** numpy arrays are shared: [MySP(v=v)] keeps the array it is given, and
    the methods [make_zero] and [_bundle] write into the array of the
    object, while [_bind] gives the object a new array.  Arrays live in a
    store, and an object holds a reference into it. *)
Module InPlace.
Import Py.

Definition ref : Type := nat.

Record obj : Type := mk { D : nat; v : ref }.

(** [MySP(v=v)] *)
Definition of_array (r : ref) : obj := {| D := 10; v := r |}.

Section Store.
Context {A : Type} `{Scalar A}.

Definition store : Type := list (list A).

Definition read (s : store) (r : ref) : list A := nth r s [].

Definition write (s : store) (r : ref) (arr : list A) : store := update s r arr.

Definition alloc (s : store) (arr : list A) : store * ref :=
  (s ++ [arr], length s).

(** [self.v[:] = 0.] *)
Definition make_zero (s : store) (o : obj) : result store :=
  arr <- set_slice (read s (v o)) None None [s0] ;;
  Ok (write s (v o) arr).

(** [bundle]: [s = self.v + y.v; return MySP(v=s)] *)
Definition bundle (s : store) (o y : obj) : result (store * obj) :=
  sum <- np_add (read s (v o)) (read s (v y)) ;;
  let (s', r) := alloc s sum in
  Ok (s', of_array r).

(** [self.v += y.v]: the sum is written into the array of [self], which
    numpy refuses when the broadcast sum has another length. *)
Definition _bundle (s : store) (o y : obj) : result store :=
  sum <- np_add (read s (v o)) (read s (v y)) ;;
  if length sum =? length (read s (v o)) then Ok (write s (v o) sum)
  else Raise ValueError.
End Store.

(** [self.v = real(ifft(fft(self.v)*fft(y.v)))] *)
Definition _bind (s : @store R) (o y : obj) : result (@store R * obj) :=
  b <- MySP.bind (MySP.of_values (read s (v o)))
                 (MySP.of_values (read s (v y))) ;;
  let (s', r) := alloc s (MySP.v b) in
  Ok (s', {| D := D o; v := r |}).

End InPlace.

(** ** The decode loop in exact arithmetic *)

Module ExactDecoder.
Import Py.
Local Open Scope R_scope.

(** [1./iter] *)
Definition one_over (iter : nat) : result R :=
  if (iter =? 0)%nat then Raise ZeroDivisionError else Ok (1 / INR iter).

(** [x > y] *)
Definition gtb (x y : R) : bool := if Rlt_dec y x then true else false.

(** The body of the loop of cell 25 from "Compute residual" to
    [x += x_increment], on reals: the new [x] and [x_increment]. *)
Definition step (kappa : R) (DeltaA DeltaPhi : list R) (iter : nat) (x : R)
  : result (R * R) :=
  resid <- np_sub DeltaPhi (np_scale DeltaA x) ;;
  thr <- one_over iter ;;
  let outliers := map (fun r => gtb (Rabs r) thr) resid in
  let resid := set_mask resid outliers 0 in
  d <- dot DeltaA resid ;;
  let x_increment := kappa * d in
  Ok (x + x_increment, x_increment).

End ExactDecoder.

(** * Facts about the Python and numpy primitives *)

Section PyFacts.
Import Py.
Context {A B : Type}.

Lemma Ok_inj {X} (x y : X) : Ok x = Ok y -> x = y.
Proof. intros E; now injection E. Qed.

Lemma rbind_ok {X Y} (c : result X) (k : X -> result Y) (y : Y) :
  rbind c k = Ok y -> exists x, c = Ok x /\ k x = Ok y.
Proof.
  destruct c as [x|e]; simpl; intros E; [eauto | discriminate].
Qed.

Lemma length_zip_with (f : A -> A -> B) (a b : list A) :
  length (zip_with f a b) = Nat.min (length a) (length b).
Proof.
  revert b; induction a as [|x a IH]; intros [|y b]; simpl; auto.
Qed.

Lemma nth_zip_with (f : A -> A -> B) (a b : list A) i da db d :
  i < length a -> i < length b ->
  nth i (zip_with f a b) d = f (nth i a da) (nth i b db).
Proof.
  revert b i; induction a as [|x a IH]; intros [|y b] [|i]; simpl;
    intros Ha Hb; try lia; auto.
  apply IH; lia.
Qed.

Lemma zip_with_comm (f : A -> A -> B) (a b : list A) :
  (forall x y, f x y = f y x) -> zip_with f a b = zip_with f b a.
Proof.
  intros Hf; revert b; induction a as [|x a IH]; intros [|y b]; simpl; auto.
  now rewrite Hf, IH.
Qed.

Lemma broadcast_same (f : A -> A -> B) (a b : list A) :
  length a = length b -> broadcast f a b = Ok (zip_with f a b).
Proof.
  intros E; unfold broadcast. now rewrite E, Nat.eqb_refl.
Qed.

(** When [broadcast] refuses its operands, and when it accepts them. *)
Lemma broadcast_raises (f : A -> A -> B) (a b : list A) :
  length a <> length b -> length a <> 1 -> length b <> 1 ->
  broadcast f a b = Raise ValueError.
Proof.
  intros Hab Ha Hb; unfold broadcast.
  apply Nat.eqb_neq in Hab; rewrite Hab.
  destruct a as [|x [|x' a]]; destruct b as [|y [|y' b]]; simpl in *;
    try reflexivity; try lia.
Qed.

Lemma broadcast_accepts (f : A -> A -> B) (a b : list A) :
  length a = length b \/ length a = 1 \/ length b = 1 ->
  exists c, broadcast f a b = Ok c.
Proof.
  intros Hs; unfold broadcast.
  destruct (length a =? length b) eqn:E; [eauto|].
  apply Nat.eqb_neq in E.
  destruct a as [|x [|x' a]]; destruct b as [|y [|y' b]]; simpl in *;
    eauto; lia.
Qed.

Lemma broadcast_single_l (f : A -> A -> B) (x : A) (b : list A) :
  broadcast f [x] b = Ok (map (f x) b).
Proof.
  unfold broadcast. destruct b as [|y [|y' b]]; reflexivity.
Qed.

Lemma broadcast_single_r (f : A -> A -> B) (a : list A) (y : A) :
  broadcast f a [y] = Ok (map (fun x => f x y) a).
Proof.
  unfold broadcast. destruct a as [|x [|x' a]]; reflexivity.
Qed.

Lemma length_set_mask (l : list A) mask z :
  length (set_mask l mask z) = length l.
Proof.
  revert mask; induction l as [|h l IH]; intros [|m ms]; simpl; auto.
Qed.

Lemma nth_set_mask_map (m : A -> bool) (l : list A) z i d :
  i < length l ->
  nth i (set_mask l (map m l) z) d = if m (nth i l d) then z else nth i l d.
Proof.
  revert i; induction l as [|h l IH]; intros [|i]; simpl; intros Hi; try lia.
  - reflexivity.
  - apply IH; lia.
Qed.

Lemma length_update (l : list A) i z : length (update l i z) = length l.
Proof.
  revert i; induction l as [|h l IH]; intros [|i]; simpl; auto.
Qed.

Lemma nth_update (l : list A) i j z d :
  nth j (update l i z) d =
  if (j =? i) && (i <? length l) then z else nth j l d.
Proof.
  revert i j; induction l as [|h l IH]; intros [|i] [|j]; simpl; auto;
    try (now rewrite andb_false_r).
Qed.

Lemma bound_neg (len : nat) (k : nat) :
  0 < k -> bound len (- Z.of_nat k) = len - k.
Proof.
  intros Hk; unfold bound.
  destruct (Z.ltb_spec (- Z.of_nat k) 0); lia.
Qed.

Lemma bound_pos (len : nat) (k : nat) :
  bound len (Z.of_nat k) = Nat.min len k.
Proof.
  unfold bound. destruct (Z.ltb_spec (Z.of_nat k) 0); lia.
Qed.

(** [l[:-k]], [l[k:]] and [l[j:k]] *)
Lemma slice_drop_last (l : list A) (k : nat) :
  0 < k -> slice l None (Some (- Z.of_nat k)%Z) = firstn (length l - k) l.
Proof.
  intros Hk; unfold slice; simpl. rewrite bound_neg by assumption.
  now rewrite Nat.sub_0_r.
Qed.

Lemma slice_drop_first (l : list A) (k : nat) :
  slice l (Some (Z.of_nat k)) None = skipn k l.
Proof.
  unfold slice; simpl. rewrite bound_pos.
  destruct (Nat.le_gt_cases (length l) k) as [Hle|Hgt].
  - rewrite Nat.min_l by assumption.
    rewrite Nat.sub_diag, skipn_all. simpl.
    symmetry; now apply skipn_all2.
  - rewrite Nat.min_r by lia.
    apply firstn_all2. rewrite length_skipn; lia.
Qed.

Lemma slice_between (l : list A) (j k : nat) :
  j <= k -> k <= length l ->
  slice l (Some (Z.of_nat j)) (Some (Z.of_nat k)) = firstn (k - j) (skipn j l).
Proof.
  intros Hjk Hk; unfold slice; simpl. rewrite !bound_pos.
  now rewrite !Nat.min_r by lia.
Qed.
End PyFacts.

(** * The decode loop *)

Module DecoderFacts.
Import Py Decoder DecoderSpec.

Section Run.
Variables (kappa : float) (DeltaA DeltaPhi : list float).
Hypothesis same_length : length DeltaPhi = length DeltaA.


(** The residuals after outlier rejection, as the loop body computes them
    with array operations, are the ones the specification gives index by
    index. *)
Lemma rejected_residuals (t : nat) (x : float) :
  let resid := zip_with PrimFloat.sub DeltaPhi (np_scale DeltaA x) in
  set_mask resid (map (fun r => (1 / float_of_nat t <? abs r)%float) resid)
           0%float =
  map (fun i => spec_reject t (spec_residual DeltaA DeltaPhi x i))
      (seq 0 (length DeltaA)).
Proof.
  intros resid.
  assert (Hlen : length resid = length DeltaA).
  { unfold resid, np_scale.
    rewrite length_zip_with, length_map, same_length. apply Nat.min_id. }
  apply (nth_ext _ _ 0%float (spec_reject t (spec_residual DeltaA DeltaPhi x 0))).
  - now rewrite length_set_mask, length_map, length_seq.
  - intros i Hi. rewrite length_set_mask, Hlen in Hi.
    rewrite nth_set_mask_map by lia.
    rewrite (map_nth (fun i => spec_reject t (spec_residual DeltaA DeltaPhi x i))).
    rewrite seq_nth by lia. simpl.
    unfold resid.
    rewrite (nth_zip_with _ _ _ _ 0%float (smul 0%float x))
      by (unfold np_scale; rewrite ?length_map; lia).
    unfold np_scale.
    rewrite (map_nth (fun a => smul a x)).
    reflexivity.
Qed.

(** One loop body: it cannot raise, and it moves [x] to [spec_update]. *)
Lemma step_spec (t : nat) (x : float) :
  t <> O ->
  exists inc,
    step kappa DeltaA DeltaPhi t x =
    Ok (spec_update kappa DeltaA DeltaPhi t x, inc).
Proof.
  intros Ht. unfold step, np_sub, one_over.
  rewrite broadcast_same
    by (unfold np_scale; now rewrite length_map).
  simpl rbind.
  apply Nat.eqb_neq in Ht; rewrite Ht. simpl rbind.
  rewrite rejected_residuals.
  unfold dot. rewrite length_map, length_seq, Nat.eqb_refl. simpl rbind.
  eexists; reflexivity.
Qed.

Lemma loop_spec (n : nat) :
  forall t x out,
    t <> O ->
    x = spec_x kappa DeltaA DeltaPhi (t - 1) ->
    out = map (entry kappa DeltaA DeltaPhi) (seq 1 (t - 1)) ->
    exists r,
      loop kappa DeltaA DeltaPhi (seq t n) x out = Ok r /\
      printed r = map (entry kappa DeltaA DeltaPhi) (seq 1 (iterations r)) /\
      x_final r = spec_x kappa DeltaA DeltaPhi (iterations r) /\
      t - 1 <= iterations r <= t - 1 + n /\
      (broke r = false -> iterations r = t - 1 + n).
Proof.
  induction n as [|n IH]; intros t x out Ht Hx Hout.
  - simpl. eexists; split; [reflexivity|].
    unfold iterations; simpl. subst out.
    rewrite length_map, length_seq. repeat split; auto; lia.
  - simpl.
    destruct (step_spec t x Ht) as [inc Hstep]. rewrite Hstep. simpl.
    assert (Hout' : out ++ [(t, x)] = map (entry kappa DeltaA DeltaPhi) (seq 1 t)).
    { destruct t as [|t']; [congruence|].
      rewrite seq_S, map_app. simpl.
      replace (S t' - 1) with t' in * by lia.
      subst out x. f_equal. unfold entry.
      now replace (S t' - 1) with t' by lia. }
    assert (Hx' : spec_update kappa DeltaA DeltaPhi t x =
                  spec_x kappa DeltaA DeltaPhi t).
    { destruct t as [|t']; [congruence|]. simpl.
      replace (S t' - 1) with t' in * by lia. now subst x. }
    destruct (abs inc <? 0.0001)%float.
    + eexists; split; [reflexivity|].
      unfold iterations; simpl.
      rewrite Hout', length_map, length_seq.
      repeat split; auto; try lia; discriminate.
    + destruct (IH (S t) (spec_update kappa DeltaA DeltaPhi t x)
                   (out ++ [(t, x)])) as [r (Hr & Hp & Hf & Hb & Hn)].
      * discriminate.
      * replace (S t - 1) with t by lia. exact Hx'.
      * replace (S t - 1) with t by lia. exact Hout'.
      * exists r. repeat split; auto; try lia.
        intros Hbr; specialize (Hn Hbr); lia.
Qed.

(** The increment of iteration [t], and where the loop is left. *)
Lemma step_increment (t : nat) :
  t <> O ->
  step kappa DeltaA DeltaPhi t (spec_x kappa DeltaA DeltaPhi (t - 1)) =
  Ok (spec_x kappa DeltaA DeltaPhi t, spec_increment kappa DeltaA DeltaPhi t).
Proof.
  intros Ht. unfold step, np_sub, one_over.
  rewrite broadcast_same by (unfold np_scale; now rewrite length_map).
  cbv beta iota delta [rbind].
  apply Nat.eqb_neq in Ht as Ht'. rewrite Ht'.
  cbv beta iota delta [rbind].
  rewrite rejected_residuals.
  unfold dot. rewrite length_map, length_seq, Nat.eqb_refl.
  cbv beta iota delta [rbind].
  destruct t as [|t']; [congruence|].
  unfold spec_increment.
  change (S t' - 1) with (t' - 0). rewrite !Nat.sub_0_r. reflexivity.
Qed.

Lemma loop_exit (n : nat) :
  forall t out,
    t <> O ->
    exists r,
      loop kappa DeltaA DeltaPhi (seq t n)
           (spec_x kappa DeltaA DeltaPhi (t - 1)) out = Ok r /\
      iterations r = length out + (iterations r - length out) /\
      let m := iterations r - length out in
      m <= n /\
      (forall i, i < m - 1 ->
                 (abs (spec_increment kappa DeltaA DeltaPhi (t + i))
                  <? 0.0001)%float = false) /\
      (broke r = true ->
       1 <= m /\
       (abs (spec_increment kappa DeltaA DeltaPhi (t + (m - 1)))
        <? 0.0001)%float = true) /\
      (broke r = false ->
       m = n /\
       forall i, i < m ->
                 (abs (spec_increment kappa DeltaA DeltaPhi (t + i))
                  <? 0.0001)%float = false).
Proof.
  induction n as [|n IH]; intros t out Ht.
  - simpl. eexists; split; [reflexivity|].
    unfold iterations; simpl. rewrite Nat.sub_diag.
    repeat split; try lia; try discriminate; intros; lia.
  - simpl. rewrite (step_increment t Ht). cbv beta iota delta [rbind].
    simpl fst. simpl snd.
    destruct (abs (spec_increment kappa DeltaA DeltaPhi t) <? 0.0001)%float
      eqn:E.
    + eexists; split; [reflexivity|].
      unfold iterations; simpl. rewrite length_app. simpl.
      replace (length out + 1 - length out) with 1 by lia.
      repeat split; try lia; try discriminate; try (intros; lia).
      simpl. now rewrite Nat.add_0_r.
    + destruct (IH (S t) (out ++ [(t, spec_x kappa DeltaA DeltaPhi (t - 1))]))
        as (r & Hr & Hlen & Hm & Hbefore & Hbreak & Hfull); [discriminate|].
      replace (S t - 1) with t in Hr by lia.
      exists r. split; [exact Hr|].
      rewrite length_app in *. simpl length in *.
      set (m' := iterations r - (length out + 1)) in *.
      assert (Em : iterations r - length out = S m') by lia.
      rewrite Em. split; [lia|]. cbv zeta.
      split; [lia|]. split; [|split].
      * intros i Hi. destruct i as [|i].
        -- now rewrite Nat.add_0_r.
        -- replace (t + S i) with (S t + i) by lia. apply Hbefore. lia.
      * intros Hb. destruct (Hbreak Hb) as [H1 H2]. split; [lia|].
        replace (t + (S m' - 1)) with (S t + (m' - 1)) by lia. exact H2.
      * intros Hb. destruct (Hfull Hb) as [H1 H2]. split; [lia|].
        intros i Hi. destruct i as [|i].
        -- now rewrite Nat.add_0_r.
        -- replace (t + S i) with (S t + i) by lia. apply H2. lia.
Qed.
End Run.

(** The loop always ends with an estimate: no exception, a final [x], and
    at most [max_iters - 1] loop bodies. *)
Lemma decode_returns (kappa : float) (DeltaA DeltaPhi : list float)
      (max_iters : nat) :
  length DeltaPhi = length DeltaA ->
  exists r,
    decode DeltaA DeltaPhi kappa max_iters = Ok r /\
    iterations r <= max_iters - 1 /\
    (broke r = false -> iterations r = max_iters - 1).
Proof.
  intros Hlen. unfold decode, range.
  destruct (loop_spec kappa DeltaA DeltaPhi Hlen (max_iters - 1) 1 0%float [])
    as [r (Hr & _ & _ & Hb & Hn)]; try reflexivity; try discriminate.
  exists r. repeat split; auto; simpl in *; lia.
Qed.

(** C1. Every run of the decode loop on couplings with one [DeltaPhi] per
    [DeltaA] ends with an outcome in which the estimate starts at 0 and the
    iteration numbered t = 1, 2, ... takes the current x to
    x + kappa * (DeltaA . r), where r[i] is DeltaPhi[i] - DeltaA[i]*x,
    replaced by 0 when |r[i]| > 1/t: the lines printed are
    (t, x before iteration t) and the final x is the estimate after the
    last iteration.  The number of iterations is fixed by the increments
    [kappa * (DeltaA . r)]: the run is left through [break] at the first
    iteration whose increment is below 0.0001 in absolute value, and goes
    through all [max_iters - 1] iterations when there is none. *)
Theorem decode_follows_update_rule
        (kappa : float) (DeltaA DeltaPhi : list float) (max_iters : nat) :
  length DeltaPhi = length DeltaA ->
  exists r,
    decode DeltaA DeltaPhi kappa max_iters = Ok r /\
    printed r =
      map (fun t => (t, spec_x kappa DeltaA DeltaPhi (t - 1)))
          (seq 1 (iterations r)) /\
    x_final r = spec_x kappa DeltaA DeltaPhi (iterations r) /\
    spec_x kappa DeltaA DeltaPhi 0 = 0%float /\
    (forall t, spec_x kappa DeltaA DeltaPhi (S t) =
               (spec_x kappa DeltaA DeltaPhi t +
                kappa * sum_prod DeltaA
                  (map (fun i =>
                          let ri := nth i DeltaPhi 0 -
                                    nth i DeltaA 0 * spec_x kappa DeltaA DeltaPhi t in
                          if 1 / float_of_nat (S t) <? abs ri then 0 else ri)
                       (seq 0 (length DeltaA))))%float) /\
    (forall t, spec_x kappa DeltaA DeltaPhi (S t) =
               (spec_x kappa DeltaA DeltaPhi t +
                spec_increment kappa DeltaA DeltaPhi (S t))%float) /\
    iterations r <= max_iters - 1 /\
    (forall t, 1 <= t < iterations r ->
               (abs (spec_increment kappa DeltaA DeltaPhi t) <? 0.0001)%float
               = false) /\
    (broke r = true ->
     1 <= iterations r /\
     (abs (spec_increment kappa DeltaA DeltaPhi (iterations r))
      <? 0.0001)%float = true) /\
    (broke r = false ->
     iterations r = max_iters - 1 /\
     forall t, 1 <= t <= iterations r ->
               (abs (spec_increment kappa DeltaA DeltaPhi t) <? 0.0001)%float
               = false).
Proof.
  intros Hlen. unfold decode, range.
  destruct (loop_spec kappa DeltaA DeltaPhi Hlen (max_iters - 1) 1 0%float [])
    as [r (Hr & Hp & Hf & _)]; try reflexivity; try discriminate.
  destruct (loop_exit kappa DeltaA DeltaPhi Hlen (max_iters - 1) 1 [])
    as (r' & Hr' & _ & Hm & Hbefore & Hbreak & Hfull); [discriminate|].
  simpl in Hr'. rewrite Hr in Hr'. apply Ok_inj in Hr'. subst r'.
  simpl length in *. rewrite Nat.sub_0_r in *.
  exists r. split; [exact Hr|]. split; [exact Hp|]. split; [exact Hf|].
  split; [reflexivity|]. split; [reflexivity|].
  split.
  { intros t. unfold spec_increment.
    change (S t - 1) with (t - 0). rewrite Nat.sub_0_r. reflexivity. }
  split; [exact Hm|]. split; [|split].
  - intros t [H1 H2]. replace t with (1 + (t - 1)) by lia.
    apply Hbefore. lia.
  - intros Hb. destruct (Hbreak Hb) as [H1 H2]. split; [exact H1|].
    replace (iterations r) with (1 + (iterations r - 1)) at 1 by lia.
    exact H2.
  - intros Hb. destruct (Hfull Hb) as [H1 H2]. split; [exact H1|].
    intros t [Ht1 Ht2]. replace t with (1 + (t - 1)) by lia.
    apply H2. lia.
Qed.

Lemma decode_follows_update_rule_witness :
  exists r,
    decode [1; 2]%float [1; 5]%float kappa_default 2 = Ok r /\
    printed r =
      map (fun t => (t, spec_x kappa_default [1; 2]%float [1; 5]%float (t - 1)))
          (seq 1 (iterations r)) /\
    x_final r = spec_x kappa_default [1; 2]%float [1; 5]%float (iterations r) /\
    iterations r <= 2 - 1.
Proof.
  destruct (decode_follows_update_rule
              kappa_default [1; 2]%float [1; 5]%float 2 eq_refl)
    as (r & Hr & Hp & Hf & _ & _ & _ & Hn & _).
  exists r. exact (conj Hr (conj Hp (conj Hf Hn))).
Defined.

(** The run of the example above: the residual 5 is rejected at t = 1. *)
Lemma decode_rejects_outlier :
  decode [1; 2]%float [1; 5]%float kappa_default 2 =
  Ok {| x_final := 0.1; printed := [(1, 0%float)]; broke := false |}.
Proof. vm_compute. reflexivity. Qed.

(** C2. With the default [max_iters = 100] the loop body runs 99 times at
    most: on the couplings [DeltaA = [4.5]], [DeltaPhi = [0.0005]] no
    increment falls below 0.0001, the loop is left without [break], and
    the last iteration is number 99, not 100.  Likewise with
    [max_iters = 2] on [DeltaA = [1.]], [DeltaPhi = [1.]]: one iteration,
    with increment 0.1, and the loop is over. *)
Theorem decode_stops_one_short :
  (exists r,
     decode [4.5%float] [0.0005%float] kappa_default max_iters_default = Ok r /\
     broke r = false /\
     iterations r = 99 /\
     map fst (printed r) = seq 1 99) /\
  decode [1%float] [1%float] kappa_default 2 =
    Ok {| x_final := 0.1; printed := [(1, 0%float)]; broke := false |}.
Proof.
  split; [|vm_compute; reflexivity].
  eexists. split; [vm_compute; reflexivity|].
  repeat split.
Qed.

End DecoderFacts.

(** * The order of binary64 floats *)

Module FloatOrderFacts.
Import FloatOrder.

Lemma lexlt_trans a b c : lexlt a b -> lexlt b c -> lexlt a c.
Proof. unfold lexlt. lia. Qed.

Lemma lexlt_irrefl a : ~ lexlt a a.
Proof. unfold lexlt. lia. Qed.

Lemma lex_total a b : lexlt a b \/ a = b \/ lexlt b a.
Proof.
  destruct a as [[a1 a2] a3], b as [[b1 b2] b3]. unfold lexlt; simpl.
  destruct (Z.lt_trichotomy a1 b1) as [?|[?|?]]; try lia.
  destruct (Z.lt_trichotomy a2 b2) as [?|[?|?]]; try lia.
  destruct (Z.lt_trichotomy a3 b3) as [?|[?|?]]; try lia.
  right; left. congruence.
Qed.

Lemma SFcompare_key (x y : spec_float) :
  x <> S754_nan -> y <> S754_nan ->
  match SFcompare x y with
  | Some Lt => lexlt (key x) (key y)
  | Some Eq => key x = key y
  | Some Gt => lexlt (key y) (key x)
  | None => False
  end.
Proof.
  intros Hx Hy.
  destruct x as [sx|sx| |sx mx ex], y as [sy|sy| |sy my ey];
    try congruence; simpl;
    try (destruct sx); try (destruct sy); simpl; unfold lexlt; simpl;
    try reflexivity; try lia;
    destruct (Z.compare_spec ex ey); simpl; try lia;
    rewrite Pos.compare_cont_spec; simpl;
    destruct (Pos.compare_spec mx my); simpl; subst; try reflexivity; lia.
Qed.

Lemma number_eqb (x : float) : number x <-> (x =? x)%float = true.
Proof.
  unfold number. rewrite FloatAxioms.eqb_spec. unfold SFeqb.
  destruct (Prim2SF x) as [s|s| |s m e]; simpl.
  - split; [reflexivity | discriminate].
  - destruct s; (split; [reflexivity | discriminate]).
  - split; [congruence | discriminate].
  - destruct s; rewrite Z.compare_refl, Pos.compare_cont_refl; simpl;
      (split; [reflexivity | discriminate]).
Qed.

Lemma nan_dec (x : spec_float) : {x = S754_nan} + {x <> S754_nan}.
Proof. destruct x; (now left) || (right; discriminate). Qed.

Lemma SFcompare_nan_l y : SFcompare S754_nan y = None.
Proof. reflexivity. Qed.

Lemma SFcompare_nan_r x : SFcompare x S754_nan = None.
Proof. destruct x; reflexivity. Qed.

Lemma ltb_key (x y : float) :
  (x <? y)%float = true <->
  number x /\ number y /\ lexlt (fkey x) (fkey y).
Proof.
  unfold number, fkey. rewrite FloatAxioms.ltb_spec. unfold SFltb.
  destruct (nan_dec (Prim2SF x)) as [Ex|Hx].
  { rewrite Ex, SFcompare_nan_l.
    split; [discriminate | intros (? & _); congruence]. }
  destruct (nan_dec (Prim2SF y)) as [Ey|Hy].
  { rewrite Ey, SFcompare_nan_r.
    split; [discriminate | intros (_ & ? & _); congruence]. }
  pose proof (SFcompare_key _ _ Hx Hy) as K.
  destruct (SFcompare (Prim2SF x) (Prim2SF y)) as [[| |]|];
    try contradiction.
  - split; [discriminate|]. intros (_ & _ & Hl).
    rewrite K in Hl. now apply lexlt_irrefl in Hl.
  - split; auto.
  - split; [discriminate|]. intros (_ & _ & Hl).
    exfalso. eapply lexlt_irrefl, lexlt_trans; eauto.
Qed.

Lemma leb_key (x y : float) :
  (x <=? y)%float = true <->
  number x /\ number y /\ lexle (fkey x) (fkey y).
Proof.
  unfold number, fkey, lexle. rewrite FloatAxioms.leb_spec. unfold SFleb.
  destruct (nan_dec (Prim2SF x)) as [Ex|Hx].
  { rewrite Ex, SFcompare_nan_l.
    split; [discriminate | intros (? & _); congruence]. }
  destruct (nan_dec (Prim2SF y)) as [Ey|Hy].
  { rewrite Ey, SFcompare_nan_r.
    split; [discriminate | intros (_ & ? & _); congruence]. }
  pose proof (SFcompare_key _ _ Hx Hy) as K.
  destruct (SFcompare (Prim2SF x) (Prim2SF y)) as [[| |]|];
    try contradiction.
  - split; auto.
  - split; auto.
  - split; [discriminate|]. intros (_ & _ & [Hl|He]).
    + exfalso. eapply lexlt_irrefl, lexlt_trans; eauto.
    + rewrite He in K. now apply lexlt_irrefl in K.
Qed.

Lemma ltb_leb (x y : float) : (x <? y)%float = true -> (x <=? y)%float = true.
Proof.
  rewrite ltb_key, leb_key. intros (Hx & Hy & Hl). repeat split; auto.
  now left.
Qed.

Lemma leb_ltb_trans (x y z : float) :
  (x <=? y)%float = true -> (y <? z)%float = true -> (x <? z)%float = true.
Proof.
  rewrite leb_key, !ltb_key. intros (Hx & Hy & [Hl|He]) (_ & Hz & Hl').
  - repeat split; auto. eapply lexlt_trans; eauto.
  - repeat split; auto. now rewrite He.
Qed.

Lemma ltb_trans (x y z : float) :
  (x <? y)%float = true -> (y <? z)%float = true -> (x <? z)%float = true.
Proof. intros H. apply leb_ltb_trans. now apply ltb_leb. Qed.

Lemma not_ltb_leb (x y : float) :
  number x -> number y -> (x <? y)%float = false -> (y <=? x)%float = true.
Proof.
  intros Hx Hy Hlt. apply leb_key. repeat split; auto.
  destruct (lex_total (fkey x) (fkey y)) as [Hl|[He|Hl]].
  - assert (H : (x <? y)%float = true) by (apply ltb_key; auto).
    congruence.
  - right. now symmetry.
  - now left.
Qed.

Lemma leb_refl (x : float) : number x -> (x <=? x)%float = true.
Proof. intros Hx. apply leb_key. repeat split; auto. now right. Qed.

End FloatOrderFacts.

(** * The coupling builder *)

Module CouplingFacts.
Import Py Couplings FloatOrder FloatOrderFacts.

(** ** The order numpy sorts floats by *)

Lemma key_class (f : spec_float) : (-2 <= fst (fst (key f)) <= 2)%Z.
Proof. destruct f as [s|s| |s m e]; try destruct s; simpl; lia. Qed.

Lemma sort_key_number (x : float) : number x -> sort_key x = fkey x.
Proof.
  unfold number, sort_key, fkey. destruct (Prim2SF x); congruence.
Qed.

Lemma sort_key_nan (x : float) : ~ number x -> sort_key x = (3, 0, 0)%Z.
Proof.
  unfold number, sort_key. destruct (Prim2SF x); try reflexivity;
    intros H; exfalso; apply H; discriminate.
Qed.

Lemma number_dec (x : float) : {number x} + {~ number x}.
Proof.
  unfold number. destruct (nan_dec (Prim2SF x)); [right|left]; auto.
Qed.

(** [np_lt] is the strict order of the sort keys. *)
Lemma np_lt_key (x y : float) :
  np_lt x y = true <-> lexlt (sort_key x) (sort_key y).
Proof.
  unfold np_lt.
  destruct (number_dec x) as [Hx|Hx], (number_dec y) as [Hy|Hy].
  - rewrite !sort_key_number by assumption.
    apply number_eqb in Hy. rewrite Hy. simpl. rewrite orb_false_r.
    rewrite ltb_key. apply number_eqb in Hy. tauto.
  - rewrite sort_key_number, sort_key_nan by assumption.
    assert (Ey : (y =? y)%float = false).
    { destruct (y =? y)%float eqn:E; [|reflexivity].
      apply number_eqb in E. contradiction. }
    apply number_eqb in Hx. rewrite Ey, Hx. simpl. rewrite orb_true_r.
    split; [intros _|reflexivity].
    pose proof (key_class (Prim2SF x)). unfold lexlt, fkey. simpl. lia.
  - rewrite sort_key_nan, sort_key_number by assumption.
    assert (Ex : (x =? x)%float = false).
    { destruct (x =? x)%float eqn:E; [|reflexivity].
      apply number_eqb in E. contradiction. }
    assert (El : (x <? y)%float = false).
    { destruct (x <? y)%float eqn:E; [|reflexivity].
      apply ltb_key in E as (? & _). contradiction. }
    rewrite Ex, El, andb_false_r. simpl.
    split; [discriminate|].
    pose proof (key_class (Prim2SF y)). unfold lexlt, fkey. simpl. lia.
  - rewrite !sort_key_nan by assumption.
    assert (Ex : (x =? x)%float = false).
    { destruct (x =? x)%float eqn:E; [|reflexivity].
      apply number_eqb in E. contradiction. }
    assert (El : (x <? y)%float = false).
    { destruct (x <? y)%float eqn:E; [|reflexivity].
      apply ltb_key in E as (? & _). contradiction. }
    rewrite Ex, El, andb_false_r. simpl.
    split; [discriminate | intros H; now apply lexlt_irrefl in H].
Qed.

Lemma np_lt_asym (x y : float) : np_lt x y = true -> np_lt y x = false.
Proof.
  intros H. apply np_lt_key in H.
  destruct (np_lt y x) eqn:E; [|reflexivity].
  apply np_lt_key in E. exfalso.
  eapply lexlt_irrefl, lexlt_trans; eauto.
Qed.

Lemma in_order_trans (keys : list float) (i j k : nat) :
  in_order keys i j -> in_order keys j k -> in_order keys i k.
Proof.
  unfold in_order. intros Hij Hjk.
  destruct (np_lt (nth k keys 0%float) (nth i keys 0%float)) eqn:E;
    [|reflexivity].
  apply np_lt_key in E. exfalso.
  assert (Hba : ~ lexlt (sort_key (nth j keys 0%float))
                        (sort_key (nth i keys 0%float))).
  { intros H. apply np_lt_key in H. congruence. }
  assert (Hcb : ~ lexlt (sort_key (nth k keys 0%float))
                        (sort_key (nth j keys 0%float))).
  { intros H. apply np_lt_key in H. congruence. }
  destruct (sort_key (nth i keys 0%float)) as [[a1 a2] a3].
  destruct (sort_key (nth j keys 0%float)) as [[b1 b2] b3].
  destruct (sort_key (nth k keys 0%float)) as [[c1 c2] c3].
  unfold lexlt in *. simpl in *. lia.
Qed.

(** ** [argsort] *)

Section Sorting.
Variable keys : list float.

Lemma length_insert (i : nat) (l : list nat) :
  length (insert keys i l) = S (length l).
Proof.
  induction l as [|j l IH]; simpl; [reflexivity|].
  destruct (np_lt _ _); simpl; auto.
Qed.

Lemma insert_perm (i : nat) (l : list nat) :
  Permutation (insert keys i l) (i :: l).
Proof.
  induction l as [|j l IH]; simpl; [reflexivity|].
  destruct (np_lt _ _); [reflexivity|].
  rewrite IH. apply perm_swap.
Qed.

Lemma insert_hd (i j : nat) (l : list nat) :
  in_order keys j i -> HdRel (in_order keys) j l ->
  HdRel (in_order keys) j (insert keys i l).
Proof.
  intros Hji Hl. destruct l as [|k l]; simpl.
  - now constructor.
  - destruct (np_lt _ _); constructor; auto.
    now inversion Hl.
Qed.

Lemma insert_sorted (i : nat) (l : list nat) :
  Sorted (in_order keys) l -> Sorted (in_order keys) (insert keys i l).
Proof.
  induction 1 as [|j l Hs IH Hhd]; simpl.
  - repeat constructor.
  - destruct (np_lt (nth i keys 0%float) (nth j keys 0%float)) eqn:E.
    + constructor; [now constructor|].
      constructor. unfold in_order. now apply np_lt_asym.
    + constructor; [exact IH|]. now apply insert_hd.
Qed.

Lemma fold_insert (l acc : list nat) :
  let s := fold_left (fun sorted i => insert keys i sorted) l acc in
  length s = length l + length acc /\
  Permutation s (l ++ acc) /\
  (Sorted (in_order keys) acc -> Sorted (in_order keys) s).
Proof.
  revert acc; induction l as [|i l IH]; intros acc; simpl.
  - repeat split; auto.
  - destruct (IH (insert keys i acc)) as (Hlen & Hperm & Hsort).
    repeat split.
    + rewrite Hlen, length_insert. lia.
    + rewrite Hperm, insert_perm. symmetry. apply Permutation_middle.
    + intros Hacc. now apply Hsort, insert_sorted.
Qed.

Lemma argsort_spec :
  length (argsort keys) = length keys /\
  Permutation (argsort keys) (seq 0 (length keys)) /\
  StronglySorted (in_order keys) (argsort keys).
Proof.
  destruct (fold_insert (seq 0 (length keys)) []) as (Hlen & Hperm & Hsort).
  unfold argsort. repeat split.
  - rewrite Hlen, length_seq. simpl; lia.
  - now rewrite app_nil_r in Hperm.
  - apply Sorted_StronglySorted.
    + intros i j k. apply in_order_trans.
    + apply Hsort. constructor.
Qed.
End Sorting.

(** ** The pairs *)

Lemma adjacent_eq (sidx : list nat) :
  adjacent sidx = combine (firstn (length sidx - 1) sidx) (skipn 1 sidx).
Proof.
  unfold adjacent.
  change (Some (-1)%Z) with (Some (- Z.of_nat 1)%Z).
  change (Some 1%Z) with (Some (Z.of_nat 1)).
  now rewrite slice_drop_last, slice_drop_first by lia.
Qed.

Lemma skip_one_eq (sidx : list nat) :
  skip_one sidx = combine (firstn (length sidx - 2) sidx) (skipn 2 sidx).
Proof.
  unfold skip_one.
  change (Some (-2)%Z) with (Some (- Z.of_nat 2)%Z).
  change (Some 2%Z) with (Some (Z.of_nat 2)).
  now rewrite slice_drop_last, slice_drop_first by lia.
Qed.

Lemma nth_pairs (k : nat) (sidx : list nat) (i : nat) :
  i < length sidx - k ->
  nth i (combine (firstn (length sidx - k) sidx) (skipn k sidx)) (0, 0) =
  (nth i sidx 0, nth (i + k) sidx 0).
Proof.
  intros Hi.
  rewrite combine_nth by (rewrite length_firstn, length_skipn; lia).
  rewrite nth_firstn, nth_skipn.
  apply Nat.ltb_lt in Hi; rewrite Hi.
  now rewrite (Nat.add_comm k i).
Qed.

Lemma length_pairs (k : nat) (sidx : list nat) :
  length (combine (firstn (length sidx - k) sidx) (skipn k sidx)) =
  length sidx - k.
Proof.
  rewrite length_combine, length_firstn, length_skipn. lia.
Qed.

(** The couplings made from any arrangement [sidx] of at least two
    indices. *)
Lemma pairs_spec (sidx : list nat) :
  let D := length sidx in
  2 <= D ->
  length (adjacent sidx) = D - 1 /\
  length (skip_one sidx) = D - 2 /\
  length (pairs sidx) = 2 * D - 3 /\
  (forall i, i < D - 1 ->
             nth i (pairs sidx) (0, 0) = (nth i sidx 0, nth (i + 1) sidx 0)) /\
  (forall i, i < D - 2 ->
             nth (D - 1 + i) (pairs sidx) (0, 0) =
             (nth i sidx 0, nth (i + 2) sidx 0)).
Proof.
  intros D HD.
  assert (Ha : length (adjacent sidx) = D - 1)
    by (now rewrite adjacent_eq, length_pairs).
  assert (Hs : length (skip_one sidx) = D - 2)
    by (now rewrite skip_one_eq, length_pairs).
  repeat split; auto.
  - unfold pairs. rewrite length_app, Ha, Hs. lia.
  - intros i Hi. unfold pairs.
    rewrite app_nth1 by lia.
    rewrite adjacent_eq. apply nth_pairs. fold D. lia.
  - intros i Hi. unfold pairs.
    rewrite app_nth2 by lia. rewrite Ha.
    replace (D - 1 + i - (D - 1)) with i by lia.
    rewrite skip_one_eq. apply nth_pairs. fold D. lia.
Qed.

(** C7. For a phase spectrum of dimension D >= 2, [sidx] being its indices
    sorted by ascending phase: the builder makes the D-1 pairs
    (sidx[i], sidx[i+1]), then the D-2 pairs (sidx[i], sidx[i+2]), 2D-3
    couplings in all, and DeltaA holds phase[j] - phase[k] for each
    coupling (j, k). *)
Theorem coupling_construction (phase : list float) :
  let D := length phase in
  let sidx := argsort phase in
  let cs := couplings phase in
  2 <= D ->
  (length sidx = D /\ Permutation sidx (seq 0 D) /\
   StronglySorted (in_order phase) sidx) /\
  cs = adjacent sidx ++ skip_one sidx /\
  length (adjacent sidx) = D - 1 /\
  length (skip_one sidx) = D - 2 /\
  length cs = 2 * D - 3 /\
  (forall i, i < D - 1 -> nth i cs (0, 0) = (nth i sidx 0, nth (i + 1) sidx 0)) /\
  (forall i, i < D - 2 ->
             nth (D - 1 + i) cs (0, 0) = (nth i sidx 0, nth (i + 2) sidx 0)) /\
  length (DeltaA phase cs) = 2 * D - 3 /\
  (forall i j k, i < 2 * D - 3 -> nth i cs (0, 0) = (j, k) ->
                 nth i (DeltaA phase cs) 0%float =
                 (nth j phase 0 - nth k phase 0)%float).
Proof.
  intros D sidx cs HD.
  destruct (argsort_spec phase) as (Hlen & Hperm & Hsort).
  fold D in Hlen, Hperm. fold sidx in Hlen, Hperm, Hsort.
  destruct (pairs_spec sidx) as (Ha & Hs & Hn & Hadj & Hskip);
    [rewrite Hlen; exact HD|].
  rewrite Hlen in Ha, Hs, Hn, Hadj, Hskip.
  assert (Hcs : length cs = 2 * D - 3) by exact Hn.
  repeat split; auto.
  - unfold DeltaA. now rewrite length_map.
  - intros i j k Hi Hjk. unfold DeltaA.
    rewrite (nth_indep _ 0%float
               ((fun c => (nth (fst c) phase 0 - nth (snd c) phase 0)%float) (0, 0)))
      by (rewrite length_map; lia).
    rewrite (map_nth (fun c => (nth (fst c) phase 0 - nth (snd c) phase 0)%float)).
    now rewrite Hjk.
Qed.

Lemma coupling_construction_witness :
  nth 0 (couplings [3; 1; 2]%float) (0, 0) = (1, 2) /\
  nth 2 (couplings [3; 1; 2]%float) (0, 0) = (1, 0) /\
  length (couplings [3; 1; 2]%float) = 3 /\
  nth 2 (DeltaA [3; 1; 2]%float (couplings [3; 1; 2]%float)) 0%float = (-2)%float.
Proof.
  pose proof (coupling_construction [3; 1; 2]%float (le_S _ _ (le_n 2)))
    as (_ & _ & _ & _ & Hn & Hadj & Hskip & _ & HdA).
  exact (conj (Hadj 0 (le_S _ _ (le_n 1)))
              (conj (Hskip 0 (le_n 1))
                    (conj Hn (HdA 2 1 0 (le_n 3) eq_refl)))).
Defined.

(** The indices of the couplings are positions of the phase spectrum. *)
Lemma couplings_in_range (phase : list float) (j k : nat) :
  In (j, k) (couplings phase) -> j < length phase /\ k < length phase.
Proof.
  destruct (argsort_spec phase) as (_ & Hperm & _).
  assert (Hin : forall i, In i (argsort phase) -> i < length phase).
  { intros i Hi. apply (Permutation_in _ Hperm) in Hi.
    apply in_seq in Hi. lia. }
  assert (Hpair : forall n m, In (j, k) (combine (firstn n (argsort phase))
                                                 (skipn m (argsort phase))) ->
                              j < length phase /\ k < length phase).
  { intros n m H. split; apply Hin.
    - apply in_combine_l in H.
      rewrite <- (firstn_skipn n (argsort phase)). apply in_or_app. now left.
    - apply in_combine_r in H.
      rewrite <- (firstn_skipn m (argsort phase)). apply in_or_app. now right. }
  unfold couplings, pairs. rewrite adjacent_eq, skip_one_eq. intros H.
  apply in_app_or in H as [H|H]; eapply Hpair; exact H.
Qed.

End CouplingFacts.

(** * The vocabulary cleanup *)

Module HRRFacts.
Import Py.

(** C8. A query whose similarity to every member is at or below the
    initial [max_sim = -1.e50] is not cleaned up to the most similar member:
    [closest] keeps its initial -1 and [max_sim] its initial value.  On the
    one-member vocabulary the answer has index -1 and similarity -1e50,
    though member 0 is the (first) maximum with similarity -2e50; on the
    two-member vocabulary the last member is returned although member 0
    is the most similar one. *)
Theorem cleanup_below_sentinel :
  let m0 := MySP.of_values [1; 0; 0]%float in
  let m1 := MySP.of_values [0; 1; 0]%float in
  let q := MySP.of_values [-2e50; -3e50; 0]%float in
  MySP.similarity q m0 = Ok (-2e50)%float /\
  MySP.similarity q m1 = Ok (-3e50)%float /\
  HRR.first_argmax [(-2e50)%float] 0 /\
  HRR.first_argmax [(-2e50)%float; (-3e50)%float] 0 /\
  HRR.cleanup (HRR.mk 1 3 [m0]) q = Ok (m0, (-1)%Z, (-1e50)%float) /\
  HRR.cleanup (HRR.mk 2 3 [m0; m1]) q = Ok (m1, (-1)%Z, (-1e50)%float).
Proof.
  intros m0 m1 q.
  split; [vm_compute; reflexivity|].
  split; [vm_compute; reflexivity|].
  split; [|split].
  - split; [simpl; lia|]. split; intros j Hj; [|lia].
    simpl in Hj. assert (j = 0) as -> by lia. vm_compute; reflexivity.
  - split; [simpl; lia|]. split; intros j Hj; [|lia].
    simpl in Hj.
    assert (j = 0 \/ j = 1) as [-> | ->] by lia; vm_compute; reflexivity.
  - split; vm_compute; reflexivity.
Qed.

(** ** When the scan is right *)

Section Scan.
Import FloatOrder FloatOrderFacts.
Variables (h : HRR.t) (x : MySP.t float).
Hypothesis same_dim :
  forall s, In s (HRR.vocab h) -> MySP.dim s = MySP.dim x.
Hypothesis numbers :
  forall j, j < length (HRR.vocab h) ->
            number (nth j (HRR.similarities h x) 0%float).

Lemma number_sentinel : number (-1e50)%float.
Proof. apply number_eqb. vm_compute. reflexivity. Qed.

Lemma similarity_member (pre rest : list (MySP.t float)) (s : MySP.t float) :
  HRR.vocab h = pre ++ s :: rest ->
  MySP.similarity x s = Ok (nth (length pre) (HRR.similarities h x) 0%float).
Proof.
  intros Hv. unfold MySP.similarity, dot.
  assert (Hd : MySP.dim s = MySP.dim x).
  { apply same_dim. rewrite Hv. apply in_or_app. right. now left. }
  unfold MySP.dim in Hd. rewrite Hd, Nat.eqb_refl. f_equal.
  unfold HRR.similarities. rewrite Hv, map_app. simpl.
  rewrite app_nth2 by (rewrite length_map; lia).
  now rewrite length_map, Nat.sub_diag.
Qed.

(** What the scan knows after the first [i] members. *)
Lemma scan_invariant (rest pre : list (MySP.t float)) (st : Z * float) :
  HRR.vocab h = pre ++ rest ->
  let sims := HRR.similarities h x in
  let inv (i : nat) (st : Z * float) :=
    (fst st = (-1)%Z /\ snd st = (-1e50)%float /\
     forall j, j < i -> (nth j sims 0 <=? -1e50)%float = true) \/
    (exists k, fst st = Z.of_nat k /\ k < i /\ snd st = nth k sims 0%float /\
               (forall j, j < i -> (nth j sims 0 <=? snd st)%float = true) /\
               (forall j, j < k -> (nth j sims 0 <? snd st)%float = true)) in
  inv (length pre) st ->
  exists st', HRR.scan x rest (length pre) st = Ok st' /\
              inv (length (HRR.vocab h)) st'.
Proof.
  intros Hv sims inv. revert pre st Hv.
  induction rest as [|s rest IH]; intros pre st Hv Hinv.
  - exists st. split; [reflexivity|].
    now rewrite Hv, app_nil_r.
  - simpl. rewrite (similarity_member pre rest s Hv).
    cbv beta iota delta [rbind]. fold sims.
    set (i := length pre) in *. set (sim := nth i sims 0%float).
    assert (Hi : i < length (HRR.vocab h)).
    { rewrite Hv, length_app. simpl. unfold i. lia. }
    assert (Hnum : number sim) by (now apply numbers).
    assert (Hnext : inv (S i) (if (snd st <? sim)%float
                               then (Z.of_nat i, sim) else st)).
    { destruct (snd st <? sim)%float eqn:Hlt.
      - right. exists i. simpl. repeat split; auto.
        + intros j Hj. destruct (Nat.eq_dec j i) as [->|Hne].
          * now apply leb_refl.
          * apply ltb_leb. apply leb_ltb_trans with (y := snd st); auto.
            destruct Hinv as [(_ & Hm & Hall) | (k & _ & _ & _ & Hall & _)].
            -- rewrite Hm. apply Hall. lia.
            -- apply Hall. lia.
        + intros j Hj. apply leb_ltb_trans with (y := snd st); auto.
          destruct Hinv as [(_ & Hm & Hall) | (k & _ & _ & _ & Hall & _)].
          -- rewrite Hm. now apply Hall.
          -- now apply Hall.
      - destruct Hinv as [(Hc & Hm & Hall) | (k & Hc & Hk & Hm & Hall & Hfirst)].
        + left. repeat split; auto. intros j Hj.
          destruct (Nat.eq_dec j i) as [->|Hne]; [|apply Hall; lia].
          apply not_ltb_leb; auto using number_sentinel.
          now rewrite <- Hm.
        + right. exists k. repeat split; auto.
          intros j Hj.
          destruct (Nat.eq_dec j i) as [->|Hne]; [|apply Hall; lia].
          apply not_ltb_leb; auto.
          rewrite Hm. apply numbers. lia. }
    replace (S i) with (length (pre ++ [s])) in *
      by (rewrite length_app; simpl; unfold i; lia).
    apply IH; auto. now rewrite <- app_assoc.
Qed.

(** X3. Whenever every member has the dimension of the query, every
    similarity is a number and one of them is above the initial [max_sim],
    [cleanup] returns the first member of maximum similarity, its index,
    and its similarity. *)
Lemma cleanup_first_argmax :
  (exists j, j < length (HRR.vocab h) /\
             (-1e50 <? nth j (HRR.similarities h x) 0)%float = true) ->
  exists k member,
    HRR.first_argmax (HRR.similarities h x) k /\
    nth_error (HRR.vocab h) k = Some member /\
    HRR.cleanup h x =
    Ok (member, Z.of_nat k, nth k (HRR.similarities h x) 0%float).
Proof.
  intros (j & Hj & Habove).
  destruct (scan_invariant (HRR.vocab h) [] ((-1)%Z, (-1e50)%float) eq_refl)
    as (st & Hscan & Hinv).
  { left. simpl. repeat split; auto. intros j' Hj'. lia. }
  simpl in Hscan.
  destruct Hinv as [(_ & _ & Hall) | (k & Hc & Hk & Hm & Hall & Hfirst)].
  - exfalso. specialize (Hall j Hj).
    pose proof (leb_ltb_trans _ _ _ Hall Habove) as Hcyc.
    apply ltb_key in Hcyc as (_ & _ & Hl). now apply lexlt_irrefl in Hl.
  - destruct (nth_error (HRR.vocab h) k) as [member|] eqn:Hn;
      [|apply nth_error_None in Hn; lia].
    exists k, member. split; [|split; [exact Hn|]].
    + unfold HRR.first_argmax.
      assert (Hlen : length (HRR.similarities h x) = length (HRR.vocab h))
        by (unfold HRR.similarities; apply length_map).
      rewrite Hlen, <- Hm. repeat split; auto.
    + unfold HRR.cleanup. rewrite Hscan. cbv beta iota delta [rbind].
      unfold HRR.call, index. rewrite Hc.
      assert (E : (Z.of_nat k <? 0)%Z = false) by (apply Z.ltb_ge; lia).
      rewrite !E, Nat2Z.id, Hn. cbv beta iota delta [rbind].
      now rewrite Hm.
Qed.
End Scan.

End HRRFacts.

(** * The conjugate-symmetric phases of [__init__] *)

Section Symmetrize.
Import Py MySP.
Context {A : Type} `{Scalar A}.

Lemma set_slice_tail (l rhs : list A) (k : nat) :
  0 < k -> k <= length l -> length rhs = k ->
  set_slice l (Some (- Z.of_nat k)%Z) None rhs =
  Ok (firstn (length l - k) l ++ rhs).
Proof.
  intros Hk Hkl Hrhs. unfold set_slice, slice. simpl.
  rewrite bound_neg by assumption.
  rewrite length_firstn, length_skipn.
  replace (Nat.min (length l - (length l - k)) (length l - (length l - k)))
    with k by lia.
  rewrite Hrhs, Nat.eqb_refl.
  rewrite skipn_all2 by lia. now rewrite app_nil_r.
Qed.

Lemma set_slice_tail_mismatch (l rhs : list A) (k : nat) :
  0 < k -> k <= length l -> length rhs <> k -> length rhs <> 1 ->
  set_slice l (Some (- Z.of_nat k)%Z) None rhs = Raise ValueError.
Proof.
  intros Hk Hkl Hrhs H1. unfold set_slice, slice. simpl.
  rewrite bound_neg by assumption.
  rewrite length_firstn, length_skipn.
  replace (Nat.min (length l - (length l - k)) (length l - (length l - k)))
    with k by lia.
  apply Nat.eqb_neq in Hrhs; rewrite Hrhs.
  destruct rhs as [|a [|b rhs]]; simpl in *; try reflexivity; lia.
Qed.

Lemma half_up (D : nat) :
  3 <= D ->
  2 <= (D + 1) / 2 /\ (D + 1) / 2 < D /\
  (D mod 2 = 0 -> 2 * ((D + 1) / 2) = D /\ D / 2 = (D + 1) / 2) /\
  (D mod 2 <> 0 -> 2 * ((D + 1) / 2) = D + 1).
Proof.
  intros HD.
  pose proof (Nat.div_mod_eq (D + 1) 2) as E1.
  pose proof (Nat.mod_upper_bound (D + 1) 2) as B1.
  pose proof (Nat.div_mod_eq D 2) as E2.
  pose proof (Nat.mod_upper_bound D 2) as B2.
  assert (Hm : (D + 1) mod 2 = (D mod 2 + 1) mod 2).
  { rewrite <- Nat.Div0.add_mod_idemp_l. reflexivity. }
  destruct (D mod 2) as [|[|m]] eqn:Em; simpl in Hm; lia.
Qed.

Lemma length_mirrored (angles : list A) :
  3 <= length angles -> length (mirrored angles) = length angles.
Proof.
  intros HD. destruct (half_up _ HD) as (H2 & HD2 & _).
  unfold mirrored.
  rewrite length_app, length_rev, length_map, !length_firstn, length_skipn.
  lia.
Qed.

Lemma nth_mirrored_low (angles : list A) (j : nat) :
  3 <= length angles ->
  j < length angles - ((length angles + 1) / 2 - 1) ->
  nth j (mirrored angles) s0 = nth j angles s0.
Proof.
  intros HD Hj. unfold mirrored.
  rewrite app_nth1 by (rewrite length_firstn; lia).
  rewrite nth_firstn. apply Nat.ltb_lt in Hj. now rewrite Hj.
Qed.

Lemma nth_mirrored_high (angles : list A) (k : nat) :
  3 <= length angles ->
  1 <= k -> k < (length angles + 1) / 2 ->
  nth (length angles - k) (mirrored angles) s0 = sopp (nth k angles s0).
Proof.
  intros HD Hk1 Hk. destruct (half_up _ HD) as (H2 & HD2 & _).
  unfold mirrored.
  set (D := length angles) in *. set (D2 := (D + 1) / 2) in *.
  assert (Hlen : length (map sopp (firstn (D2 - 1) (skipn 1 angles))) = D2 - 1).
  { rewrite length_map, length_firstn, length_skipn. fold D. lia. }
  rewrite app_nth2 by (rewrite length_firstn; fold D; lia).
  rewrite length_firstn. fold D.
  rewrite rev_nth by (rewrite Hlen; lia).
  rewrite Hlen.
  rewrite (nth_indep _ s0 (sopp s0)) by (rewrite Hlen; lia).
  rewrite map_nth, nth_firstn, nth_skipn.
  replace (D2 - 1 - S (D - k - Nat.min (D - (D2 - 1)) D)) with (k - 1) by lia.
  assert (Hlt : (k - 1 <? D2 - 1) = true) by (apply Nat.ltb_lt; lia).
  rewrite Hlt. now replace (1 + (k - 1)) with k by lia.
Qed.

Lemma symmetrize_eq (angles : list A) :
  3 <= length angles ->
  symmetrize angles =
  Ok (if length angles mod 2 =? 0
      then update (update (mirrored angles) 0 s0) ((length angles + 1) / 2) s0
      else update (mirrored angles) 0 s0).
Proof.
  intros HD. destruct (half_up _ HD) as (H2 & HD2 & _).
  unfold symmetrize.
  set (D := length angles) in *. set (D2 := (D + 1) / 2) in *.
  change (Some 1%Z) with (Some (Z.of_nat 1)).
  rewrite slice_between by (fold D; lia).
  replace (- Z.of_nat D2 + 1)%Z with (- Z.of_nat (D2 - 1))%Z by lia.
  rewrite set_slice_tail;
    try (unfold flip, np_neg;
         rewrite ?length_rev, ?length_map, ?length_firstn, ?length_skipn);
    fold D; try lia.
  change (firstn (D - (D2 - 1)) angles ++
          rev (map sopp (firstn (D2 - 1) (skipn 1 angles))))
    with (mirrored angles).
  cbv beta iota delta [rbind].
  unfold set_index at 1. rewrite length_mirrored by assumption. fold D.
  assert (H0 : (0 <? D) = true) by (apply Nat.ltb_lt; lia).
  rewrite H0. cbv beta iota delta [rbind].
  destruct (D mod 2 =? 0); [|reflexivity].
  unfold set_index. rewrite length_update, length_mirrored by assumption.
  fold D. assert (H1 : (D2 <? D) = true) by (apply Nat.ltb_lt; lia).
  now rewrite H1.
Qed.

(** Random construction fails for fewer than three values. *)
Lemma symmetrize_small (angles : list A) :
  length angles < 3 -> exists e, symmetrize angles = Raise e.
Proof.
  destruct angles as [|x [|y [|z rest]]]; simpl; intros Hl; try lia;
    eexists; vm_compute; reflexivity.
Qed.

(** The phases [__init__] stores are conjugate-symmetric. *)
Lemma symmetrize_spec (angles out : list A) :
  symmetrize angles = Ok out ->
  let D := length angles in
  3 <= D /\ length out = D /\
  nth 0 out s0 = s0 /\
  (forall k, 1 <= k -> 2 * k < D ->
             nth k out s0 = nth k angles s0 /\
             nth (D - k) out s0 = sopp (nth k out s0)) /\
  (D mod 2 = 0 -> nth (D / 2) out s0 = s0).
Proof.
  intros Hs D.
  assert (HD : 3 <= D).
  { destruct (Nat.le_gt_cases 3 D) as [|Hlt]; [assumption|].
    destruct (symmetrize_small angles Hlt) as [e He]. congruence. }
  destruct (half_up _ HD) as (H2 & HD2 & Heven & Hodd).
  rewrite symmetrize_eq in Hs by assumption. apply Ok_inj in Hs.
  rename Hs into Hout. fold D in Hout. set (D2 := (D + 1) / 2) in *.
  assert (Hnth : forall j, j < D ->
            nth j out s0 =
            if (j =? 0) || ((D mod 2 =? 0) && (j =? D2)) then s0
            else nth j (mirrored angles) s0).
  { intros j Hj. subst out.
    destruct (D mod 2 =? 0); rewrite !nth_update, ?length_update,
      ?length_mirrored by assumption; fold D.
    - assert (E1 : (D2 <? D) = true) by (apply Nat.ltb_lt; lia).
      assert (E0 : (0 <? D) = true) by (apply Nat.ltb_lt; lia).
      rewrite E1, E0, !andb_true_r. simpl.
      destruct (j =? D2), (j =? 0); reflexivity.
    - assert (E0 : (0 <? D) = true) by (apply Nat.ltb_lt; lia).
      rewrite E0, andb_true_r. simpl. now rewrite orb_false_r. }
  split; [assumption|]. split; [|split; [|split]].
  - subst out. destruct (D mod 2 =? 0);
      rewrite ?length_update; now apply length_mirrored.
  - rewrite Hnth by lia. reflexivity.
  - intros k Hk1 Hk2.
    assert (HkD2 : k < D2).
    { destruct (Nat.eq_dec (D mod 2) 0) as [E|E];
        [destruct (Heven E) | specialize (Hodd E)]; lia. }
    assert (Hk : nth k out s0 = nth k angles s0).
    { rewrite Hnth by lia.
      replace (k =? 0) with false by (symmetry; apply Nat.eqb_neq; lia).
      replace (k =? D2) with false by (symmetry; apply Nat.eqb_neq; lia).
      rewrite andb_false_r. simpl.
      apply nth_mirrored_low; fold D; fold D2; lia. }
    split; [exact Hk|]. rewrite Hk.
    rewrite Hnth by lia.
    replace (D - k =? 0) with false by (symmetry; apply Nat.eqb_neq; lia).
    assert (Hne : (D mod 2 =? 0) && (D - k =? D2) = false).
    { destruct (Nat.eqb_spec (D mod 2) 0) as [E|E]; [|reflexivity].
      destruct (Heven E). simpl. apply Nat.eqb_neq. lia. }
    rewrite Hne. simpl.
    apply nth_mirrored_high; fold D; fold D2; lia.
  - intros E. destruct (Heven E) as [E2 E3]. rewrite E3. fold D2.
    rewrite Hnth by lia.
    apply Nat.eqb_eq in E. rewrite E, Nat.eqb_refl. simpl.
    now rewrite orb_true_r.
Qed.
End Symmetrize.

(** On floats, for six and for five values. *)
Lemma symmetrize_floats :
  MySP.symmetrize [1; 2; 3; 4; 5; 6]%float = Ok [0; 2; 3; 0; -3; -2]%float /\
  MySP.symmetrize [1; 2; 3; 4; 5]%float = Ok [0; 2; 3; -3; -2]%float /\
  MySP.symmetrize [1; 2]%float = Raise ValueError /\
  MySP.symmetrize [1]%float = Raise ValueError.
Proof. repeat split; vm_compute; reflexivity. Qed.

(** * Complex arithmetic *)

Module CxFacts.
Import Cx.
Local Open Scope R_scope.

Lemma C_eq (z w : C) : Re z = Re w -> Im z = Im w -> z = w.
Proof. destruct z, w; simpl; intros -> ->; reflexivity. Qed.

Ltac cx_unfold :=
  unfold Cadd, Csub, Copp, Cmul, Cconj, RtoC, C0, C1, Ci, cis, Re, Im in *;
  simpl fst in *; simpl snd in *.

Ltac cx_ring := intros; apply C_eq; cx_unfold; ring.

Lemma Cadd_comm z w : Cadd z w = Cadd w z.
Proof. cx_ring. Qed.

Lemma Cadd_assoc z w u : Cadd z (Cadd w u) = Cadd (Cadd z w) u.
Proof. cx_ring. Qed.

Lemma Cadd_0_l z : Cadd C0 z = z.
Proof. cx_ring. Qed.

Lemma Cadd_0_r z : Cadd z C0 = z.
Proof. cx_ring. Qed.

Lemma Cmul_comm z w : Cmul z w = Cmul w z.
Proof. cx_ring. Qed.

Lemma Cmul_assoc z w u : Cmul z (Cmul w u) = Cmul (Cmul z w) u.
Proof. cx_ring. Qed.

Lemma Cmul_1_l z : Cmul C1 z = z.
Proof. cx_ring. Qed.

Lemma Cmul_1_r z : Cmul z C1 = z.
Proof. cx_ring. Qed.

Lemma Cmul_0_l z : Cmul C0 z = C0.
Proof. cx_ring. Qed.

Lemma Cmul_0_r z : Cmul z C0 = C0.
Proof. cx_ring. Qed.

Lemma Cmul_add_distr_l z w u : Cmul z (Cadd w u) = Cadd (Cmul z w) (Cmul z u).
Proof. cx_ring. Qed.

Lemma Cmul_add_distr_r z w u : Cmul (Cadd z w) u = Cadd (Cmul z u) (Cmul w u).
Proof. cx_ring. Qed.

Lemma Cconj_add z w : Cconj (Cadd z w) = Cadd (Cconj z) (Cconj w).
Proof. cx_ring. Qed.

Lemma Cconj_mul z w : Cconj (Cmul z w) = Cmul (Cconj z) (Cconj w).
Proof. cx_ring. Qed.

Lemma Cconj_involutive z : Cconj (Cconj z) = z.
Proof. cx_ring. Qed.

Lemma Cconj_RtoC x : Cconj (RtoC x) = RtoC x.
Proof. cx_ring. Qed.

Lemma Cconj_fixed_real z : Cconj z = z -> Im z = 0.
Proof.
  destruct z as [x y]; unfold Cconj; simpl. intros E.
  injection E as E. lra.
Qed.

Lemma real_Cconj_fixed z : Im z = 0 -> Cconj z = z.
Proof.
  destruct z as [x y]; unfold Cconj; simpl. intros ->. f_equal. ring.
Qed.

Lemma RtoC_Re z : Im z = 0 -> RtoC (Re z) = z.
Proof. destruct z as [x y]; simpl; intros ->; reflexivity. Qed.

(** Division by a real, and by a complex number other than 0. *)
Lemma Cdiv_RtoC z (x : R) :
  x <> 0 -> Cdiv z (RtoC x) = (Re z / x, Im z / x).
Proof.
  intros Hx. apply C_eq; unfold Cdiv, RtoC, Re, Im; simpl; field; assumption.
Qed.

Lemma Cdiv_mul_cancel z w :
  w <> C0 -> Cdiv (Cmul z w) w = z.
Proof.
  destruct z as [a b], w as [c d]. intros Hw.
  assert (Hd : c * c + d * d <> 0).
  { intros E. apply Hw. unfold C0.
    assert (c = 0) by nra. assert (d = 0) by nra. now subst. }
  apply C_eq; unfold Cdiv, Cmul, Re, Im; simpl; field; assumption.
Qed.

Lemma Cmul_div_RtoC z (x : R) :
  x <> 0 -> Cdiv (Cmul (RtoC x) z) (RtoC x) = z.
Proof.
  intros Hx. rewrite Cdiv_RtoC by assumption.
  destruct z as [a b]. apply C_eq; cx_unfold; field; assumption.
Qed.

Lemma Cmod_0_iff z : Cmod z = 0 <-> z = C0.
Proof.
  destruct z as [a b]. unfold Cmod, C0; simpl. split.
  - intros E. apply sqrt_eq_0 in E; [|nra].
    assert (a = 0) by nra. assert (b = 0) by nra. now subst.
  - intros E. injection E as -> ->.
    replace (0 * 0 + 0 * 0) with 0 by ring. apply sqrt_0.
Qed.

Lemma Cmod_conj z : Cmod (Cconj z) = Cmod z.
Proof. unfold Cmod, Cconj; simpl. f_equal. ring. Qed.

(** ** The unit circle *)

Lemma cis_0 : cis 0 = C1.
Proof. unfold cis, C1. now rewrite cos_0, sin_0. Qed.

Lemma cis_add a b : cis (a + b) = Cmul (cis a) (cis b).
Proof.
  apply C_eq; cx_unfold; [rewrite cos_plus | rewrite sin_plus]; ring.
Qed.

Lemma cis_opp a : cis (- a) = Cconj (cis a).
Proof. unfold cis, Cconj; simpl. now rewrite cos_neg, sin_neg. Qed.

Lemma Cmod_cis a : Cmod (cis a) = 1.
Proof.
  unfold Cmod, cis; simpl.
  replace (cos a * cos a + sin a * sin a) with 1.
  - apply sqrt_1.
  - pose proof (sin2_cos2 a) as E. unfold Rsqr in E. lra.
Qed.

Lemma cis_turns (k : nat) : cis (2 * PI * INR k) = C1.
Proof.
  unfold cis, C1.
  replace (2 * PI * INR k) with (0 + 2 * INR k * PI) by ring.
  now rewrite cos_period, sin_period, cos_0, sin_0.
Qed.

Lemma cis_period a (k : nat) : cis (a + 2 * PI * INR k) = cis a.
Proof. now rewrite cis_add, cis_turns, Cmul_1_r. Qed.

Lemma cis_period_back a (k : nat) : cis (a - 2 * PI * INR k) = cis a.
Proof.
  rewrite <- (cis_period (a - 2 * PI * INR k) k). f_equal. ring.
Qed.

Lemma Cexp_Ci t : Cexp (Cmul Ci (RtoC t)) = cis t.
Proof.
  unfold Cexp, Cmul, Ci, RtoC, cis, Re, Im; simpl.
  replace (0 * t - 1 * 0) with 0 by ring.
  replace (0 * 0 + 1 * t) with t by ring.
  rewrite exp_0. f_equal; ring.
Qed.

(** No point of the circle strictly inside one turn is 1. *)
Lemma cis_neq_1 t : t <> 0 -> - (2 * PI) < t < 2 * PI -> cis t <> C1.
Proof.
  assert (Hpos : forall u, 0 < u < 2 * PI -> cis u <> C1).
  { intros u Hu E. unfold cis, C1 in E. injection E as Ec Es.
    destruct (sin_eq_O_2PI_0 u) as [E0|[E1|E2]]; try lra.
    rewrite E1, cos_PI in Ec. lra. }
  intros Ht Hb. destruct (Rlt_le_dec 0 t) as [Hp|Hn].
  - apply Hpos; lra.
  - intros E. apply (Hpos (- t)); [lra|].
    rewrite cis_opp, E. cx_ring.
Qed.

(** ** Finite sums *)

Lemma Csum_ext f g n :
  (forall k, (k < n)%nat -> f k = g k) -> Csum f n = Csum g n.
Proof.
  induction n as [|n IH]; intros E; simpl; [reflexivity|].
  rewrite IH, E by (intros; try apply E; lia). reflexivity.
Qed.

Lemma Csum_add f g n :
  Csum (fun k => Cadd (f k) (g k)) n = Cadd (Csum f n) (Csum g n).
Proof.
  induction n as [|n IH]; simpl; [cx_ring|]. rewrite IH. cx_ring.
Qed.

Lemma Csum_mul_l c f n :
  Csum (fun k => Cmul c (f k)) n = Cmul c (Csum f n).
Proof.
  induction n as [|n IH]; simpl; [cx_ring|]. rewrite IH. cx_ring.
Qed.

Lemma Csum_mul_r c f n :
  Csum (fun k => Cmul (f k) c) n = Cmul (Csum f n) c.
Proof.
  induction n as [|n IH]; simpl; [cx_ring|]. rewrite IH. cx_ring.
Qed.

Lemma Csum_conj f n :
  Cconj (Csum f n) = Csum (fun k => Cconj (f k)) n.
Proof.
  induction n as [|n IH]; simpl; [cx_ring|]. now rewrite Cconj_add, IH.
Qed.

Lemma Csum_zero n : Csum (fun _ => C0) n = C0.
Proof. induction n as [|n IH]; simpl; [reflexivity|]. rewrite IH. cx_ring. Qed.

Lemma Csum_swap (f : nat -> nat -> C) n m :
  Csum (fun k => Csum (fun j => f k j) m) n =
  Csum (fun j => Csum (fun k => f k j) n) m.
Proof.
  induction n as [|n IH]; simpl.
  - now rewrite Csum_zero.
  - now rewrite IH, Csum_add.
Qed.

Lemma Csum_shift f n :
  Csum f (S n) = Cadd (f O) (Csum (fun k => f (S k)) n).
Proof.
  induction n as [|n IH]; [simpl; cx_ring|].
  change (Csum f (S (S n))) with (Cadd (Csum f (S n)) (f (S n))).
  rewrite IH. simpl. cx_ring.
Qed.

Lemma Csum_rev f n :
  Csum (fun k => f (n - 1 - k)%nat) n = Csum f n.
Proof.
  induction n as [|n IH]; [reflexivity|].
  rewrite Csum_shift. simpl Csum at 2.
  replace (S n - 1 - 0)%nat with n by lia.
  rewrite Cadd_comm. f_equal.
  rewrite <- IH. apply Csum_ext. intros k Hk. f_equal. lia.
Qed.

(** Summing over the reflected index [(n - k) mod n]. *)
Lemma Csum_reflect f n :
  Csum (fun k => f ((n - k) mod n)%nat) n = Csum f n.
Proof.
  destruct n as [|p]; [reflexivity|].
  rewrite !Csum_shift.
  replace ((S p - 0) mod S p)%nat with O
    by (rewrite Nat.sub_0_r, Nat.Div0.mod_same; reflexivity).
  f_equal.
  rewrite <- (Csum_rev (fun k => f (S k)) p).
  apply Csum_ext. intros k Hk.
  rewrite Nat.mod_small by lia. f_equal. lia.
Qed.

(** The one term a sum against an indicator keeps. *)
Lemma Csum_single (f : nat -> C) (c : C) n j :
  (j < n)%nat ->
  Csum (fun k => Cmul (f k) (if Nat.eq_dec k j then c else C0)) n =
  Cmul (f j) c.
Proof.
  induction n as [|n IH]; intros Hj; [lia|]. simpl.
  destruct (Nat.eq_dec n j) as [->|Hne].
  - rewrite (Csum_ext _ (fun _ => C0)).
    + rewrite Csum_zero. cx_ring.
    + intros k Hk. destruct (Nat.eq_dec k j); [lia|]. cx_ring.
  - rewrite IH by lia. cx_ring.
Qed.

(** The geometric sum of the points [cis (k t)]. *)
Lemma Csum_geometric t n :
  Cmul (Csum (fun k => cis (INR k * t)) n) (Csub C1 (cis t)) =
  Csub C1 (cis (INR n * t)).
Proof.
  induction n as [|n IH].
  - simpl. rewrite Rmult_0_l, cis_0. cx_ring.
  - change (Csum (fun k => cis (INR k * t)) (S n))
      with (Cadd (Csum (fun k => cis (INR k * t)) n) (cis (INR n * t))).
    rewrite Cmul_add_distr_r, IH.
    rewrite S_INR.
    replace ((INR n + 1) * t) with (INR n * t + t) by ring.
    rewrite cis_add. cx_ring.
Qed.

Lemma Cmul_eq_0_r z w : Cmul z w = C0 -> w <> C0 -> z = C0.
Proof.
  intros E Hw. rewrite <- (Cdiv_mul_cancel z w Hw), E.
  unfold Cdiv, C0; simpl. apply C_eq; simpl; unfold Rdiv; ring.
Qed.

Lemma Csub_eq_0 z w : Csub z w = C0 -> z = w.
Proof.
  destruct z, w; unfold Csub, C0; simpl. intros E; injection E as E1 E2.
  f_equal; lra.
Qed.

End CxFacts.

(** * The discrete Fourier transform *)

Module FourierFacts.
Import Cx CxFacts Fourier.
Local Open Scope R_scope.

Lemma Csum_const c n : Csum (fun _ => c) n = Cmul (RtoC (INR n)) c.
Proof.
  induction n as [|n IH]; [simpl; cx_ring|].
  change (Csum (fun _ => c) (S n)) with (Cadd (Csum (fun _ => c) n) c).
  rewrite IH, S_INR. cx_ring.
Qed.

Lemma INR_pos_of_lt (k n : nat) : (k < n)%nat -> 0 < INR n.
Proof. intros H. apply lt_0_INR. lia. Qed.

Lemma length_dft s a : length (dft s a) = length a.
Proof. unfold dft. now rewrite length_map, length_seq. Qed.

Lemma nth_dft s a k :
  (k < length a)%nat ->
  nth k (dft s a) C0 =
  Csum (fun m => Cmul (nth m a C0)
                      (cis (s * (2 * PI * INR (m * k) / INR (length a)))))
       (length a).
Proof.
  intros Hk. unfold dft.
  set (f := fun k0 => Csum _ _).
  rewrite (nth_indep _ C0 (f O)) by (now rewrite length_map, length_seq).
  rewrite (map_nth f), seq_nth by assumption. reflexivity.
Qed.

(** The points [cis (k t)] of a full set of n-th roots sum to n or to 0. *)
Lemma orthogonality s n j k :
  s = 1 \/ s = -1 -> (j < n)%nat -> (k < n)%nat ->
  Csum (fun m => Cmul (cis (- s * (2 * PI * INR (j * m) / INR n)))
                      (cis (s * (2 * PI * INR (m * k) / INR n)))) n =
  if Nat.eq_dec j k then RtoC (INR n) else C0.
Proof.
  intros Hs Hj Hk.
  pose proof (INR_pos_of_lt _ _ Hj) as Hn.
  set (t := s * (2 * PI * (INR k - INR j) / INR n)).
  rewrite (Csum_ext _ (fun m => cis (INR m * t))).
  2:{ intros m _. rewrite <- cis_add. f_equal.
      rewrite !mult_INR. unfold t. field. lra. }
  destruct (Nat.eq_dec j k) as [->|Hne].
  - rewrite (Csum_ext _ (fun _ => C1)).
    + rewrite Csum_const. cx_ring.
    + intros m _. unfold t.
      replace (INR m * (s * (2 * PI * (INR k - INR k) / INR n))) with 0
        by (field; lra).
      apply cis_0.
  - apply Cmul_eq_0_r with (w := Csub C1 (cis t)).
    + rewrite Csum_geometric.
      replace (cis (INR n * t)) with C1; [cx_ring|].
      symmetry. unfold t. destruct Hs as [-> | ->].
      * replace (INR n * (1 * (2 * PI * (INR k - INR j) / INR n)))
          with (2 * PI * INR k - 2 * PI * INR j) by (field; lra).
        now rewrite cis_period_back, cis_turns.
      * replace (INR n * (-1 * (2 * PI * (INR k - INR j) / INR n)))
          with (2 * PI * INR j - 2 * PI * INR k) by (field; lra).
        now rewrite cis_period_back, cis_turns.
    + intros E. apply Csub_eq_0 in E. symmetry in E. revert E.
      assert (Hjk : INR k - INR j <> 0).
      { intros E. apply Hne. apply INR_eq. lra. }
      assert (Hlo : - INR n < INR k - INR j).
      { apply lt_INR in Hj. pose proof (pos_INR k). lra. }
      assert (Hhi : INR k - INR j < INR n).
      { apply lt_INR in Hk. pose proof (pos_INR j). lra. }
      set (r := (INR k - INR j) / INR n).
      assert (Hr : -1 < r < 1).
      { unfold r. split.
        - apply Rmult_lt_reg_r with (INR n); [lra|].
          unfold Rdiv. rewrite Rmult_assoc, Rinv_l by lra. lra.
        - apply Rmult_lt_reg_r with (INR n); [lra|].
          unfold Rdiv. rewrite Rmult_assoc, Rinv_l by lra. lra. }
      assert (Hr0 : r <> 0).
      { unfold r. intros E. apply Hjk.
        apply Rmult_eq_reg_r with (/ INR n).
        - unfold Rdiv in E. lra.
        - apply Rinv_neq_0_compat. lra. }
      pose proof PI_RGT_0 as Hpi.
      assert (Et : t = s * (2 * PI * r)) by (unfold t, r; field; lra).
      apply cis_neq_1.
      * rewrite Et. destruct Hs as [-> | ->]; nra.
      * rewrite Et. destruct Hs as [-> | ->]; split; nra.
Qed.

(** Transforming there and back multiplies by the length. *)
Lemma dft_dft s a k :
  s = 1 \/ s = -1 -> (k < length a)%nat ->
  nth k (dft s (dft (- s) a)) C0 = Cmul (RtoC (INR (length a))) (nth k a C0).
Proof.
  intros Hs Hk. set (n := length a).
  rewrite nth_dft by (now rewrite length_dft).
  rewrite length_dft. fold n.
  rewrite (Csum_ext _
    (fun m => Csum (fun j =>
       Cmul (nth j a C0)
            (Cmul (cis (- s * (2 * PI * INR (j * m) / INR n)))
                  (cis (s * (2 * PI * INR (m * k) / INR n))))) n)).
  2:{ intros m Hm. rewrite nth_dft by assumption. fold n.
      rewrite <- Csum_mul_r. apply Csum_ext. intros j _.
      now rewrite Cmul_assoc. }
  rewrite Csum_swap.
  rewrite (Csum_ext _
    (fun j => Cmul (nth j a C0)
                   (if Nat.eq_dec j k then RtoC (INR n) else C0))).
  2:{ intros j Hj. rewrite Csum_mul_l. f_equal.
      now apply orthogonality. }
  rewrite Csum_single by assumption. apply Cmul_comm.
Qed.

Lemma dft_scale s c a k :
  (k < length a)%nat ->
  nth k (dft s (map (Cmul c) a)) C0 = Cmul c (nth k (dft s a) C0).
Proof.
  intros Hk. rewrite !nth_dft by (now rewrite ?length_map).
  rewrite length_map, <- Csum_mul_l. apply Csum_ext. intros m Hm.
  rewrite (nth_indep _ C0 (Cmul c C0)) by (now rewrite length_map).
  rewrite (map_nth (Cmul c)). now rewrite Cmul_assoc.
Qed.

Lemma Cdiv_RtoC_mul z x : x <> 0 -> Cdiv z (RtoC x) = Cmul (RtoC (/ x)) z.
Proof.
  intros Hx. rewrite Cdiv_RtoC by assumption.
  destruct z as [a b]. apply C_eq; cx_unfold; field; assumption.
Qed.

Lemma nonempty_length {X} (a : list X) : a <> [] -> (0 < length a)%nat.
Proof. destruct a; [congruence | simpl; lia]. Qed.

Lemma fft_ok a : a <> [] -> fft a = Ok (dft (-1) a).
Proof. destruct a; [congruence | reflexivity]. Qed.

Lemma ifft_ok a :
  a <> [] ->
  ifft a = Ok (map (fun z => Cdiv z (RtoC (INR (length a)))) (dft 1 a)).
Proof. destruct a; [congruence | reflexivity]. Qed.

Lemma dft_nonempty s a : a <> [] -> dft s a <> [].
Proof.
  intros Ha E. apply nonempty_length in Ha.
  apply (f_equal (@length C)) in E. rewrite length_dft in E. simpl in E. lia.
Qed.

(** [ifft(fft(a))] is [a]. *)
Lemma ifft_dft a : a <> [] -> ifft (dft (-1) a) = Ok a.
Proof.
  intros Ha. pose proof (nonempty_length a Ha) as Hn.
  rewrite ifft_ok by (now apply dft_nonempty).
  f_equal. apply (nth_ext _ _ C0 C0).
  - now rewrite length_map, !length_dft.
  - intros k Hk. rewrite length_map, !length_dft in Hk.
    set (f := fun z => Cdiv z _).
    rewrite (nth_indep _ C0 (f C0)) by (now rewrite length_map, !length_dft).
    rewrite (map_nth f). unfold f. rewrite length_dft.
    replace (dft (-1) a) with (dft (- (1)) a) by (f_equal; lra).
    rewrite dft_dft by (auto; lra).
    apply Cmul_div_RtoC. apply lt_0_INR in Hn. lra.
Qed.

(** [fft(ifft(Y))] is [Y]. *)
Lemma dft_ifft Y y : ifft Y = Ok y -> dft (-1) y = Y /\ length y = length Y.
Proof.
  intros Hy. assert (HY : Y <> []) by (destruct Y; [discriminate|congruence]).
  pose proof (nonempty_length Y HY) as Hn. apply lt_0_INR in Hn.
  rewrite ifft_ok in Hy by assumption. apply Ok_inj in Hy. subst y.
  split; [|now rewrite length_map, length_dft].
  apply (nth_ext _ _ C0 C0).
  - now rewrite length_dft, length_map, length_dft.
  - intros k Hk. rewrite length_dft, length_map, length_dft in Hk.
    rewrite (map_ext _ (Cmul (RtoC (/ INR (length Y)))))
      by (intros z; apply Cdiv_RtoC_mul; lra).
    rewrite dft_scale by (now rewrite length_dft).
    replace (dft 1 Y) with (dft (- -1) Y) by (f_equal; lra).
    rewrite dft_dft by (auto; lra).
    rewrite Cmul_assoc.
    replace (Cmul (RtoC (/ INR (length Y))) (RtoC (INR (length Y)))) with C1.
    + apply Cmul_1_l.
    + apply C_eq; cx_unfold; field; lra.
Qed.

(** ** Real arrays and conjugate-symmetric spectra *)

Lemma twiddle_reflect s n m k :
  s = 1 \/ s = -1 -> (k < n)%nat ->
  cis (s * (2 * PI * INR (m * ((n - k) mod n)) / INR n)) =
  Cconj (cis (s * (2 * PI * INR (m * k) / INR n))).
Proof.
  intros Hs Hk. pose proof (INR_pos_of_lt _ _ Hk) as Hn.
  rewrite <- cis_opp.
  destruct k as [|k].
  - rewrite Nat.sub_0_r, Nat.Div0.mod_same, Nat.mul_0_r. simpl INR.
    f_equal. field. lra.
  - rewrite Nat.mod_small by lia.
    rewrite !mult_INR, minus_INR by lia.
    destruct Hs as [-> | ->].
    + rewrite <- (cis_period_back _ m). f_equal. field. lra.
    + rewrite <- (cis_period _ m). f_equal. field. lra.
Qed.

(** The transform of a real array is conjugate-symmetric. *)
Lemma dft_real_conj_sym s a :
  s = 1 \/ s = -1 -> is_real a -> conj_sym (dft s a).
Proof.
  intros Hs Ha k Hk. rewrite length_dft in *.
  assert (Hr : ((length a - k) mod length a < length a)%nat)
    by (apply Nat.mod_upper_bound; lia).
  rewrite !nth_dft by assumption.
  rewrite Csum_conj. apply Csum_ext. intros m Hm.
  rewrite Cconj_mul, (real_Cconj_fixed _ (Ha m Hm)).
  f_equal. now apply twiddle_reflect.
Qed.

(** The transform of a conjugate-symmetric array is real. *)
Lemma dft_conj_sym_real s a :
  s = 1 \/ s = -1 -> conj_sym a -> is_real (dft s a).
Proof.
  intros Hs Ha k Hk. rewrite length_dft in Hk.
  apply Cconj_fixed_real.
  rewrite nth_dft by assumption. rewrite Csum_conj.
  set (n := length a).
  set (g := fun j => Cmul (nth j a C0) (cis (s * (2 * PI * INR (j * k) / INR n)))).
  rewrite <- (Csum_reflect g n).
  apply Csum_ext. intros m Hm. unfold g.
  rewrite Cconj_mul. f_equal.
  - symmetry. now apply Ha.
  - rewrite (Nat.mul_comm m k), (Nat.mul_comm ((n - m) mod n) k).
    symmetry. apply twiddle_reflect; [assumption|]. exact Hm.
Qed.

Lemma is_real_complex v : is_real (complex v).
Proof.
  intros k Hk. unfold complex.
  rewrite (nth_indep _ C0 (RtoC 0)) by assumption.
  now rewrite map_nth.
Qed.

Lemma complex_real y : is_real y -> complex (real y) = y.
Proof.
  intros Hy. unfold complex, real. rewrite map_map.
  rewrite <- (map_id y) at 2.
  apply map_ext_in. intros z Hz.
  apply (In_nth _ _ C0) in Hz as (k & Hk & <-).
  apply RtoC_Re. now apply Hy.
Qed.

Lemma is_real_scale (x : R) y :
  is_real y -> is_real (map (fun z => Cdiv z (RtoC x)) y).
Proof.
  intros Hy k Hk. rewrite length_map in Hk.
  set (f := fun z => Cdiv z (RtoC x)).
  rewrite (nth_indep _ C0 (f C0)) by (now rewrite length_map).
  rewrite (map_nth f). pose proof (Hy k Hk) as E.
  unfold f, Cdiv, RtoC, Re, Im in *; simpl.
  rewrite E. unfold Rdiv. ring.
Qed.

(** [real(ifft(Y))] loses nothing when [Y] is conjugate-symmetric: its
    spectrum is [Y] again. *)
Lemma spectrum_real_ifft Y y :
  conj_sym Y -> ifft Y = Ok y ->
  is_real y /\ spectrum (real y) = Y /\ length (real y) = length Y.
Proof.
  intros HY Hy.
  assert (Hne : Y <> []) by (destruct Y; [discriminate|congruence]).
  assert (Hr : is_real y).
  { pose proof Hy as Hy'. rewrite ifft_ok in Hy' by assumption.
    apply Ok_inj in Hy'. subst y.
    apply is_real_scale. apply dft_conj_sym_real; auto. }
  destruct (dft_ifft Y y Hy) as [E L].
  repeat split; [assumption| |unfold real; now rewrite length_map].
  unfold spectrum. now rewrite complex_real.
Qed.

End FourierFacts.

(** * The algebra of [MySP] *)

Module MySPFacts.
Import Py Cx CxFacts Fourier FourierFacts MySP.
Local Open Scope R_scope.

Lemma broadcast_comm {X Y} (f : X -> X -> Y) (a b : list X) :
  (forall x y, f x y = f y x) -> broadcast f a b = broadcast f b a.
Proof.
  intros Hf. unfold broadcast.
  rewrite (Nat.eqb_sym (length b) (length a)).
  destruct (length a =? length b)%nat eqn:E.
  - now rewrite (zip_with_comm f a b Hf).
  - destruct a as [|x [|x' a]], b as [|y [|y' b]]; simpl in E;
      try discriminate; cbv beta iota; try reflexivity;
      f_equal; apply map_ext; intros; apply Hf.
Qed.

Lemma broadcast_nonempty {X Y} (f : X -> X -> Y) (a b : list X) c :
  a <> [] -> b <> [] -> broadcast f a b = Ok c -> c <> [].
Proof.
  intros Ha Hb. unfold broadcast.
  destruct a as [|x a]; [congruence|]. destruct b as [|y b]; [congruence|].
  destruct (length (x :: a) =? length (y :: b))%nat.
  - simpl. intros E; apply Ok_inj in E; subst c. discriminate.
  - destruct a as [|x' a]; [|destruct b as [|y' b]];
      simpl; intros E; try discriminate; apply Ok_inj in E; subst c;
        discriminate.
Qed.

Lemma complex_nonempty (v : list R) : v <> [] -> complex v <> [].
Proof. destruct v; [congruence | discriminate]. Qed.

Lemma length_complex (v : list R) : length (complex v) = length v.
Proof. unfold complex. apply length_map. Qed.

Lemma real_complex (v : list R) : real (complex v) = v.
Proof.
  unfold real, complex. rewrite map_map. simpl. apply map_id.
Qed.

Lemma dim_nonempty (sp : MySP.t R) : dim sp <> O -> v sp <> [].
Proof. unfold dim. destruct (v sp); simpl; congruence. Qed.

Lemma length_spectrum (u : list R) : length (spectrum u) = length u.
Proof. unfold spectrum. now rewrite length_dft, length_complex. Qed.

Lemma fft_values (u : list R) :
  u <> [] -> fft (complex u) = Ok (spectrum u).
Proof. intros Hu. apply fft_ok. now apply complex_nonempty. Qed.

Lemma fft_empty (u : list R) : u = [] -> fft (complex u) = Raise ValueError.
Proof. intros ->. reflexivity. Qed.

Lemma conj_sym_spectrum (u : list R) : conj_sym (spectrum u).
Proof.
  apply dft_real_conj_sym; [right; reflexivity | apply is_real_complex].
Qed.

Lemma conj_sym_zip (f : C -> C -> C) (X Y : list C) :
  (forall z w, f (Cconj z) (Cconj w) = Cconj (f z w)) ->
  length X = length Y -> conj_sym X -> conj_sym Y ->
  conj_sym (zip_with f X Y).
Proof.
  intros Hf Hlen HX HY k Hk.
  rewrite length_zip_with, <- Hlen, Nat.min_id in *.
  assert (Hr : ((length X - k) mod length X < length X)%nat)
    by (apply Nat.mod_upper_bound; lia).
  rewrite !(nth_zip_with f X Y _ C0 C0) by lia.
  rewrite (HX k Hk). rewrite Hlen at 1 2. rewrite HY by lia.
  apply Hf.
Qed.

Lemma Cconj_div z w : Cdiv (Cconj z) (Cconj w) = Cconj (Cdiv z w).
Proof.
  apply C_eq; unfold Cdiv, Cconj, Re, Im; simpl.
  - f_equal; ring.
  - unfold Rdiv. replace (fst w * fst w + - snd w * - snd w)
      with (fst w * fst w + snd w * snd w) by ring. ring.
Qed.

(** C10. Binding is commutative: [v.bind(w)] and [w.bind(v)] are the same
    outcome, values and errors alike. *)
Theorem bind_comm (sp y : MySP.t R) : bind sp y = bind y sp.
Proof.
  unfold bind.
  destruct (v sp) as [|a va] eqn:Ev, (v y) as [|b vb] eqn:Ey;
    try reflexivity.
  rewrite !fft_values by discriminate.
  cbv beta iota delta [rbind].
  unfold np_mul. rewrite (broadcast_comm smul (spectrum (a :: va))).
  - reflexivity.
  - intros z w. apply Cmul_comm.
Qed.

(** C4. For vectors [v], [w] of the same positive dimension, [w] unitary:
    [v.bind(w)] succeeds, [.unbind(w)] of the result succeeds, and its
    values are those of [v]. *)
Theorem bind_unbind (sp w : MySP.t R) :
  dim sp = dim w -> dim sp <> O -> is_unitary w ->
  exists s u, bind sp w = Ok s /\ unbind s w = Ok u /\ v u = v sp.
Proof.
  intros Hdim Hpos Hw.
  assert (Hsp : v sp <> []) by (now apply dim_nonempty).
  assert (Hwn : v w <> []) by (apply dim_nonempty; congruence).
  unfold dim in Hdim.
  set (X := spectrum (v sp)). set (Y := spectrum (v w)).
  assert (HXY : length X = length Y)
    by (unfold X, Y; now rewrite !length_spectrum).
  assert (HP : conj_sym (zip_with Cmul X Y)).
  { apply conj_sym_zip; try assumption; try apply conj_sym_spectrum.
    intros; symmetry; apply Cconj_mul. }
  assert (HPn : zip_with Cmul X Y <> []).
  { intros E. apply (f_equal (@length C)) in E.
    rewrite length_zip_with, <- HXY, Nat.min_id in E.
    unfold X in E. rewrite length_spectrum in E. simpl in E.
    unfold dim in Hpos. lia. }
  destruct (ifft (zip_with Cmul X Y)) as [p|e] eqn:Hp;
    [|rewrite ifft_ok in Hp by assumption; discriminate].
  destruct (spectrum_real_ifft _ _ HP Hp) as (Hreal & Hspec & Hlen).
  exists (of_values (real p)), (of_values (v sp)).
  assert (Hb : bind sp w = Ok (of_values (real p))).
  { unfold bind. rewrite !fft_values by assumption.
    cbv beta iota delta [rbind].
    unfold np_mul. rewrite broadcast_same by exact HXY.
    change (zip_with smul (spectrum (v sp)) (spectrum (v w)))
      with (zip_with Cmul X Y).
    now rewrite Hp. }
  split; [exact Hb|]. split; [|reflexivity].
  unfold unbind. simpl v.
  assert (Hrn : real p <> []).
  { intros E. rewrite E in Hlen. simpl in Hlen.
    apply HPn. destruct (zip_with Cmul X Y); [reflexivity|discriminate]. }
  rewrite !fft_values by assumption.
  cbv beta iota delta [rbind].
  rewrite Hspec. fold Y.
  unfold np_div.
  rewrite broadcast_same
    by (now rewrite length_zip_with, <- HXY, Nat.min_id).
  assert (Hq : zip_with sdiv (zip_with Cmul X Y) Y = X).
  { apply (nth_ext _ _ C0 C0).
    - now rewrite !length_zip_with, <- HXY, !Nat.min_id.
    - intros k Hk.
      rewrite !length_zip_with, <- HXY, !Nat.min_id in Hk.
      rewrite (nth_zip_with _ _ _ _ C0 C0)
        by (rewrite ?length_zip_with, <- ?HXY, ?Nat.min_id; lia).
      rewrite (nth_zip_with _ _ _ _ C0 C0) by lia.
      apply Cdiv_mul_cancel. intros E.
      apply Cmod_0_iff in E.
      unfold Y in E. rewrite Hw in E; [lra|].
      unfold dim. rewrite <- (length_spectrum (v w)). fold Y. lia. }
  rewrite Hq. unfold X, spectrum.
  rewrite ifft_dft by (now apply complex_nonempty).
  cbv beta iota delta [rbind]. now rewrite real_complex.
Qed.

(** ** Operands of different dimensions *)

Lemma bundle_raises {A} `{Scalar A} (sp y : MySP.t A) :
  dim sp <> dim y -> dim sp <> 1%nat -> dim y <> 1%nat ->
  bundle sp y = Raise ValueError.
Proof.
  intros Hd H1 H2. unfold bundle, np_add.
  now rewrite broadcast_raises.
Qed.

Lemma similarity_raises {A} `{Scalar A} (sp y : MySP.t A) :
  dim sp <> dim y -> similarity sp y = Raise ValueError.
Proof.
  intros Hd. unfold similarity, dot.
  apply Nat.eqb_neq in Hd. unfold dim in Hd. now rewrite Hd.
Qed.

Lemma through_fourier_raises (f : C -> C -> C) (sp y : MySP.t R) :
  dim sp <> dim y -> dim sp <> 1%nat -> dim y <> 1%nat ->
  (X <- fft (complex (v sp)) ;;
   Y <- fft (complex (v y)) ;;
   P <- broadcast f X Y ;;
   s <- ifft P ;;
   Ok (of_values (real s))) = Raise ValueError.
Proof.
  intros Hd H1 H2. unfold dim in *.
  destruct (v sp) as [|a va] eqn:Ev; [reflexivity|].
  destruct (v y) as [|b vb] eqn:Ey; [reflexivity|].
  rewrite !fft_values by discriminate.
  cbv beta iota delta [rbind].
  now rewrite broadcast_raises by (rewrite !length_spectrum; assumption).
Qed.

(** C9, as the code has it. When the operands' dimensions differ,
    [similarity] raises an error; [bind], [unbind] and [bundle] raise it
    when, in addition, neither dimension is 1. *)
Theorem mismatch_raises (sp y : MySP.t R) :
  dim sp <> dim y ->
  similarity sp y = Raise ValueError /\
  (dim sp <> 1%nat -> dim y <> 1%nat ->
   bind sp y = Raise ValueError /\
   unbind sp y = Raise ValueError /\
   bundle sp y = Raise ValueError).
Proof.
  intros Hd. split; [now apply similarity_raises|].
  intros H1 H2. repeat split.
  - now apply (through_fourier_raises smul).
  - now apply (through_fourier_raises sdiv).
  - now apply bundle_raises.
Qed.

Lemma mismatch_raises_witness :
  similarity (of_values [1; 2]) (of_values [1; 2; 3]) = Raise ValueError /\
  bind (of_values [1; 2]) (of_values [1; 2; 3]) = Raise ValueError /\
  unbind (of_values [1; 2]) (of_values [1; 2; 3]) = Raise ValueError /\
  bundle (of_values [1; 2]) (of_values [1; 2; 3]) = Raise ValueError.
Proof.
  assert (Hd : dim (of_values [1; 2]) <> dim (of_values [1; 2; 3]))
    by (simpl; discriminate).
  assert (H1 : dim (of_values [1; 2]) <> 1%nat) by (simpl; discriminate).
  assert (H2 : dim (of_values [1; 2; 3]) <> 1%nat) by (simpl; discriminate).
  exact (conj (proj1 (mismatch_raises _ _ Hd))
              (proj2 (mismatch_raises _ _ Hd) H1 H2)).
Defined.

(** With one operand of dimension 1, [bind], [unbind] and [bundle] accept
    operands of different dimensions: numpy broadcasts the single value. *)
Lemma broadcast_operand_accepted (f : C -> C -> C) (sp y : MySP.t R) :
  dim sp = 1%nat -> dim y <> O ->
  exists s,
    (X <- fft (complex (v sp)) ;;
     Y <- fft (complex (v y)) ;;
     P <- broadcast f X Y ;;
     s <- ifft P ;;
     Ok (of_values (real s))) = Ok s.
Proof.
  intros H1 Hy. pose proof (dim_nonempty y Hy) as Hyn.
  assert (Hspn : v sp <> []) by (apply dim_nonempty; lia).
  rewrite !fft_values by assumption. cbv beta iota delta [rbind].
  destruct (broadcast_accepts f (spectrum (v sp)) (spectrum (v y)))
    as [P HP]; [rewrite !length_spectrum; auto|].
  rewrite HP.
  assert (HPn : P <> []).
  { apply (broadcast_nonempty f _ _ P) in HP; auto.
    - intros E. apply (f_equal (@length C)) in E.
      rewrite length_spectrum in E. unfold dim in H1. simpl in E. lia.
    - intros E. apply (f_equal (@length C)) in E.
      rewrite length_spectrum in E. unfold dim in Hy. simpl in E. lia. }
  rewrite ifft_ok by assumption. eexists; reflexivity.
Qed.

End MySPFacts.

(** * The principal angle *)

Module AngleFacts.
Import Cx CxFacts.
Local Open Scope R_scope.

Lemma atan_nonpos x : x <= 0 -> atan x <= 0.
Proof.
  intros [Hx | ->].
  - left. rewrite <- atan_0. now apply atan_increasing.
  - right. apply atan_0.
Qed.

Lemma atan_pos x : 0 < x -> 0 < atan x.
Proof. intros Hx. rewrite <- atan_0. now apply atan_increasing. Qed.

(** [arctan2] takes its values in (-pi, pi]. *)
Lemma arctan2_range y x : - PI < arctan2 y x <= PI.
Proof.
  pose proof PI_RGT_0 as Hpi. unfold arctan2.
  destruct (Rlt_dec 0 x) as [Hx|Hx].
  - pose proof (atan_bound (y / x)). lra.
  - destruct (Rlt_dec x 0) as [Hx'|Hx'].
    + pose proof (atan_bound (y / x)) as Hb.
      destruct (Rle_dec 0 y) as [Hy|Hy].
      * assert (Hq : y / x <= 0).
        { unfold Rdiv. apply Rinv_lt_0_compat in Hx'. nra. }
        pose proof (atan_nonpos _ Hq). lra.
      * assert (Hq : 0 < y / x).
        { unfold Rdiv. apply Rinv_lt_0_compat in Hx'. nra. }
        pose proof (atan_pos _ Hq). lra.
    + destruct (Rlt_dec 0 y); [lra|]. destruct (Rlt_dec y 0); lra.
Qed.

Lemma angle_range z : - PI < angle z <= PI.
Proof. apply arctan2_range. Qed.

Lemma tan_shift_PI t : cos t <> 0 -> tan (t + PI) = sin t / cos t.
Proof.
  intros Hc. unfold tan. rewrite neg_sin, neg_cos. field. assumption.
Qed.

Lemma tan_shift_back_PI t : cos t <> 0 -> tan (t - PI) = sin t / cos t.
Proof.
  intros Hc. unfold tan.
  assert (Es : sin t = - sin (t - PI)).
  { rewrite <- neg_sin. f_equal. ring. }
  assert (Ec : cos t = - cos (t - PI)).
  { rewrite <- neg_cos. f_equal. ring. }
  assert (Hc' : cos (t - PI) <> 0) by lra.
  rewrite Es, Ec. field. assumption.
Qed.

(** The angle of the point of the circle at [t] is [t], for [t] in
    (-pi, pi]. *)
Lemma angle_cis t : - PI < t <= PI -> angle (cis t) = t.
Proof.
  intros [Hlo Hhi]. pose proof PI_RGT_0 as Hpi.
  unfold angle, arctan2, cis, Re, Im; simpl.
  destruct (Rlt_dec 0 (cos t)) as [Hc|Hc].
  - (* right half plane *)
    assert (Ht : - (PI / 2) < t < PI / 2).
    { split.
      - destruct (Rlt_le_dec (- (PI / 2)) t) as [|Hle]; [assumption|].
        pose proof (cos_le_0 (- t)) as Hcos. rewrite cos_neg in Hcos.
        assert (cos t <= 0) by (apply Hcos; lra). lra.
      - destruct (Rlt_le_dec t (PI / 2)) as [|Hle]; [assumption|].
        assert (cos t <= 0) by (apply cos_le_0; lra). lra. }
    now apply atan_tan.
  - destruct (Rlt_dec (cos t) 0) as [Hc'|Hc'].
    + destruct (Rle_dec 0 (sin t)) as [Hs|Hs].
      * (* second quadrant *)
        assert (Ht : PI / 2 < t).
        { destruct (Rlt_le_dec (PI / 2) t) as [|Hle]; [assumption|].
          destruct (Rlt_le_dec t (- (PI / 2))) as [Hlt|Hge].
          - pose proof (sin_lt_0_var t). lra.
          - pose proof (cos_ge_0 t). lra. }
        rewrite <- (tan_shift_back_PI t) by lra.
        rewrite atan_tan by lra. ring.
      * (* third quadrant *)
        assert (Ht0 : t < 0).
        { destruct (Rlt_le_dec t 0) as [|Hge]; [assumption|].
          pose proof (sin_ge_0 t). lra. }
        assert (Ht : t < - (PI / 2)).
        { destruct (Rlt_le_dec t (- (PI / 2))) as [|Hge]; [assumption|].
          pose proof (cos_ge_0 t). lra. }
        rewrite <- (tan_shift_PI t) by lra.
        rewrite atan_tan by lra. ring.
    + (* the imaginary axis *)
      assert (Ec : cos t = 0) by lra.
      destruct (Rlt_le_dec t 0) as [Hneg|Hpos].
      * assert (Et : - t = PI / 2).
        { destruct (cos_eq_0_2PI_0 (- t)) as [E|E]; try lra.
          now rewrite cos_neg. }
        assert (E : t = - (PI / 2)) by lra.
        rewrite E, sin_neg, sin_PI2.
        repeat match goal with
               | |- context [Rlt_dec ?a ?b] => destruct (Rlt_dec a b)
               end; lra.
      * assert (E : t = PI / 2).
        { destruct (cos_eq_0_2PI_0 t) as [E|E]; lra. }
        rewrite E, sin_PI2.
        repeat match goal with
               | |- context [Rlt_dec ?a ?b] => destruct (Rlt_dec a b)
               end; lra.
Qed.

(** On the negative real axis, and only there, the angle is pi. *)
Lemma angle_neg_real z : Im z = 0 -> Re z < 0 -> angle z = PI.
Proof.
  destruct z as [x y]; unfold angle, arctan2, Re, Im; simpl.
  intros -> Hx.
  destruct (Rlt_dec 0 x); [lra|]. destruct (Rlt_dec x 0); [|lra].
  destruct (Rle_dec 0 0); [|lra].
  unfold Rdiv. rewrite Rmult_0_l, atan_0. ring.
Qed.

(** Conjugation negates the angle, except on the negative real axis. *)
Lemma angle_conj z : angle z <> PI -> angle (Cconj z) = - angle z.
Proof.
  intros Hz.
  assert (Hax : ~ (Im z = 0 /\ Re z < 0)).
  { intros [Hi Hr]. apply Hz. now apply angle_neg_real. }
  clear Hz. destruct z as [x y]. unfold Re, Im in Hax; simpl in Hax.
  unfold angle, arctan2, Cconj, Re, Im; simpl.
  assert (Eq : - y / x = - (y / x)) by (unfold Rdiv; ring).
  destruct (Rlt_dec 0 x) as [Hx|Hx].
  - now rewrite Eq, atan_opp.
  - destruct (Rlt_dec x 0) as [Hx'|Hx'].
    + rewrite Eq, atan_opp.
      destruct (Rle_dec 0 (- y)), (Rle_dec 0 y); lra.
    + destruct (Rlt_dec 0 (- y)), (Rlt_dec 0 y), (Rlt_dec (- y) 0),
        (Rlt_dec y 0); lra.
Qed.

(** The unit phasor of a conjugate is the conjugate of the unit phasor. *)
Lemma cis_angle_conj z : cis (angle (Cconj z)) = Cconj (cis (angle z)).
Proof.
  destruct (Req_dec_T (angle z) PI) as [E|E].
  - assert (Hax : Im z = 0 /\ Re z < 0).
    { destruct z as [x y]. unfold angle, arctan2, Re, Im in *; simpl in *.
      pose proof PI_RGT_0 as Hpi.
      destruct (Rlt_dec 0 x) as [Hx|Hx].
      - pose proof (atan_bound (y / x)). lra.
      - destruct (Rlt_dec x 0) as [Hx'|Hx'].
        + split; [|assumption].
          destruct (Rle_dec 0 y) as [Hy|Hy].
          * assert (Ea : atan (y / x) = 0) by lra.
            apply atan_eq0 in Ea.
            unfold Rdiv in Ea.
            apply Rmult_integral in Ea as [Ea|Ea]; [assumption|].
            apply Rinv_neq_0_compat in Ea; [contradiction|lra].
          * pose proof (atan_bound (y / x)). lra.
        + destruct (Rlt_dec 0 y); [lra|]. destruct (Rlt_dec y 0); lra. }
    destruct Hax as [Hi Hr].
    assert (Ez : Cconj z = z) by (now apply real_Cconj_fixed).
    rewrite Ez, E. unfold cis, Cconj; simpl.
    rewrite sin_PI. f_equal. ring.
  - rewrite angle_conj by assumption. apply cis_opp.
Qed.

Lemma Rpower_1_base p : Rpower 1 p = 1.
Proof. unfold Rpower. now rewrite ln_1, Rmult_0_r, exp_0. Qed.

(** A power of a point of the unit circle multiplies its angle. *)
Lemma Cpow_unit z p : Cmod z = 1 -> Cpow z p = cis (p * angle z).
Proof.
  intros Hz. unfold Cpow.
  destruct (Req_dec_T p 0) as [->|Hp].
  - now rewrite Rmult_0_l, cis_0.
  - destruct (Req_dec_T (Cmod z) 0) as [E|_]; [lra|].
    rewrite Hz, Rpower_1_base. apply Cmul_1_l.
Qed.

(** ** The polar form *)

(** The hypotenuse of the triangle with sides 1 and [y / x]. *)
Lemma hypotenuse x y :
  x <> 0 ->
  0 < sqrt (1 + (y / x)²) /\
  Rabs x * sqrt (1 + (y / x)²) = sqrt (x * x + y * y).
Proof.
  intros Hx.
  assert (Hpos : 0 < 1 + (y / x)²).
  { pose proof (Rle_0_sqr (y / x)). lra. }
  split; [now apply sqrt_lt_R0|].
  symmetry. apply sqrt_lem_1.
  - nra.
  - apply Rmult_le_pos; [apply Rabs_pos | apply sqrt_pos].
  - transitivity ((Rabs x * Rabs x) *
                  (sqrt (1 + (y / x)²) * sqrt (1 + (y / x)²))); [ring|].
    rewrite sqrt_sqrt by lra.
    replace (Rabs x * Rabs x) with (x * x)
      by (unfold Rabs; destruct (Rcase_abs x); ring).
    unfold Rsqr. field. exact Hx.
Qed.

(** Every complex number other than 0 is its modulus times the unit phasor
    of its angle. *)
Lemma polar z : z <> C0 -> Cmul (RtoC (Cmod z)) (cis (angle z)) = z.
Proof.
  destruct z as [x y]. intros Hz.
  unfold angle, arctan2, Cmod, Re, Im. simpl fst. simpl snd.
  assert (Hmul : forall r c s, Cmul (RtoC r) (c, s) = (r * c, r * s)).
  { intros. apply C_eq; unfold Cmul, RtoC, Re, Im; simpl; ring. }
  unfold cis. rewrite Hmul.
  destruct (Rlt_dec 0 x) as [Hx | Hx].
  - destruct (hypotenuse x y) as [Hh Hr]; [lra|].
    rewrite Rabs_right in Hr by lra. rewrite <- Hr.
    rewrite cos_atan, sin_atan. f_equal; field; lra.
  - destruct (Rlt_dec x 0) as [Hx' | Hx'].
    + destruct (hypotenuse x y) as [Hh Hr]; [lra|].
      rewrite Rabs_left in Hr by lra. rewrite <- Hr.
      destruct (Rle_dec 0 y) as [Hy | Hy].
      * rewrite neg_cos, neg_sin, cos_atan, sin_atan. f_equal; field; lra.
      * replace (atan (y / x) - PI) with (- (- atan (y / x) + PI)) by ring.
        rewrite cos_neg, sin_neg, neg_cos, neg_sin, cos_neg, sin_neg.
        rewrite cos_atan, sin_atan. f_equal; field; lra.
    + assert (x = 0) as -> by lra.
      replace (0 * 0 + y * y) with (y²) by (unfold Rsqr; ring).
      rewrite sqrt_Rsqr_abs.
      destruct (Rlt_dec 0 y) as [Hy | Hy].
      * rewrite cos_PI2, sin_PI2, Rabs_right by lra. f_equal; ring.
      * destruct (Rlt_dec y 0) as [Hy' | Hy'].
        -- rewrite cos_neg, sin_neg, cos_PI2, sin_PI2, Rabs_left by lra.
           f_equal; ring.
        -- exfalso. apply Hz. unfold C0. f_equal; lra.
Qed.

Lemma cis_angle_unit z : Cmod z = 1 -> cis (angle z) = z.
Proof.
  intros Hz. rewrite <- (polar z) at 2.
  - rewrite Hz. symmetry. apply Cmul_1_l.
  - intros E. apply Cmod_0_iff in E. lra.
Qed.

(** ** Integer multiples of an angle *)




End AngleFacts.

(** * Vectors made in the Fourier domain *)

Module SpectrumFacts.
Import Py Cx CxFacts Fourier FourierFacts AngleFacts MySP MySPFacts.
Local Open Scope R_scope.

Lemma phasors_cis (angles : list R) : phasors angles = map cis angles.
Proof. unfold phasors. apply map_ext. intros t. apply Cexp_Ci. Qed.

Lemma nth_map_C {X} (g : X -> C) (d : X) (l : list X) k :
  (k < length l)%nat -> nth k (map g l) C0 = g (nth k l d).
Proof.
  intros Hk. rewrite (nth_indep _ C0 (g d)) by (now rewrite length_map).
  apply map_nth.
Qed.

(** [real(ifft(Y))] for a conjugate-symmetric [Y]: the transform is
    accepted, nothing is lost with the imaginary parts, and the spectrum
    of the result is [Y]. *)
Lemma real_ifft_spectrum (Y : list C) :
  Y <> [] -> conj_sym Y ->
  exists y, ifft Y = Ok y /\ is_real y /\
            spectrum (real y) = Y /\ length (real y) = length Y.
Proof.
  intros Hne HY.
  destruct (ifft Y) as [y|e] eqn:Hy;
    [|rewrite ifft_ok in Hy by assumption; discriminate].
  exists y. split; [reflexivity|]. now apply spectrum_real_ifft.
Qed.

Lemma conj_sym_map (g : C -> C) (X : list C) :
  conj_sym X ->
  (forall k, (k < length X)%nat ->
             g (Cconj (nth k X C0)) = Cconj (g (nth k X C0))) ->
  conj_sym (map g X).
Proof.
  intros HX Hg k Hk. rewrite length_map in *.
  assert (Hr : ((length X - k) mod length X < length X)%nat)
    by (apply Nat.mod_upper_bound; lia).
  rewrite !(nth_map_C g C0) by assumption.
  rewrite HX by assumption. now apply Hg.
Qed.

(** A vector rebuilt from the spectrum of [sp] passed through [g], when
    that keeps the spectrum conjugate-symmetric. *)
Lemma rebuilt_spectrum (g : C -> C) (sp : MySP.t R) :
  dim sp <> O ->
  (forall k, (k < dim sp)%nat ->
             g (Cconj (nth k (spectrum (v sp)) C0)) =
             Cconj (g (nth k (spectrum (v sp)) C0))) ->
  exists y,
    ifft (map g (spectrum (v sp))) = Ok y /\
    is_real y /\
    spectrum (real y) = map g (spectrum (v sp)) /\
    length (real y) = dim sp.
Proof.
  intros Hpos Hg.
  assert (Hne : map g (spectrum (v sp)) <> []).
  { intros E. apply (f_equal (@length C)) in E.
    rewrite length_map, length_spectrum in E. simpl in E.
    unfold dim in Hpos. lia. }
  destruct (real_ifft_spectrum _ Hne) as (y & Hy & Hr & Hs & Hl).
  - apply conj_sym_map; [apply conj_sym_spectrum|].
    intros k Hk. apply Hg. now rewrite length_spectrum in Hk.
  - exists y. repeat split; auto.
    now rewrite Hl, length_map, length_spectrum.
Qed.

(** [unitary()] replaces every Fourier coefficient by the unit phasor of
    its angle. *)
Lemma unitary_result (sp : MySP.t R) :
  dim sp <> O ->
  exists u,
    unitary sp = Ok u /\ dim u = dim sp /\
    spectrum (v u) = map (fun z => cis (angle z)) (spectrum (v sp)).
Proof.
  intros Hpos.
  destruct (rebuilt_spectrum (fun z => cis (angle z)) sp Hpos)
    as (y & Hy & Hr & Hs & Hl).
  { intros k _. apply cis_angle_conj. }
  exists (of_values (real y)). split; [|split; [exact Hl | exact Hs]].
  unfold unitary. rewrite fft_values by (now apply dim_nonempty).
  cbv beta iota delta [rbind].
  rewrite phasors_cis, map_map, Hy. reflexivity.
Qed.

(** The result of [unitary()] is unitary. *)
Lemma unitary_is_unitary (sp u : MySP.t R) :
  unitary sp = Ok u -> is_unitary u.
Proof.
  intros Hu n Hn.
  assert (Hpos : dim sp <> O).
  { intros E. unfold unitary, dim in *.
    destruct (v sp); [discriminate | simpl in E; lia]. }
  destruct (unitary_result sp Hpos) as (u' & Hu' & Hdim & Hs).
  rewrite Hu in Hu'. apply Ok_inj in Hu'. subst u'.
  rewrite Hdim in Hn. unfold dim in Hn.
  rewrite Hs, (nth_map_C _ C0) by (now rewrite length_spectrum).
  apply Cmod_cis.
Qed.

(** C5. For a vector [v] with at least one value, [v.unitary()] succeeds,
    keeps the dimension, and every Fourier coefficient of the result has
    modulus 1 and the angle of the corresponding coefficient of [v]. *)
Theorem unitary_spectrum (sp : MySP.t R) (n : nat) :
  dim sp <> O -> (n < dim sp)%nat ->
  exists u,
    unitary sp = Ok u /\ dim u = dim sp /\
    Cmod (nth n (spectrum (v u)) C0) = 1 /\
    angle (nth n (spectrum (v u)) C0) = angle (nth n (spectrum (v sp)) C0).
Proof.
  intros Hpos Hn.
  destruct (unitary_result sp Hpos) as (u & Hu & Hdim & Hs).
  exists u. split; [exact Hu|]. split; [exact Hdim|]. rewrite Hs.
  rewrite (nth_map_C _ C0) by (now rewrite length_spectrum).
  split; [apply Cmod_cis|]. apply angle_cis, angle_range.
Qed.

Lemma unitary_spectrum_witness :
  exists u,
    unitary (of_values [2]) = Ok u /\ dim u = dim (of_values [2]) /\
    Cmod (nth 0 (spectrum (v u)) C0) = 1 /\
    angle (nth 0 (spectrum (v u)) C0) =
    angle (nth 0 (spectrum (v (of_values [2]))) C0).
Proof.
  apply (unitary_spectrum (of_values [2]) 0).
  - simpl. discriminate.
  - simpl. apply Nat.lt_0_1.
Defined.

(** ** Random construction *)

Lemma conj_sym_phasors (phase : list R) :
  let D := length phase in
  nth 0 phase 0 = 0 ->
  (forall k, (1 <= k)%nat -> (2 * k < D)%nat ->
             nth (D - k) phase 0 = - nth k phase 0) ->
  (D mod 2 = 0%nat -> nth (D / 2) phase 0 = 0) ->
  conj_sym (map cis phase).
Proof.
  intros D H0 Hsym Hmid k Hk. rewrite length_map in *. fold D in Hk |- *.
  assert (Hr : ((D - k) mod D < D)%nat) by (apply Nat.mod_upper_bound; lia).
  rewrite !(nth_map_C cis 0) by assumption.
  rewrite <- cis_opp. f_equal.
  destruct k as [|k].
  - rewrite Nat.sub_0_r, Nat.Div0.mod_same, H0. ring.
  - rewrite Nat.mod_small by lia.
    destruct (Nat.lt_trichotomy (2 * S k) D) as [Hlt|[Heq|Hgt]].
    + apply Hsym; lia.
    + assert (Hm : (D mod 2 = 0)%nat).
      { rewrite <- Heq, Nat.mul_comm. apply Nat.Div0.mod_mul. }
      assert (Hh : (D / 2 = S k)%nat).
      { rewrite <- Heq, Nat.mul_comm. apply Nat.div_mul. discriminate. }
      specialize (Hmid Hm). rewrite Hh in Hmid.
      replace (D - S k)%nat with (S k) by lia. rewrite Hmid. ring.
    + pose proof (Hsym (D - S k)%nat) as E.
      replace (D - (D - S k))%nat with (S k) in E by lia.
      rewrite E by lia. ring.
Qed.

(** C6. A randomly generated vector of dimension D (for any samples) has at
    least three values; its stored phases are conjugate-symmetric:
    phase[0] = 0, phase[D-k] = -phase[k] for 1 <= k < D/2, and
    phase[D/2] = 0 when D is even; the inverse transform of exp(i*phase)
    has no imaginary part, the values are its real part, and every
    Fourier coefficient of the values has modulus 1. *)
Theorem init_conjugate_symmetric (D : nat) (draw : nat -> R) (sp : MySP.t R) :
  init D draw = Ok sp ->
  exists phase y,
    a sp = Some phase /\ length phase = D /\ dim sp = D /\ (3 <= D)%nat /\
    nth 0 phase 0 = 0 /\
    (forall k, (1 <= k)%nat -> (2 * k < D)%nat ->
               nth (D - k) phase 0 = - nth k phase 0) /\
    (D mod 2 = 0%nat -> nth (D / 2) phase 0 = 0) /\
    ifft (phasors phase) = Ok y /\ is_real y /\ v sp = real y /\
    is_unitary sp.
Proof.
  unfold init. intros Hinit.
  apply rbind_ok in Hinit as (phase & Hsym & Hinit).
  apply rbind_ok in Hinit as (y & Hy & Hinit).
  apply Ok_inj in Hinit. subst sp. simpl.
  assert (Hlen0 : length (scaled_samples 2 draw D) = D).
  { unfold scaled_samples, np_scale. now rewrite !length_map, length_seq. }
  destruct (symmetrize_spec _ _ Hsym) as (HD & Hlen & H0 & Hk & Hmid).
  rewrite Hlen0 in *. simpl in H0, Hk, Hmid.
  assert (Hcs : conj_sym (map cis phase)).
  { apply conj_sym_phasors; rewrite ?Hlen; auto.
    intros k Hk1 Hk2. now apply Hk. }
  rewrite phasors_cis in Hy.
  destruct (spectrum_real_ifft _ _ Hcs Hy) as (Hreal & Hspec & Hl).
  exists phase, y. rewrite phasors_cis.
  repeat split; auto.
  - unfold dim; simpl. now rewrite Hl, length_map.
  - intros k Hk1 Hk2. now apply Hk.
  - intros n Hn. simpl. rewrite Hspec.
    unfold dim in Hn; simpl in Hn. rewrite Hl, length_map in Hn.
    rewrite (nth_map_C cis 0) by assumption. apply Cmod_cis.
Qed.

(** Random construction succeeds from three values on. *)
Lemma init_accepts (D : nat) (draw : nat -> R) :
  (3 <= D)%nat -> exists sp, init D draw = Ok sp.
Proof.
  intros HD. unfold init.
  assert (Hlen0 : length (scaled_samples 2 draw D) = D).
  { unfold scaled_samples, np_scale. now rewrite !length_map, length_seq. }
  rewrite symmetrize_eq by (now rewrite Hlen0).
  cbv beta iota delta [rbind].
  match goal with
  | |- context [ifft (phasors ?l)] =>
      destruct (ifft (phasors l)) as [y|e] eqn:Hy
  end.
  - eexists; reflexivity.
  - exfalso. rewrite ifft_ok in Hy; [discriminate|].
    intros E. apply (f_equal (@length C)) in E.
    unfold phasors in E. rewrite length_map in E.
    match type of E with
    | context [if ?c then _ else _] => destruct c
    end;
      rewrite ?length_update, length_mirrored in E
        by (now rewrite Hlen0);
      rewrite Hlen0 in E; simpl in E; lia.
Qed.

Lemma init_conjugate_symmetric_witness :
  exists sp phase y,
    init 4 (fun _ => 1) = Ok sp /\
    a sp = Some phase /\ length phase = 4%nat /\ dim sp = 4%nat /\
    nth 0 phase 0 = 0 /\
    nth (4 - 1) phase 0 = - nth 1 phase 0 /\
    nth (4 / 2) phase 0 = 0 /\
    ifft (phasors phase) = Ok y /\ is_real y /\ v sp = real y /\
    is_unitary sp.
Proof.
  destruct (init_accepts 4 (fun _ => 1)) as [sp Hsp].
  - repeat constructor.
  - destruct (init_conjugate_symmetric 4 (fun _ => 1) sp Hsp)
      as (phase & y & Ha & Hl & Hd & _ & H0 & Hk & Hm & Hy & Hr & Hv & Hu).
    exists sp, phase, y.
    exact (conj Hsp (conj Ha (conj Hl (conj Hd (conj H0
            (conj (Hk 1%nat (le_n 1) (le_S _ _ (le_n 3)))
               (conj (Hm eq_refl) (conj Hy (conj Hr (conj Hv Hu)))))))))).
Defined.

End SpectrumFacts.

(** * Fractional powers *)

Module PowerFacts.
Import Py Cx CxFacts Fourier FourierFacts AngleFacts MySP MySPFacts
       SpectrumFacts.
Local Open Scope R_scope.

(** The spectrum of a power of a unitary vector none of whose coefficients
    lies on the negative real axis: every angle is multiplied by [p]. *)
Lemma power_spectrum (sp : MySP.t R) (p : R) :
  dim sp <> O -> is_unitary sp ->
  (forall n, (n < dim sp)%nat -> angle (nth n (spectrum (v sp)) C0) <> PI) ->
  exists u,
    power sp p = Ok u /\ dim u = dim sp /\
    spectrum (v u) = map (fun z => cis (p * angle z)) (spectrum (v sp)).
Proof.
  intros Hpos Hu Hpi.
  destruct (rebuilt_spectrum (fun z => Cpow z p) sp Hpos)
    as (y & Hy & Hr & Hs & Hl).
  { intros k Hk.
    rewrite !Cpow_unit by (rewrite ?Cmod_conj; now apply Hu).
    rewrite angle_conj by (now apply Hpi).
    rewrite <- cis_opp. f_equal. ring. }
  exists (of_values (real y)). split; [|split; [exact Hl|]].
  - unfold power. rewrite fft_values by (now apply dim_nonempty).
    cbv beta iota delta [rbind]. now rewrite Hy.
  - simpl v. rewrite Hs. apply map_ext_in. intros z Hz.
    apply (In_nth _ _ C0) in Hz as (k & Hk & <-).
    rewrite length_spectrum in Hk. apply Cpow_unit. now apply Hu.
Qed.


End PowerFacts.

(** * Small vectors, computed by hand *)

Module SmallVectors.
Import Py Cx CxFacts Fourier FourierFacts AngleFacts MySP MySPFacts
       SpectrumFacts PowerFacts.
Local Open Scope R_scope.

(** ** One value *)

Lemma dft_single s z : dft s [z] = [z].
Proof.
  unfold dft. simpl. f_equal.
  replace (s * (2 * PI * 0 / 1)) with 0 by field.
  rewrite cis_0. cx_ring.
Qed.






Lemma dft_three s z0 z1 z2 :
  dft s [z0; z1; z2] =
  [ Cadd (Cadd (Cadd C0 (Cmul z0 (cis (s * (2 * PI * INR 0 / INR 3)))))
               (Cmul z1 (cis (s * (2 * PI * INR 0 / INR 3)))))
         (Cmul z2 (cis (s * (2 * PI * INR 0 / INR 3))));
    Cadd (Cadd (Cadd C0 (Cmul z0 (cis (s * (2 * PI * INR 0 / INR 3)))))
               (Cmul z1 (cis (s * (2 * PI * INR 1 / INR 3)))))
         (Cmul z2 (cis (s * (2 * PI * INR 2 / INR 3))));
    Cadd (Cadd (Cadd C0 (Cmul z0 (cis (s * (2 * PI * INR 0 / INR 3)))))
               (Cmul z1 (cis (s * (2 * PI * INR 2 / INR 3)))))
         (Cmul z2 (cis (s * (2 * PI * INR 4 / INR 3)))) ].
Proof. reflexivity. Qed.

Lemma spectrum_single (x : R) : spectrum [x] = [RtoC x].
Proof. unfold spectrum, complex. simpl map. apply dft_single. Qed.

Lemma ifft_spectrum (u : list R) :
  u <> [] -> ifft (spectrum u) = Ok (complex u).
Proof.
  intros Hu. unfold spectrum. apply ifft_dft. now apply complex_nonempty.
Qed.

(** C9, as the specification states it, fails: vectors of dimensions 1 and
    3 are bundled, bound and unbound without any error; the single value
    is broadcast. *)
Lemma mismatch_not_raised :
  dim (of_values [1]) <> dim (of_values [1; 2; 3]) /\
  bundle (of_values [1]) (of_values [1; 2; 3]) =
    Ok (of_values [1 + 1; 1 + 2; 1 + 3]) /\
  bind (of_values [1]) (of_values [1; 2; 3]) = Ok (of_values [1; 2; 3]) /\
  unbind (of_values [1; 2; 3]) (of_values [1]) = Ok (of_values [1; 2; 3]).
Proof.
  split; [simpl; discriminate|]. split; [reflexivity|]. split.
  - unfold bind. simpl v. rewrite !fft_values by discriminate.
    cbv beta iota delta [rbind].
    rewrite spectrum_single.
    replace (np_mul [RtoC 1] (spectrum [1; 2; 3]))
      with (Ok (spectrum [1; 2; 3])).
    + rewrite ifft_spectrum by discriminate.
      cbv beta iota delta [rbind]. now rewrite real_complex.
    + unfold np_mul.
      rewrite broadcast_single_l.
      f_equal. rewrite <- (map_id (spectrum [1; 2; 3])) at 1.
      apply map_ext. intros z. symmetry. apply Cmul_1_l.
  - unfold unbind. simpl v. rewrite !fft_values by discriminate.
    cbv beta iota delta [rbind].
    rewrite spectrum_single.
    replace (np_div (spectrum [1; 2; 3]) [RtoC 1])
      with (Ok (spectrum [1; 2; 3])).
    + rewrite ifft_spectrum by discriminate.
      cbv beta iota delta [rbind]. now rewrite real_complex.
    + unfold np_div.
      rewrite broadcast_single_r.
      f_equal. rewrite <- (map_id (spectrum [1; 2; 3])) at 1.
      apply map_ext. intros z. symmetry.
      change (sdiv z (RtoC 1)) with (Cdiv z (RtoC 1)).
      rewrite Cdiv_RtoC by lra. destruct z as [x y]. simpl.
      f_equal; field.
Qed.

(** ** The unit vector [0, 1, 0] *)

Lemma cis_wrap_down : cis (2 * - third_turn) = cis third_turn.
Proof.
  rewrite <- (cis_period (2 * - third_turn) 1). f_equal.
  unfold third_turn. simpl. field.
Qed.


Lemma spectrum_010 :
  spectrum [0; 1; 0] = [cis 0; cis (- third_turn); cis third_turn].
Proof.
  unfold spectrum, complex. simpl map. rewrite dft_three.
  assert (E : forall z0 z1 z2,
             Cadd (Cadd (Cadd C0 (Cmul (RtoC 0) z0)) (Cmul (RtoC 1) z1))
                  (Cmul (RtoC 0) z2) = z1) by cx_ring.
  rewrite !E. f_equal; [|f_equal; [|f_equal]].
  - f_equal. simpl. field.
  - f_equal. unfold third_turn. simpl. field.
  - rewrite <- cis_wrap_down. f_equal. unfold third_turn. simpl. field.
Qed.

Lemma third_turn_bounds : 0 < third_turn < PI.
Proof. pose proof PI_RGT_0. unfold third_turn. lra. Qed.

Lemma unitary_010 : is_unitary (of_values [0; 1; 0]).
Proof.
  intros n Hn. simpl v. rewrite spectrum_010.
  unfold dim in Hn; simpl in Hn.
  destruct n as [|[|[|n]]]; simpl; try lia; apply Cmod_cis.
Qed.

Lemma angles_010 (n : nat) :
  (n < 3)%nat ->
  let t := angle (nth n (spectrum [0; 1; 0]) C0) in
  t <> PI /\ - third_turn <= t <= third_turn.
Proof.
  intros Hn. pose proof third_turn_bounds as Hb. pose proof PI_RGT_0.
  rewrite spectrum_010.
  destruct n as [|[|[|n]]]; simpl; try lia;
    rewrite angle_cis by lra; lra.
Qed.






(** C4 at the unit vector [0, 1, 0], bound to itself and unbound again. *)
Lemma bind_unbind_witness :
  exists s u,
    bind (of_values [0; 1; 0]) (of_values [0; 1; 0]) = Ok s /\
    unbind s (of_values [0; 1; 0]) = Ok u /\
    v u = v (of_values [0; 1; 0]).
Proof.
  apply (bind_unbind (of_values [0; 1; 0]) (of_values [0; 1; 0])).
  - reflexivity.
  - simpl. discriminate.
  - apply unitary_010.
Defined.




End SmallVectors.

(** * More on the decode loop *)

Module DecoderMore.
Import Py Decoder DecoderSpec DecoderFacts.

(** X1. The loop stops at the first small increment, and not later than
    after [max_iters - 1] iterations. *)
Theorem decode_stops_at_first_small_increment
        (kappa : float) (DeltaA DeltaPhi : list float) (max_iters : nat) :
  length DeltaPhi = length DeltaA ->
  exists r,
    decode DeltaA DeltaPhi kappa max_iters = Ok r /\
    iterations r <= max_iters - 1 /\
    (forall t, 1 <= t < iterations r ->
               (abs (spec_increment kappa DeltaA DeltaPhi t) <? 0.0001)%float
               = false) /\
    (broke r = true ->
     1 <= iterations r /\
     (abs (spec_increment kappa DeltaA DeltaPhi (iterations r))
      <? 0.0001)%float = true) /\
    (broke r = false ->
     iterations r = max_iters - 1 /\
     forall t, 1 <= t <= iterations r ->
               (abs (spec_increment kappa DeltaA DeltaPhi t) <? 0.0001)%float
               = false).
Proof.
  intros Hlen. unfold decode, range.
  destruct (loop_exit kappa DeltaA DeltaPhi Hlen (max_iters - 1) 1 [])
    as (r & Hr & _ & Hm & Hbefore & Hbreak & Hfull); [discriminate|].
  simpl in Hr. exists r. split; [exact Hr|].
  simpl length in *. rewrite Nat.sub_0_r in *.
  split; [exact Hm|]. split; [|split].
  - intros t [H1 H2]. replace t with (1 + (t - 1)) by lia.
    apply Hbefore. lia.
  - intros Hb. destruct (Hbreak Hb) as [H1 H2]. split; [exact H1|].
    replace (iterations r) with (1 + (iterations r - 1)) at 1 by lia.
    exact H2.
  - intros Hb. destruct (Hfull Hb) as [H1 H2]. split; [exact H1|].
    intros t [Ht1 Ht2]. replace t with (1 + (t - 1)) by lia.
    apply H2. lia.
Qed.

Lemma decode_stops_at_first_small_increment_witness :
  exists r,
    decode [1; 2]%float [1; 5]%float kappa_default 3 = Ok r /\
    iterations r <= 3 - 1.
Proof.
  destruct (decode_stops_at_first_small_increment
              kappa_default [1; 2]%float [1; 5]%float 3 eq_refl)
    as (r & Hr & Hn & _).
  exists r. exact (conj Hr Hn).
Defined.

(** ** Arrays of different lengths *)

Lemma loop_raises (kappa : float) (DeltaA DeltaPhi : list float) e :
  forall t iters x out,
    step kappa DeltaA DeltaPhi t x = Raise e ->
    loop kappa DeltaA DeltaPhi (t :: iters) x out = Raise e.
Proof.
  intros t iters x out Hstep. simpl. now rewrite Hstep.
Qed.

Lemma step_mismatch (kappa : float) (DeltaA DeltaPhi : list float) t x :
  length DeltaPhi <> length DeltaA -> length DeltaPhi <> 1 -> t <> O ->
  step kappa DeltaA DeltaPhi t x = Raise ValueError.
Proof.
  intros Hne H1 Ht. apply Nat.eqb_neq in Ht. unfold step, np_sub.
  destruct (Nat.eq_dec (length DeltaA) 1) as [HA|HA].
  - destruct DeltaA as [|a [|a' DeltaA]]; simpl in HA; try lia.
    unfold np_scale. simpl map. rewrite broadcast_single_r.
    cbv beta iota delta [rbind].
    unfold one_over. rewrite Ht. cbv beta iota delta [rbind].
    unfold dot. rewrite length_set_mask, length_map. simpl length.
      destruct (1 =? length DeltaPhi) eqn:E; [|reflexivity].
      apply Nat.eqb_eq in E. simpl in H1. lia.
  - rewrite broadcast_raises; try reflexivity; try assumption;
      unfold np_scale; rewrite length_map; assumption.
Qed.

Lemma step_single_phi (kappa : float) (DeltaA : list float) (p : float) t x :
  t <> O -> exists r, step kappa DeltaA [p] t x = Ok r.
Proof.
  intros Ht. unfold step, np_sub. rewrite broadcast_single_l.
  cbv beta iota delta [rbind]. unfold one_over.
  apply Nat.eqb_neq in Ht. rewrite Ht. cbv beta iota delta [rbind].
  unfold dot, np_scale.
  rewrite length_set_mask, !length_map, Nat.eqb_refl.
  cbv beta iota delta [rbind]. eexists; reflexivity.
Qed.

Lemma loop_single_phi (kappa : float) (DeltaA : list float) (p : float) n :
  forall t x out,
    t <> O -> exists r, loop kappa DeltaA [p] (seq t n) x out = Ok r.
Proof.
  induction n as [|n IH]; intros t x out Ht; simpl.
  - eexists; reflexivity.
  - destruct (step_single_phi kappa DeltaA p t x Ht) as [r Hr].
    rewrite Hr. cbv beta iota delta [rbind].
    destruct (abs (snd r) <? 0.0001)%float; [eexists; reflexivity|].
    apply IH. discriminate.
Qed.

(** X2. When [DeltaPhi] and [DeltaA] differ in length and at least one
    iteration is run, the loop raises [ValueError] -- unless [DeltaPhi] has
    a single element, which numpy uses for every coupling without any
    error. *)
Theorem decode_length_mismatch
        (kappa : float) (DeltaA DeltaPhi : list float) (max_iters : nat) :
  length DeltaPhi <> length DeltaA -> 2 <= max_iters ->
  (length DeltaPhi <> 1 ->
   decode DeltaA DeltaPhi kappa max_iters = Raise ValueError) /\
  (length DeltaPhi = 1 ->
   exists r, decode DeltaA DeltaPhi kappa max_iters = Ok r).
Proof.
  intros Hne HM. split.
  - intros H1. unfold decode, range.
    destruct max_iters as [|[|m]]; try lia.
    change (S (S m) - 1) with (S m - 0). rewrite Nat.sub_0_r. simpl seq.
    apply loop_raises. apply step_mismatch; auto.
  - intros H1. destruct DeltaPhi as [|p [|p' DeltaPhi]]; simpl in H1; try lia.
    unfold decode, range. apply loop_single_phi. discriminate.
Qed.

Lemma decode_length_mismatch_witness :
  decode [1; 2]%float [1; 2; 3]%float kappa_default 100 = Raise ValueError /\
  exists r, decode [1; 2]%float [1]%float kappa_default 100 = Ok r.
Proof.
  split.
  - apply (decode_length_mismatch kappa_default [1; 2]%float [1; 2; 3]%float 100);
      simpl; try discriminate. repeat constructor.
  - apply (decode_length_mismatch kappa_default [1; 2]%float [1]%float 100);
      simpl; try discriminate; try reflexivity. repeat constructor.
Defined.

End DecoderMore.

(** * More on the vocabulary *)

Module HRRMore.
Import Py FloatOrder FloatOrderFacts.

(** X4. [h(idx)] returns member [idx] for [0 <= idx < len(vocab)], counts a
    negative index from the end, and raises [IndexError] for every other
    index. *)
Theorem call_bounds (h : HRR.t) (idx : Z) :
  let n := Z.of_nat (length (HRR.vocab h)) in
  ((0 <= idx < n)%Z ->
   exists member, nth_error (HRR.vocab h) (Z.to_nat idx) = Some member /\
                  HRR.call h idx = Ok member) /\
  ((- n <= idx < 0)%Z -> HRR.call h idx = HRR.call h (n + idx)) /\
  ((idx < - n \/ n <= idx)%Z -> HRR.call h idx = Raise IndexError).
Proof.
  intros n. unfold HRR.call, index. fold n. split; [|split].
  - intros [H0 Hn].
    assert (E : (idx <? 0)%Z = false) by (apply Z.ltb_ge; lia).
    rewrite !E.
    destruct (nth_error (HRR.vocab h) (Z.to_nat idx)) as [m|] eqn:Hm.
    + now exists m.
    + apply nth_error_None in Hm. lia.
  - intros [H0 Hn].
    assert (E : (idx <? 0)%Z = true) by (apply Z.ltb_lt; lia).
    assert (E' : (n + idx <? 0)%Z = false) by (apply Z.ltb_ge; lia).
    now rewrite E, !E'.
  - intros [Hlow | Hhigh].
    + assert (E : (idx <? 0)%Z = true) by (apply Z.ltb_lt; lia).
      assert (E' : (n + idx <? 0)%Z = true) by (apply Z.ltb_lt; lia).
      now rewrite E, E'.
    + assert (E : (idx <? 0)%Z = false) by (apply Z.ltb_ge; lia).
      rewrite !E.
      destruct (nth_error (HRR.vocab h) (Z.to_nat idx)) as [m|] eqn:Hm;
        [|reflexivity].
      assert (Hlt : Z.to_nat idx < length (HRR.vocab h)).
      { apply nth_error_Some. congruence. }
      lia.
Qed.

(** ** Scans that raise, and scans that never move *)

Lemma scan_mismatch (x : MySP.t float) (members : list (MySP.t float)) :
  (exists s, In s members /\ MySP.dim s <> MySP.dim x) ->
  forall k st, HRR.scan x members k st = Raise ValueError.
Proof.
  induction members as [|s rest IH]; intros (s' & Hin & Hd) k st.
  - destruct Hin.
  - simpl. unfold MySP.similarity, dot.
    destruct (length (MySP.v x) =? length (MySP.v s)) eqn:E.
    + cbv beta iota delta [rbind]. apply IH.
      destruct Hin as [<- | Hin].
      * apply Nat.eqb_eq in E. unfold MySP.dim in Hd. congruence.
      * now exists s'.
    + reflexivity.
Qed.

Lemma scan_below (x : MySP.t float) (members : list (MySP.t float)) :
  (forall s, In s members ->
             MySP.dim s = MySP.dim x /\
             (-1e50 <? sum_prod (MySP.v x) (MySP.v s))%float = false) ->
  forall k, HRR.scan x members k ((-1)%Z, (-1e50)%float) =
            Ok ((-1)%Z, (-1e50)%float).
Proof.
  induction members as [|s rest IH]; intros Hall k; [reflexivity|].
  simpl. destruct (Hall s (or_introl eq_refl)) as [Hd Hb].
  unfold MySP.similarity, dot. unfold MySP.dim in Hd.
  rewrite Hd, Nat.eqb_refl. cbv beta iota delta [rbind].
  simpl snd. rewrite Hb. apply IH. intros s' Hs'. apply Hall. now right.
Qed.

(** X5. [cleanup] raises [IndexError] on an empty vocabulary, and
    [ValueError] when the vocabulary has a member whose number of values is
    not that of the query. *)
Theorem cleanup_raises (h : HRR.t) (x : MySP.t float) :
  (HRR.vocab h = [] -> HRR.cleanup h x = Raise IndexError) /\
  ((exists s, In s (HRR.vocab h) /\ MySP.dim s <> MySP.dim x) ->
   HRR.cleanup h x = Raise ValueError).
Proof.
  split.
  - intros E. unfold HRR.cleanup, HRR.call. now rewrite E.
  - intros Hs. unfold HRR.cleanup. now rewrite scan_mismatch.
Qed.

(** X6. When the vocabulary is not empty, every member has the dimension
    of the query, and no similarity is above the initial
    [max_sim = -1.e50], [cleanup] does not fail: it returns the LAST member
    of the vocabulary with index -1 and similarity -1e50. *)
Theorem cleanup_nothing_above (h : HRR.t) (x : MySP.t float) :
  HRR.vocab h <> [] ->
  (forall s, In s (HRR.vocab h) -> MySP.dim s = MySP.dim x) ->
  (forall j, j < length (HRR.vocab h) ->
             (-1e50 <? nth j (HRR.similarities h x) 0)%float = false) ->
  exists member,
    nth_error (HRR.vocab h) (length (HRR.vocab h) - 1) = Some member /\
    HRR.cleanup h x = Ok (member, (-1)%Z, (-1e50)%float).
Proof.
  intros Hne Hdim Hbelow.
  assert (Hlen : 0 < length (HRR.vocab h)).
  { destruct (HRR.vocab h); [congruence|simpl; lia]. }
  destruct (nth_error (HRR.vocab h) (length (HRR.vocab h) - 1))
    as [member|] eqn:Hm; [|apply nth_error_None in Hm; lia].
  exists member. split; [reflexivity|].
  unfold HRR.cleanup. rewrite scan_below.
  - cbv beta iota delta [rbind]. unfold HRR.call, index. simpl fst.
    change ((-1 <? 0)%Z) with true. cbv iota.
    assert (E : (Z.of_nat (length (HRR.vocab h)) + -1 <? 0)%Z = false)
      by (apply Z.ltb_ge; lia).
    rewrite E.
    replace (Z.to_nat (Z.of_nat (length (HRR.vocab h)) + -1))
      with (length (HRR.vocab h) - 1) by lia.
    now rewrite Hm.
  - intros s Hs. split; [now apply Hdim|].
    destruct (In_nth _ _ s Hs) as (j & Hj & Hnth).
    specialize (Hbelow j Hj). unfold HRR.similarities in Hbelow.
    rewrite (nth_indep _ _ (sum_prod (MySP.v x) (MySP.v s))) in Hbelow
      by (now rewrite length_map).
    rewrite (map_nth (fun s => sum_prod (MySP.v x) (MySP.v s))) in Hbelow.
    now rewrite Hnth in Hbelow.
Qed.

Lemma cleanup_nothing_above_witness :
  let m0 := MySP.of_values [1; 0; 0]%float in
  let m1 := MySP.of_values [0; 1; 0]%float in
  let q := MySP.of_values [-2e50; -3e50; 0]%float in
  exists member,
    nth_error [m0; m1] 1 = Some member /\
    HRR.cleanup (HRR.mk 2 3 [m0; m1]) q = Ok (member, (-1)%Z, (-1e50)%float).
Proof.
  intros m0 m1 q.
  apply (cleanup_nothing_above (HRR.mk 2 3 [m0; m1]) q).
  - discriminate.
  - intros s [<- | [<- | []]]; reflexivity.
  - intros j Hj. simpl in Hj.
    assert (j = 0 \/ j = 1) as [-> | ->] by lia; vm_compute; reflexivity.
Defined.

Lemma cleanup_first_argmax_witness :
  let m0 := MySP.of_values [1; 0; 0]%float in
  let m1 := MySP.of_values [0; 1; 0]%float in
  let m2 := MySP.of_values [0; 1; 0]%float in
  let h := HRR.mk 3 3 [m0; m1; m2] in
  let q := MySP.of_values [2; 3; 0]%float in
  exists k member,
    HRR.first_argmax (HRR.similarities h q) k /\
    nth_error (HRR.vocab h) k = Some member /\
    HRR.cleanup h q = Ok (member, Z.of_nat k, nth k (HRR.similarities h q) 0%float).
Proof.
  intros m0 m1 m2 h q.
  apply (HRRFacts.cleanup_first_argmax h q).
  - intros s [<- | [<- | [<- | []]]]; reflexivity.
  - intros j Hj. simpl in Hj. apply number_eqb.
    assert (j = 0 \/ j = 1 \/ j = 2) as [-> | [-> | ->]] by lia;
      vm_compute; reflexivity.
  - exists 0. split; [simpl; lia|]. vm_compute. reflexivity.
Defined.

End HRRMore.

(** * More on the couplings *)

Module CouplingsMore.
Import Py Couplings CouplingFacts.

Lemma sorted_nth {A} (R : A -> A -> Prop) (l : list A) (d : A) :
  StronglySorted R l ->
  forall i j, i < j -> j < length l -> R (nth i l d) (nth j l d).
Proof.
  induction 1 as [|a l Hs IH Hall]; intros i j Hij Hj; [simpl in Hj; lia|].
  destruct j as [|j]; [lia|]. simpl in Hj.
  destruct i as [|i]; simpl.
  - rewrite Forall_forall in Hall. apply Hall, nth_In. lia.
  - apply IH; lia.
Qed.

(** Where a coupling comes from: two positions of the sorted indices, one
    or two apart. *)
Lemma pairs_origin (sidx : list nat) (j k : nat) :
  In (j, k) (pairs sidx) ->
  exists i d, (d = 1 \/ d = 2) /\ i + d < length sidx /\
              j = nth i sidx 0 /\ k = nth (i + d) sidx 0.
Proof.
  unfold pairs. rewrite adjacent_eq, skip_one_eq. intros Hin.
  apply in_app_or in Hin as [Hin | Hin];
    apply (In_nth _ _ (0, 0)) in Hin as (i & Hi & Hnth);
    rewrite length_pairs in Hi; rewrite nth_pairs in Hnth by assumption;
    injection Hnth as <- <-.
  - exists i, 1. repeat split; auto; lia.
  - exists i, 2. repeat split; auto; lia.
Qed.

Lemma pairs_short (sidx : list nat) : length sidx < 2 -> pairs sidx = [].
Proof.
  intros Hl. unfold pairs. rewrite adjacent_eq, skip_one_eq.
  replace (length sidx - 1) with 0 by lia.
  replace (length sidx - 2) with 0 by lia. reflexivity.
Qed.

Lemma pairs_nodup (sidx : list nat) : NoDup sidx -> NoDup (pairs sidx).
Proof.
  intros Hnd.
  destruct (Nat.lt_ge_cases (length sidx) 2) as [Hs | Hs].
  { rewrite pairs_short by assumption. constructor. }
  destruct (pairs_spec sidx Hs) as (_ & _ & Hlen & Hadj & Hskip).
  pose proof (proj1 (NoDup_nth sidx 0) Hnd) as Hinj.
  apply (NoDup_nth _ (0, 0)). intros p q Hp Hq E.
  rewrite Hlen in Hp, Hq.
  set (D := length sidx) in *.
  destruct (Nat.lt_ge_cases p (D - 1)) as [Hp1 | Hp1],
           (Nat.lt_ge_cases q (D - 1)) as [Hq1 | Hq1].
  - rewrite (Hadj p), (Hadj q) in E by assumption.
    injection E as E1 _. apply Hinj in E1; lia.
  - rewrite (Hadj p) in E by assumption.
    replace q with (D - 1 + (q - (D - 1))) in E by lia.
    rewrite Hskip in E by lia.
    injection E as E1 E2. apply Hinj in E1; [|lia|lia].
    apply Hinj in E2; lia.
  - rewrite (Hadj q) in E by assumption.
    replace p with (D - 1 + (p - (D - 1))) in E by lia.
    rewrite Hskip in E by lia.
    injection E as E1 E2. apply Hinj in E1; [|lia|lia].
    apply Hinj in E2; lia.
  - replace p with (D - 1 + (p - (D - 1))) in E by lia.
    replace q with (D - 1 + (q - (D - 1))) in E by lia.
    rewrite !Hskip in E by lia.
    injection E as E1 _. apply Hinj in E1; lia.
Qed.

(** X7. No coupling is listed twice, and every coupling [(j, k)] joins two
    different positions of the phase array, [j] standing before [k] in the
    sorted order (the phase at [k] is not below the phase at [j]). *)
Theorem couplings_well_formed (phase : list float) :
  NoDup (couplings phase) /\
  forall j k, In (j, k) (couplings phase) ->
              j < length phase /\ k < length phase /\ j <> k /\
              in_order phase j k.
Proof.
  destruct (argsort_spec phase) as (Hlen & Hperm & Hsorted).
  assert (Hnd : NoDup (argsort phase)).
  { apply (Permutation_NoDup (Permutation_sym Hperm)), seq_NoDup. }
  split; [now apply pairs_nodup|].
  intros j k Hin.
  destruct (pairs_origin _ _ _ Hin) as (i & d & Hd & Hi & -> & ->).
  assert (Hrange : forall n, n < length (argsort phase) ->
                             nth n (argsort phase) 0 < length phase).
  { intros n Hn.
    assert (Hm : In (nth n (argsort phase) 0) (argsort phase))
      by (now apply nth_In).
    apply (Permutation_in _ Hperm) in Hm. apply in_seq in Hm. lia. }
  split; [apply Hrange; lia|]. split; [apply Hrange; lia|]. split.
  - intros E. apply (proj1 (NoDup_nth _ 0) Hnd) in E; lia.
  - apply sorted_nth; [assumption|lia|lia].
Qed.

End CouplingsMore.

(** * Binding as circular convolution *)

Module BindFacts.
Import Py Cx CxFacts Fourier FourierFacts AngleFacts MySP MySPFacts
       SpectrumFacts Convolution.
Local Open Scope R_scope.

(** ** Real vectors and their spectra *)

Lemma spectrum_inj (u w : list R) :
  length u = length w -> spectrum u = spectrum w -> u = w.
Proof.
  intros Hl Hs. destruct u as [|x u].
  - destruct w; [reflexivity | discriminate].
  - assert (Hw : w <> []) by (destruct w; discriminate).
    assert (Hxu : x :: u <> []) by discriminate.
    pose proof (ifft_dft (complex (x :: u)) (complex_nonempty _ Hxu)) as Hu.
    pose proof (ifft_dft (complex w) (complex_nonempty _ Hw)) as Hw'.
    unfold spectrum in Hs. rewrite Hs, Hw' in Hu. apply Ok_inj in Hu.
    rewrite <- (real_complex (x :: u)), <- (real_complex w). now f_equal.
Qed.

Lemma nth_spectrum (u : list R) (k : nat) :
  (k < length u)%nat ->
  nth k (spectrum u) C0 =
  Csum (fun m => Cmul (RtoC (nth m u 0))
                      (cis (- 1 * (2 * PI * INR (m * k) / INR (length u)))))
       (length u).
Proof.
  intros Hk. unfold spectrum.
  rewrite nth_dft by (now rewrite length_complex).
  rewrite length_complex. apply Csum_ext. intros m Hm. f_equal.
  unfold complex. now rewrite (nth_map_C RtoC 0).
Qed.

Lemma RtoC_add x y : RtoC (x + y) = Cadd (RtoC x) (RtoC y).
Proof. apply C_eq; unfold RtoC, Cadd, Re, Im; simpl; ring. Qed.

Lemma RtoC_mul x y : RtoC (x * y) = Cmul (RtoC x) (RtoC y).
Proof. apply C_eq; unfold RtoC, Cmul, Re, Im; simpl; ring. Qed.

Lemma RtoC_Rsum f n : RtoC (Rsum f n) = Csum (fun k => RtoC (f k)) n.
Proof.
  induction n as [|n IH]; simpl; [reflexivity|].
  now rewrite RtoC_add, IH.
Qed.

(** The values an operation through the Fourier domain returns, for two
    operands of the same positive dimension and a pointwise operation that
    commutes with conjugation. *)
Lemma through_fourier (f : C -> C -> C) (sp y : MySP.t R) :
  dim sp = dim y -> dim sp <> O ->
  (forall z w, f (Cconj z) (Cconj w) = Cconj (f z w)) ->
  exists s,
    (X <- fft (complex (v sp)) ;;
     Y <- fft (complex (v y)) ;;
     P <- broadcast f X Y ;;
     s <- ifft P ;;
     Ok (of_values (real s))) = Ok s /\
    s = of_values (v s) /\ dim s = dim sp /\
    spectrum (v s) = zip_with f (spectrum (v sp)) (spectrum (v y)).
Proof.
  intros Hdim Hpos Hf.
  assert (Hsp : v sp <> []) by (now apply dim_nonempty).
  assert (Hyn : v y <> []) by (apply dim_nonempty; congruence).
  unfold dim in Hdim.
  set (X := spectrum (v sp)). set (Y := spectrum (v y)).
  assert (HXY : length X = length Y)
    by (unfold X, Y; now rewrite !length_spectrum).
  assert (HP : conj_sym (zip_with f X Y)).
  { apply conj_sym_zip; try assumption; apply conj_sym_spectrum. }
  assert (HPl : length (zip_with f X Y) = length (v sp)).
  { rewrite length_zip_with, <- HXY, Nat.min_id. apply length_spectrum. }
  assert (HPn : zip_with f X Y <> []).
  { intros E. rewrite E in HPl. simpl in HPl. unfold dim in Hpos. lia. }
  destruct (ifft (zip_with f X Y)) as [p|e] eqn:Hp;
    [|rewrite ifft_ok in Hp by assumption; discriminate].
  destruct (spectrum_real_ifft _ _ HP Hp) as (Hreal & Hspec & Hlen).
  exists (of_values (real p)).
  split; [|split; [reflexivity|split]].
  - rewrite !fft_values by assumption. cbv beta iota delta [rbind].
    rewrite broadcast_same by exact HXY. fold X Y. now rewrite Hp.
  - unfold dim. simpl v. now rewrite Hlen, HPl.
  - exact Hspec.
Qed.

Lemma bind_result (sp y : MySP.t R) :
  dim sp = dim y -> dim sp <> O ->
  exists s,
    bind sp y = Ok s /\ s = of_values (v s) /\ dim s = dim sp /\
    spectrum (v s) = zip_with Cmul (spectrum (v sp)) (spectrum (v y)).
Proof.
  intros Hd Hp. apply (through_fourier Cmul sp y Hd Hp).
  intros; symmetry; apply Cconj_mul.
Qed.

Lemma unbind_result (sp y : MySP.t R) :
  dim sp = dim y -> dim sp <> O ->
  exists s,
    unbind sp y = Ok s /\ s = of_values (v s) /\ dim s = dim sp /\
    spectrum (v s) = zip_with Cdiv (spectrum (v sp)) (spectrum (v y)).
Proof.
  intros Hd Hp. apply (through_fourier Cdiv sp y Hd Hp).
  intros; apply Cconj_div.
Qed.

(** Two results of [MySP(v=...)] with the same dimension and the same
    spectrum are the same object state. *)
Lemma same_spectrum (s1 s2 : MySP.t R) :
  s1 = of_values (v s1) -> s2 = of_values (v s2) ->
  dim s1 = dim s2 -> spectrum (v s1) = spectrum (v s2) -> s1 = s2.
Proof.
  intros E1 E2 Hd Hs. rewrite E1, E2. f_equal. now apply spectrum_inj.
Qed.

Lemma zip_with_ext_nth (f g : C -> C -> C) (X Y X' Y' : list C) :
  length X = length Y -> length X' = length Y' -> length X = length X' ->
  (forall k, (k < length X)%nat ->
             f (nth k X C0) (nth k Y C0) = g (nth k X' C0) (nth k Y' C0)) ->
  zip_with f X Y = zip_with g X' Y'.
Proof.
  intros H1 H2 H3 Hk. apply (nth_ext _ _ C0 C0).
  - rewrite !length_zip_with. lia.
  - intros k Hlt. rewrite length_zip_with in Hlt.
    rewrite !(nth_zip_with _ _ _ _ C0 C0) by lia. apply Hk. lia.
Qed.

Lemma nth_zip (f : C -> C -> C) (X Y : list C) k :
  length X = length Y -> (k < length X)%nat ->
  nth k (zip_with f X Y) C0 = f (nth k X C0) (nth k Y C0).
Proof. intros Hl Hk. apply nth_zip_with; lia. Qed.

(** ** Cyclic sums *)

Lemma Csum_cyclic_1 (h : nat -> C) (n : nat) :
  Csum (fun j => h (S j mod n)%nat) n = Csum h n.
Proof.
  destruct n as [|n]; [reflexivity|].
  rewrite (Csum_shift h n).
  change (Csum (fun j => h (S j mod S n)%nat) (S n))
    with (Cadd (Csum (fun j => h (S j mod S n)%nat) n) (h (S n mod S n)%nat)).
  rewrite Nat.Div0.mod_same, Cadd_comm. f_equal.
  apply Csum_ext. intros j Hj. now rewrite Nat.mod_small by lia.
Qed.

Lemma Csum_cyclic (h : nat -> C) (n s : nat) :
  Csum (fun j => h ((j + s) mod n)%nat) n = Csum h n.
Proof.
  revert h. induction s as [|s IH]; intros h.
  - destruct n as [|n]; [reflexivity|].
    apply Csum_ext. intros j Hj.
    now rewrite Nat.add_0_r, Nat.mod_small by lia.
  - rewrite <- (IH h), <- (Csum_cyclic_1 (fun j => h ((j + s) mod n)%nat)).
    apply Csum_ext. intros j Hj. f_equal.
    rewrite Nat.Div0.add_mod_idemp_l. f_equal. lia.
Qed.

(** The twiddle factor of [n] splits along [n = m + ((n - m) mod D)]. *)
Lemma twiddle_split (D k m n : nat) :
  (m < D)%nat -> (n < D)%nat ->
  cis (- 1 * (2 * PI * INR (n * k) / INR D)) =
  Cmul (cis (- 1 * (2 * PI * INR (m * k) / INR D)))
       (cis (- 1 * (2 * PI * INR (((n + D - m) mod D) * k) / INR D))).
Proof.
  intros Hm Hn. set (j := ((n + D - m) mod D)%nat).
  assert (HD : 0 < INR D) by (apply lt_0_INR; lia).
  rewrite <- cis_add.
  assert (Hc : exists c, (m + j = n + c * D)%nat).
  { destruct (Nat.le_gt_cases m n) as [Hle | Hgt].
    - exists 0%nat. unfold j.
      replace (n + D - m)%nat with ((n - m) + 1 * D)%nat by lia.
      rewrite Nat.Div0.mod_add, Nat.mod_small by lia. lia.
    - exists 1%nat. unfold j. rewrite Nat.mod_small by lia. lia. }
  destruct Hc as [c Hc].
  assert (E : INR (m * k) + INR (j * k) = INR (n * k) + INR (c * k) * INR D).
  { rewrite <- plus_INR, <- mult_INR, <- plus_INR. f_equal. nia. }
  replace (- 1 * (2 * PI * INR (m * k) / INR D) +
           - 1 * (2 * PI * INR (j * k) / INR D))
    with (- 1 * (2 * PI * INR (n * k) / INR D) - 2 * PI * INR (c * k)).
  - now rewrite cis_period_back.
  - apply (Rmult_eq_reg_r (INR D)); [|lra]. field_simplify; [|lra|lra].
    replace (INR (m * k)) with (INR (n * k) + INR (c * k) * INR D - INR (j * k))
      by lra. ring.
Qed.

(** The convolution theorem. *)
Lemma spectrum_circular (a b : list R) :
  length a = length b ->
  spectrum (circular a b) = zip_with Cmul (spectrum a) (spectrum b).
Proof.
  intros Hl.
  assert (Hlc : length (circular a b) = length a)
    by (unfold circular; now rewrite length_map, length_seq).
  apply (nth_ext _ _ C0 C0).
  - rewrite length_zip_with, !length_spectrum. lia.
  - intros k Hk. rewrite length_spectrum, Hlc in Hk.
    rewrite nth_zip by (rewrite ?length_spectrum; lia).
    rewrite !nth_spectrum by lia. rewrite Hlc, <- Hl.
    set (D := length a) in *.
    set (w := fun n : nat => cis (- 1 * (2 * PI * INR (n * k) / INR D))).
    transitivity
      (Csum (fun n => Csum (fun m =>
         Cmul (Cmul (RtoC (nth m a 0)) (w m))
              (Cmul (RtoC (nth ((n + D - m) mod D) b 0))
                    (w ((n + D - m) mod D)%nat))) D) D).
    + apply Csum_ext. intros n Hn.
      unfold circular. fold D.
      rewrite (nth_indep _ 0 ((fun n => Rsum (fun m => nth m a 0 *
                 nth ((n + D - m) mod D) b 0) D) 0%nat))
        by (now rewrite length_map, length_seq).
      rewrite (map_nth (fun n => Rsum (fun m => nth m a 0 *
                 nth ((n + D - m) mod D) b 0) D)), seq_nth by assumption.
      rewrite Nat.add_0_l, RtoC_Rsum, <- Csum_mul_r.
      apply Csum_ext. intros m Hm.
      fold (w n). unfold w at 1. rewrite (twiddle_split D k m n Hm Hn).
      fold (w m). fold (w ((n + D - m) mod D)%nat).
      rewrite RtoC_mul. cx_ring.
    + rewrite Csum_swap.
      rewrite <- Csum_mul_r. apply Csum_ext. intros m Hm.
      rewrite Csum_mul_l. f_equal.
      transitivity
        (Csum (fun n => (fun j => Cmul (RtoC (nth j b 0)) (w j))
                          ((n + (D - m)) mod D)%nat) D).
      * apply Csum_ext. intros n Hn. cbv beta.
        now replace (n + (D - m))%nat with (n + D - m)%nat by lia.
      * apply (Csum_cyclic (fun j => Cmul (RtoC (nth j b 0)) (w j))).
Qed.

(** X8. For two vectors of the same positive dimension, [v.bind(w)]
    succeeds and its values are the circular convolution of the operands;
    its Fourier coefficients are the products of theirs. *)
Theorem bind_is_circular_convolution (sp y : MySP.t R) :
  dim sp = dim y -> dim sp <> O ->
  exists s,
    bind sp y = Ok s /\ v s = circular (v sp) (v y) /\
    spectrum (v s) = zip_with Cmul (spectrum (v sp)) (spectrum (v y)).
Proof.
  intros Hd Hp.
  destruct (bind_result sp y Hd Hp) as (s & Hb & _ & Hds & Hs).
  exists s. split; [exact Hb|]. split; [|exact Hs].
  apply spectrum_inj.
  - unfold circular. rewrite length_map, length_seq. exact Hds.
  - rewrite Hs. symmetry. now apply spectrum_circular.
Qed.

Lemma bind_is_circular_convolution_witness :
  exists s,
    bind (of_values [1; 2; 3]) (of_values [4; 5; 6]) = Ok s /\
    v s = circular [1; 2; 3] [4; 5; 6].
Proof.
  destruct (bind_is_circular_convolution
              (of_values [1; 2; 3]) (of_values [4; 5; 6]) eq_refl
              ltac:(simpl; discriminate)) as (s & Hb & Hv & _).
  exists s. exact (conj Hb Hv).
Defined.

End BindFacts.

(** * The laws of binding *)

Module BindLaws.
Import Py Cx CxFacts Fourier FourierFacts AngleFacts MySP MySPFacts
       SpectrumFacts PowerFacts Convolution BindFacts.
Local Open Scope R_scope.

Lemma Cmod_mul z w : Cmod (Cmul z w) = Cmod z * Cmod w.
Proof.
  unfold Cmod, Cmul, Re, Im; simpl.
  rewrite <- sqrt_mult_alt by nra. f_equal. ring.
Qed.

Lemma Cdiv_self z : z <> C0 -> Cdiv z z = C1.
Proof.
  intros Hz.
  assert (Hd : Re z * Re z + Im z * Im z <> 0).
  { intros E. apply Hz. apply C_eq; unfold C0; simpl; nra. }
  apply C_eq; unfold Cdiv, C1, Re, Im in *; simpl; field; assumption.
Qed.

Lemma Cdiv_mul_back z w : w <> C0 -> Cmul (Cdiv z w) w = z.
Proof.
  intros Hw.
  assert (Hd : Re w * Re w + Im w * Im w <> 0).
  { intros E. apply Hw. apply C_eq; unfold C0; simpl; nra. }
  apply C_eq; unfold Cdiv, Cmul, Re, Im in *; simpl; field; assumption.
Qed.

Lemma length_delta D : length (delta D) = D.
Proof. unfold delta. now rewrite length_map, length_seq. Qed.

Lemma nth_delta D m :
  (m < D)%nat -> nth m (delta D) 0 = if (m =? 0)%nat then 1 else 0.
Proof.
  intros Hm. unfold delta.
  rewrite (nth_indep _ 0 ((fun k => if (k =? 0)%nat then 1 else 0) 0%nat))
    by (now rewrite length_map, length_seq).
  rewrite (map_nth (fun k => if (k =? 0)%nat then 1 else 0)).
  now rewrite seq_nth.
Qed.

(** Every Fourier coefficient of [1, 0, ..., 0] is 1. *)
Lemma spectrum_delta D k :
  (k < D)%nat -> nth k (spectrum (delta D)) C0 = C1.
Proof.
  intros Hk. rewrite nth_spectrum by (now rewrite length_delta).
  rewrite length_delta. destruct D as [|D]; [lia|].
  rewrite Csum_shift.
  rewrite (Csum_ext _ (fun _ => C0)).
  - rewrite Csum_zero, nth_delta by lia. simpl Nat.eqb. cbv iota.
    rewrite Nat.mul_0_l.
    change (INR 0) with 0.
    replace (- 1 * (2 * PI * 0 / INR (S D))) with 0
      by (unfold Rdiv; ring).
    rewrite cis_0. cx_ring.
  - intros m Hm. rewrite nth_delta by lia. simpl Nat.eqb. cbv iota.
    apply C_eq; unfold Cmul, RtoC, C0, Re, Im; simpl; ring.
Qed.

Lemma spectrum_ones (u : list R) :
  u <> [] ->
  (forall k, (k < length u)%nat -> nth k (spectrum u) C0 = C1) ->
  u = delta (length u).
Proof.
  intros Hu Hk. apply spectrum_inj; [now rewrite length_delta|].
  apply (nth_ext _ _ C0 C0).
  - now rewrite !length_spectrum, length_delta.
  - intros k Hlt. rewrite length_spectrum in Hlt.
    now rewrite Hk, spectrum_delta.
Qed.

(** The spectrum is additive. *)
Lemma spectrum_add (a b : list R) :
  length a = length b ->
  spectrum (zip_with Rplus a b) = zip_with Cadd (spectrum a) (spectrum b).
Proof.
  intros Hl.
  assert (Hlz : length (zip_with Rplus a b) = length a)
    by (rewrite length_zip_with; lia).
  apply (nth_ext _ _ C0 C0).
  - rewrite length_zip_with, !length_spectrum. lia.
  - intros k Hk. rewrite length_spectrum, Hlz in Hk.
    rewrite nth_zip by (rewrite ?length_spectrum; lia).
    rewrite !nth_spectrum by lia. rewrite Hlz, <- Hl, <- Csum_add.
    apply Csum_ext. intros m Hm.
    rewrite (nth_zip_with Rplus a b m 0 0) by lia.
    rewrite RtoC_add. cx_ring.
Qed.

(** X9. Binding is associative: for three vectors of the same positive
    dimension, [(a.bind(b)).bind(c)] and [a.bind(b.bind(c))] both succeed
    and give the same vector. *)
Theorem bind_assoc (a b c : MySP.t R) :
  dim a = dim b -> dim b = dim c -> dim a <> O ->
  exists ab bc r,
    bind a b = Ok ab /\ bind b c = Ok bc /\
    bind ab c = Ok r /\ bind a bc = Ok r.
Proof.
  intros Hab Hbc Hpos.
  destruct (bind_result a b Hab Hpos) as (ab & Eab & _ & Dab & Sab).
  destruct (bind_result b c Hbc ltac:(congruence)) as (bc & Ebc & _ & Dbc & Sbc).
  destruct (bind_result ab c ltac:(congruence) ltac:(congruence))
    as (r & Er & Vr & Dr & Sr).
  destruct (bind_result a bc ltac:(congruence) Hpos)
    as (r' & Er' & Vr' & Dr' & Sr').
  exists ab, bc, r. repeat split; try assumption.
  rewrite Er'. f_equal. apply same_spectrum; try assumption; [congruence|].
  rewrite Sr, Sr', Sab, Sbc.
  unfold dim in *.
  apply (nth_ext _ _ C0 C0).
  - rewrite !length_zip_with, !length_spectrum. lia.
  - intros k Hk. rewrite !length_zip_with, !length_spectrum in Hk.
    rewrite !nth_zip
      by (rewrite ?length_zip_with, ?length_spectrum; lia).
    apply Cmul_assoc.
Qed.

Lemma bind_assoc_witness :
  exists ab bc r,
    bind (of_values [1; 2]) (of_values [3; 4]) = Ok ab /\
    bind (of_values [3; 4]) (of_values [5; 6]) = Ok bc /\
    bind ab (of_values [5; 6]) = Ok r /\
    bind (of_values [1; 2]) bc = Ok r.
Proof.
  apply (bind_assoc (of_values [1; 2]) (of_values [3; 4]) (of_values [5; 6]));
    simpl; try reflexivity; discriminate.
Defined.

Lemma bundle_result (b c : MySP.t R) :
  dim b = dim c ->
  bundle b c = Ok (of_values (zip_with Rplus (v b) (v c))).
Proof.
  intros Hd. unfold bundle, np_add. now rewrite broadcast_same.
Qed.

(** X10. Binding distributes over bundling: for three vectors of the same
    positive dimension, [a.bind(b.bundle(c))] is
    [a.bind(b).bundle(a.bind(c))]. *)
Theorem bind_bundle_distr (a b c : MySP.t R) :
  dim a = dim b -> dim b = dim c -> dim a <> O ->
  exists bc ab ac r,
    bundle b c = Ok bc /\ bind a b = Ok ab /\ bind a c = Ok ac /\
    bind a bc = Ok r /\ bundle ab ac = Ok r.
Proof.
  intros Hab Hbc Hpos.
  destruct (bind_result a b Hab Hpos) as (ab & Eab & _ & Dab & Sab).
  destruct (bind_result a c ltac:(congruence) Hpos)
    as (ac & Eac & _ & Dac & Sac).
  pose proof (bundle_result b c Hbc) as Ebc.
  set (bc := of_values (zip_with Rplus (v b) (v c))) in *.
  assert (Dbc : dim bc = dim a).
  { unfold bc, dim in *. simpl. rewrite length_zip_with. lia. }
  destruct (bind_result a bc ltac:(congruence) Hpos)
    as (r & Er & Vr & Dr & Sr).
  exists bc, ab, ac, r. repeat split; try assumption.
  rewrite bundle_result by congruence. f_equal.
  apply same_spectrum; try assumption; try reflexivity.
  - unfold dim in *. simpl. rewrite length_zip_with. lia.
  - simpl v. unfold dim in *.
    rewrite spectrum_add by congruence. rewrite Sr, Sab, Sac.
    unfold bc. simpl v. rewrite spectrum_add by assumption.
    apply (nth_ext _ _ C0 C0).
    + rewrite !length_zip_with, !length_spectrum. lia.
    + intros k Hk. rewrite !length_zip_with, !length_spectrum in Hk.
      rewrite !nth_zip
        by (rewrite ?length_zip_with, ?length_spectrum; lia).
      symmetry. apply Cmul_add_distr_l.
Qed.

Lemma bind_bundle_distr_witness :
  exists bc ab ac r,
    bundle (of_values [3; 4]) (of_values [5; 6]) = Ok bc /\
    bind (of_values [1; 2]) (of_values [3; 4]) = Ok ab /\
    bind (of_values [1; 2]) (of_values [5; 6]) = Ok ac /\
    bind (of_values [1; 2]) bc = Ok r /\ bundle ab ac = Ok r.
Proof.
  apply (bind_bundle_distr
           (of_values [1; 2]) (of_values [3; 4]) (of_values [5; 6]));
    simpl; try reflexivity; discriminate.
Defined.

(** X11. The array [1, 0, ..., 0] is the identity of binding: for a vector
    of positive dimension D, binding with it returns the values of the
    vector, and [v.power(0)] is that array, whatever [v]. *)
Theorem bind_identity (sp : MySP.t R) :
  dim sp <> O ->
  bind sp (of_values (delta (dim sp))) = Ok (of_values (v sp)) /\
  power sp 0 = Ok (of_values (delta (dim sp))).
Proof.
  intros Hpos. split.
  - destruct (bind_result sp (of_values (delta (dim sp))))
      as (s & Es & Vs & Ds & Ss);
      [unfold dim at 2; simpl; now rewrite length_delta | assumption |].
    rewrite Es, Vs. do 2 f_equal. apply spectrum_inj; [exact Ds|].
    rewrite Ss. simpl v. unfold dim in *.
    apply (nth_ext _ _ C0 C0).
    + rewrite !length_zip_with, !length_spectrum, length_delta. lia.
    + intros k Hk.
      rewrite !length_zip_with, !length_spectrum, length_delta in Hk.
      rewrite nth_zip by (rewrite ?length_spectrum, ?length_delta; lia).
      rewrite spectrum_delta by lia. apply Cmul_1_r.
  - unfold power. rewrite fft_values by (now apply dim_nonempty).
    cbv beta iota delta [rbind].
    assert (E : map (fun z => Cpow z 0) (spectrum (v sp)) =
                spectrum (delta (dim sp))).
    { apply (nth_ext _ _ C0 C0).
      - now rewrite length_map, !length_spectrum, length_delta.
      - intros k Hk. rewrite length_map, length_spectrum in Hk.
        rewrite (nth_map_C _ C0) by (now rewrite length_spectrum).
        rewrite spectrum_delta by exact Hk.
        unfold Cpow. destruct (Req_dec_T 0 0); [reflexivity | lra]. }
    rewrite E. unfold spectrum.
    rewrite ifft_dft.
    + cbv beta iota delta [rbind]. now rewrite real_complex.
    + apply complex_nonempty. intros E'.
      apply (f_equal (@length R)) in E'. rewrite length_delta in E'.
      simpl in E'. contradiction.
Qed.

Lemma bind_identity_witness :
  bind (of_values [1; 2; 3]) (of_values (delta 3)) = Ok (of_values [1; 2; 3]) /\
  power (of_values [1; 2; 3]) 0 = Ok (of_values (delta 3)).
Proof.
  apply (bind_identity (of_values [1; 2; 3])). simpl. discriminate.
Defined.

(** X12. For [w] without a zero Fourier coefficient and [v] of the same
    positive dimension, unbinding and binding again returns [v]:
    [v.unbind(w).bind(w)] has the values of [v]; and [w.unbind(w)] is the
    identity [1, 0, ..., 0]. *)
Theorem unbind_bind (sp w : MySP.t R) :
  dim sp = dim w -> dim sp <> O ->
  (forall n, (n < dim w)%nat -> nth n (spectrum (v w)) C0 <> C0) ->
  (exists q, unbind sp w = Ok q /\ bind q w = Ok (of_values (v sp))) /\
  unbind w w = Ok (of_values (delta (dim w))).
Proof.
  intros Hd Hpos Hw. split.
  - destruct (unbind_result sp w Hd Hpos) as (q & Eq & _ & Dq & Sq).
    destruct (bind_result q w ltac:(congruence) ltac:(congruence))
      as (s & Es & Vs & Ds & Ss).
    exists q. split; [exact Eq|]. rewrite Es, Vs. do 2 f_equal.
    apply spectrum_inj; [unfold dim in *; congruence|].
    rewrite Ss, Sq. unfold dim in *.
    apply (nth_ext _ _ C0 C0).
    + rewrite !length_zip_with, !length_spectrum. lia.
    + intros k Hk. rewrite !length_zip_with, !length_spectrum in Hk.
      rewrite !nth_zip
        by (rewrite ?length_zip_with, ?length_spectrum; lia).
      apply Cdiv_mul_back, Hw. lia.
  - destruct (unbind_result w w eq_refl ltac:(congruence))
      as (s & Es & Vs & Ds & Ss).
    rewrite Es, Vs. do 2 f_equal. rewrite <- Ds.
    apply spectrum_ones.
    + apply dim_nonempty. congruence.
    + intros k Hk. fold (dim s) in Hk. rewrite Ss.
      rewrite nth_zip by (rewrite ?length_spectrum; unfold dim in *; lia).
      apply Cdiv_self, Hw. unfold dim in *. lia.
Qed.

Lemma unbind_bind_witness :
  (exists q, unbind (of_values [5]) (of_values [2]) = Ok q /\
             bind q (of_values [2]) = Ok (of_values [5])) /\
  unbind (of_values [2]) (of_values [2]) = Ok (of_values (delta 1)).
Proof.
  apply (unbind_bind (of_values [5]) (of_values [2])).
  - reflexivity.
  - simpl. discriminate.
  - intros n Hn. unfold dim in Hn. simpl in Hn.
    assert (n = 0%nat) as -> by lia.
    simpl v. rewrite SmallVectors.spectrum_single. simpl nth.
    intros E. apply (f_equal Re) in E. unfold RtoC, C0, Re in E.
    simpl in E. lra.
Defined.

(** X13. Binding two unitary vectors of the same positive dimension gives
    a unitary vector. *)
Theorem bind_unitary (sp y : MySP.t R) :
  dim sp = dim y -> dim sp <> O -> is_unitary sp -> is_unitary y ->
  exists s, bind sp y = Ok s /\ is_unitary s.
Proof.
  intros Hd Hpos Hu Hy.
  destruct (bind_result sp y Hd Hpos) as (s & Es & _ & Ds & Ss).
  exists s. split; [exact Es|]. intros n Hn.
  rewrite Ss, nth_zip
    by (rewrite ?length_spectrum; unfold dim in *; lia).
  rewrite Cmod_mul, Hu, Hy by lia. ring.
Qed.

Lemma bind_unitary_witness :
  exists s, bind (of_values [0; 1; 0]) (of_values [0; 1; 0]) = Ok s /\
            is_unitary s.
Proof.
  apply (bind_unitary (of_values [0; 1; 0]) (of_values [0; 1; 0])).
  - reflexivity.
  - simpl. discriminate.
  - apply SmallVectors.unitary_010.
  - apply SmallVectors.unitary_010.
Defined.

(** X14. Fractional binding adds exponents: for a unitary vector [v] with
    no Fourier coefficient on the negative real axis,
    [v.power(p).bind(v.power(q))] is [v.power(p + q)]. *)
Theorem power_add (sp : MySP.t R) (p q : R) :
  dim sp <> O -> is_unitary sp ->
  (forall n, (n < dim sp)%nat -> angle (nth n (spectrum (v sp)) C0) <> PI) ->
  exists a b,
    power sp p = Ok a /\ power sp q = Ok b /\
    bind a b = power sp (p + q) /\
    exists c, power sp (p + q) = Ok c.
Proof.
  intros Hpos Hu Hpi.
  destruct (power_spectrum sp p Hpos Hu Hpi) as (a & Ea & Da & Sa).
  destruct (power_spectrum sp q Hpos Hu Hpi) as (b & Eb & Db & Sb).
  destruct (power_spectrum sp (p + q) Hpos Hu Hpi) as (c & Ec & Dc & Sc).
  destruct (bind_result a b ltac:(congruence) ltac:(congruence))
    as (s & Es & Vs & Ds & Ss).
  exists a, b. repeat split; try assumption; [|now exists c].
  rewrite Es, Ec. f_equal.
  assert (Vc : c = of_values (v c)).
  { unfold power in Ec. rewrite fft_values in Ec by (now apply dim_nonempty).
    cbv beta iota delta [rbind] in Ec.
    destruct (ifft _) in Ec; [|discriminate].
    cbv beta iota delta [rbind] in Ec. apply Ok_inj in Ec. now subst c. }
  apply same_spectrum; try assumption; [congruence|].
  rewrite Ss, Sa, Sb, Sc. unfold dim in *.
  apply (nth_ext _ _ C0 C0).
  - rewrite !length_zip_with, !length_map, !length_spectrum. lia.
  - intros k Hk. rewrite !length_zip_with, !length_map, !length_spectrum in Hk.
    rewrite nth_zip by (rewrite ?length_map, ?length_spectrum; lia).
    rewrite !(nth_map_C _ C0) by (rewrite length_spectrum; lia).
    rewrite <- cis_add. f_equal. ring.
Qed.

Lemma power_add_witness :
  exists a b,
    power (of_values [0; 1; 0]) (1 / 2) = Ok a /\
    power (of_values [0; 1; 0]) 3 = Ok b /\
    bind a b = power (of_values [0; 1; 0]) (1 / 2 + 3) /\
    exists c, power (of_values [0; 1; 0]) (1 / 2 + 3) = Ok c.
Proof.
  apply (power_add (of_values [0; 1; 0]) (1 / 2) 3).
  - simpl. discriminate.
  - apply SmallVectors.unitary_010.
  - intros n Hn. apply (SmallVectors.angles_010 n Hn).
Defined.

Lemma Cdiv_add_distr z w u : Cdiv (Cadd z w) u = Cadd (Cdiv z u) (Cdiv w u).
Proof.
  apply C_eq; unfold Cdiv, Cadd, Re, Im; simpl; unfold Rdiv; ring.
Qed.

(** X28. Unbinding takes a bound component out of a bundle: for [a], [b],
    [c] of the same positive dimension, [b] without a zero Fourier
    coefficient, [a.bind(b).bundle(c).unbind(b)] is
    [a.bundle(c.unbind(b))]: the component [a], and what unbinding makes of
    the rest. *)
Theorem unbind_bundle (a b c : MySP.t R) :
  dim a = dim b -> dim b = dim c -> dim a <> O ->
  (forall n, (n < dim b)%nat -> nth n (spectrum (v b)) C0 <> C0) ->
  exists ab x cb r,
    bind a b = Ok ab /\ bundle ab c = Ok x /\ unbind c b = Ok cb /\
    unbind x b = Ok r /\ bundle a cb = Ok r.
Proof.
  intros Hab Hbc Hpos Hb.
  destruct (bind_result a b Hab Hpos) as (ab & Eab & _ & Dab & Sab).
  destruct (unbind_result c b ltac:(congruence) ltac:(congruence))
    as (cb & Ecb & _ & Dcb & Scb).
  pose proof (bundle_result ab c ltac:(congruence)) as Ex.
  set (x := of_values (zip_with Rplus (v ab) (v c))) in *.
  assert (Dx : dim x = dim a).
  { unfold x, dim in *. simpl. rewrite length_zip_with. lia. }
  destruct (unbind_result x b ltac:(congruence) ltac:(congruence))
    as (r & Er & Vr & Dr & Sr).
  exists ab, x, cb, r. repeat split; try assumption.
  rewrite bundle_result by congruence. f_equal.
  apply same_spectrum; try assumption; try reflexivity.
  - unfold dim in *. simpl. rewrite length_zip_with. lia.
  - simpl v. unfold dim in *.
    rewrite spectrum_add by congruence. rewrite Sr, Scb.
    unfold x. simpl v. rewrite spectrum_add by congruence. rewrite Sab.
    apply (nth_ext _ _ C0 C0).
    + rewrite !length_zip_with, !length_spectrum. lia.
    + intros k Hk. rewrite !length_zip_with, !length_spectrum in Hk.
      rewrite !nth_zip
        by (rewrite ?length_zip_with, ?length_spectrum; lia).
      rewrite Cdiv_add_distr. f_equal.
      symmetry. apply Cdiv_mul_cancel. apply Hb. lia.
Qed.

Lemma unbind_bundle_witness :
  exists ab x cb r,
    bind (of_values [1; 2; 3]) (of_values [0; 1; 0]) = Ok ab /\
    bundle ab (of_values [4; 5; 6]) = Ok x /\
    unbind (of_values [4; 5; 6]) (of_values [0; 1; 0]) = Ok cb /\
    unbind x (of_values [0; 1; 0]) = Ok r /\
    bundle (of_values [1; 2; 3]) cb = Ok r.
Proof.
  apply (unbind_bundle (of_values [1; 2; 3]) (of_values [0; 1; 0])
                       (of_values [4; 5; 6])).
  - reflexivity.
  - reflexivity.
  - simpl. discriminate.
  - intros n Hn E. apply Cmod_0_iff in E.
    rewrite SmallVectors.unitary_010 in E by exact Hn. lra.
Defined.

End BindLaws.

(** * The polar form, and what it gives for [power] and [unitary] *)

Module PolarFacts.
Import Py Cx CxFacts Fourier FourierFacts AngleFacts MySP MySPFacts
       SpectrumFacts Convolution BindFacts.
Local Open Scope R_scope.

Lemma Rpower_1_exp x : 0 < x -> Rpower x 1 = x.
Proof. intros Hx. now apply Rpower_1. Qed.

Lemma Cmod_nonneg z : 0 <= Cmod z.
Proof. unfold Cmod. apply sqrt_pos. Qed.

(** [z ** 1] is [z]. *)
Lemma Cpow_1 z : Cpow z 1 = z.
Proof.
  unfold Cpow. destruct (Req_dec_T 1 0) as [E | _]; [lra|].
  destruct (Req_dec_T (Cmod z) 0) as [E | Hn].
  - symmetry. now apply Cmod_0_iff.
  - pose proof (Cmod_nonneg z).
    rewrite Rpower_1_exp by lra. rewrite Rmult_1_l. apply polar.
    intros E. apply Hn. now apply Cmod_0_iff.
Qed.

Lemma rebuild_same (g : C -> C) (sp : MySP.t R) :
  dim sp <> O ->
  (forall k, (k < dim sp)%nat ->
             g (nth k (spectrum (v sp)) C0) = nth k (spectrum (v sp)) C0) ->
  (y <- ifft (map g (spectrum (v sp))) ;; Ok (of_values (real y))) =
  Ok (of_values (v sp)).
Proof.
  intros Hpos Hg.
  assert (E : map g (spectrum (v sp)) = spectrum (v sp)).
  { apply (nth_ext _ _ C0 C0); [now rewrite length_map|].
    intros k Hk. rewrite length_map, length_spectrum in Hk.
    rewrite (nth_map_C _ C0) by (now rewrite length_spectrum).
    now apply Hg. }
  rewrite E. unfold spectrum.
  rewrite ifft_dft by (apply complex_nonempty; now apply dim_nonempty).
  cbv beta iota delta [rbind]. now rewrite real_complex.
Qed.

(** X15. The first power of any vector of positive dimension is the vector
    itself: [v.power(1)] has the values of [v]. *)
Theorem power_one (sp : MySP.t R) :
  dim sp <> O -> power sp 1 = Ok (of_values (v sp)).
Proof.
  intros Hpos. unfold power.
  rewrite fft_values by (now apply dim_nonempty).
  cbv beta iota delta [rbind].
  apply (rebuild_same (fun z => Cpow z 1) sp Hpos).
  intros k _. apply Cpow_1.
Qed.

Lemma power_one_witness :
  power (of_values [1; 2; 3]) 1 = Ok (of_values [1; 2; 3]).
Proof.
  apply (power_one (of_values [1; 2; 3])). simpl. discriminate.
Defined.

Lemma unitary_fixed (sp : MySP.t R) :
  dim sp <> O -> is_unitary sp -> unitary sp = Ok (of_values (v sp)).
Proof.
  intros Hpos Hu. unfold unitary.
  rewrite fft_values by (now apply dim_nonempty).
  cbv beta iota delta [rbind].
  rewrite phasors_cis, map_map.
  apply (rebuild_same (fun z => cis (angle z)) sp Hpos).
  intros k Hk. apply cis_angle_unit. now apply Hu.
Qed.

(** X16. [unitary()] changes nothing twice: the result [u] of
    [v.unitary()] is unitary, and [u.unitary()] is [u] again; more
    generally [unitary()] returns the values of every unitary vector
    unchanged. *)
Theorem unitary_idempotent (sp u : MySP.t R) :
  unitary sp = Ok u ->
  is_unitary u /\ unitary u = Ok u /\
  forall w, dim w <> O -> is_unitary w -> unitary w = Ok (of_values (v w)).
Proof.
  intros Hu.
  assert (Hpos : dim sp <> O).
  { intros E. unfold unitary, dim in *.
    destruct (v sp); [discriminate | simpl in E; lia]. }
  destruct (unitary_result sp Hpos) as (u' & Hu' & Hdim & Hs).
  assert (Eu : u' = u) by (rewrite Hu in Hu'; now apply Ok_inj in Hu').
  subst u'.
  assert (Hunit : is_unitary u) by (now apply (unitary_is_unitary sp)).
  assert (Vu : u = of_values (v u)).
  { unfold unitary in Hu.
    rewrite fft_values in Hu by (now apply dim_nonempty).
    cbv beta iota delta [rbind] in Hu.
    destruct (ifft _) in Hu; [|discriminate].
    cbv beta iota delta [rbind] in Hu. apply Ok_inj in Hu. now subst u. }
  split; [exact Hunit|]. split.
  - rewrite Vu at 2. apply unitary_fixed; [congruence | exact Hunit].
  - intros w. apply unitary_fixed.
Qed.

Lemma unitary_idempotent_witness :
  exists u, unitary (of_values [1; 2; 3]) = Ok u /\ unitary u = Ok u.
Proof.
  destruct (unitary_result (of_values [1; 2; 3])) as (u & Hu & _);
    [simpl; discriminate|].
  exists u. split; [exact Hu|].
  exact (proj1 (proj2 (unitary_idempotent (of_values [1; 2; 3]) u Hu))).
Defined.

(** ** Scaling *)

Lemma angle_scale (s : R) z : 0 < s -> angle (Cmul (RtoC s) z) = angle z.
Proof.
  intros Hs. destruct z as [x y].
  unfold angle, arctan2, Cmul, RtoC, Re, Im. simpl fst. simpl snd.
  replace (s * x - 0 * y) with (s * x) by ring.
  replace (s * y + 0 * x) with (s * y) by ring.
  assert (Hq : x <> 0 -> s * y / (s * x) = y / x) by (intros; field; lra).
  destruct (Rlt_dec 0 x) as [Hx | Hx].
  - destruct (Rlt_dec 0 (s * x)) as [_ | Hn]; [|exfalso; nra].
    now rewrite Hq by lra.
  - destruct (Rlt_dec 0 (s * x)) as [Hn | _]; [exfalso; nra|].
    destruct (Rlt_dec x 0) as [Hx' | Hx'].
    + destruct (Rlt_dec (s * x) 0) as [_ | Hn]; [|exfalso; nra].
      rewrite Hq by lra.
      destruct (Rle_dec 0 y) as [Hy | Hy].
      * destruct (Rle_dec 0 (s * y)) as [_ | Hn]; [reflexivity|exfalso; nra].
      * destruct (Rle_dec 0 (s * y)) as [Hn | _]; [exfalso; nra|reflexivity].
    + destruct (Rlt_dec (s * x) 0) as [Hn | _]; [exfalso; nra|].
      destruct (Rlt_dec 0 y) as [Hy | Hy].
      * destruct (Rlt_dec 0 (s * y)) as [_ | Hn]; [reflexivity|exfalso; nra].
      * destruct (Rlt_dec 0 (s * y)) as [Hn | _]; [exfalso; nra|].
        destruct (Rlt_dec y 0) as [Hy' | Hy'].
        -- destruct (Rlt_dec (s * y) 0) as [_ | Hn]; [reflexivity|exfalso; nra].
        -- destruct (Rlt_dec (s * y) 0) as [Hn | _]; [exfalso; nra|reflexivity].
Qed.

Lemma spectrum_scale (u : list R) (s : R) :
  spectrum (np_scale u s) = map (Cmul (RtoC s)) (spectrum u).
Proof.
  assert (E : complex (np_scale u s) = map (Cmul (RtoC s)) (complex u)).
  { unfold complex, np_scale. rewrite !map_map. apply map_ext. intros x.
    simpl. rewrite RtoC_mul. apply Cmul_comm. }
  unfold spectrum. rewrite E.
  apply (nth_ext _ _ C0 C0).
  - now rewrite length_map, !length_dft, length_map.
  - intros k Hk. rewrite length_dft, length_map in Hk.
    rewrite dft_scale by assumption.
    now rewrite (nth_map_C _ C0) by (now rewrite length_dft).
Qed.

(** X17. [unitary()] does not see a positive factor: for [s > 0],
    [(v * s).unitary()] is [v.unitary()], values and errors alike. *)
Theorem unitary_scale (sp : MySP.t R) (s : R) :
  0 < s -> unitary (scale sp s) = unitary sp.
Proof.
  intros Hs. unfold unitary, scale. simpl v.
  destruct (v sp) as [|x u] eqn:Ev; [reflexivity|].
  assert (Hn : np_scale (x :: u) s <> []) by discriminate.
  rewrite !fft_values by (assumption || discriminate).
  cbv beta iota delta [rbind].
  rewrite spectrum_scale, !map_map.
  replace (map (fun z => angle (Cmul (RtoC s) z)) (spectrum (x :: u)))
    with (map angle (spectrum (x :: u))); [reflexivity|].
  apply map_ext. intros z. symmetry. now apply angle_scale.
Qed.

Lemma unitary_scale_witness :
  unitary (scale (of_values [1; 2; 3]) 5) = unitary (of_values [1; 2; 3]).
Proof. apply (unitary_scale (of_values [1; 2; 3]) 5). lra. Defined.

End PolarFacts.

(** * Similarity and the Fourier domain *)

Module SimilarityFacts.
Import Py Cx CxFacts Fourier FourierFacts AngleFacts MySP MySPFacts
       SpectrumFacts Convolution BindFacts BindLaws.
Local Open Scope R_scope.

Lemma Rsum_ext f g n :
  (forall k, (k < n)%nat -> f k = g k) -> Rsum f n = Rsum g n.
Proof.
  intros H. induction n as [|n IH]; simpl; [reflexivity|].
  rewrite IH by (intros; apply H; lia). now rewrite H by lia.
Qed.

Lemma Rsum_shift f n : Rsum f (S n) = f O + Rsum (fun k => f (S k)) n.
Proof.
  induction n as [|n IH]; [simpl; ring|].
  change (Rsum f (S (S n))) with (Rsum f (S n) + f (S n)).
  rewrite IH. simpl. ring.
Qed.

(** [np.dot] accumulates the sum of the products. *)
Lemma fold_sum_prod (a b : list R) (acc : R) :
  length a = length b ->
  fold_left (fun acc p => sadd acc (smul (fst p) (snd p))) (combine a b) acc =
  acc + Rsum (fun n => nth n a 0 * nth n b 0) (length a).
Proof.
  revert b acc. induction a as [|x a IH]; intros [|y b] acc Hl;
    simpl in Hl; try lia.
  - simpl. ring.
  - simpl combine. simpl fold_left. rewrite IH by lia.
    simpl length. rewrite Rsum_shift. simpl. ring.
Qed.

Lemma sum_prod_Rsum (a b : list R) :
  length a = length b ->
  sum_prod a b = Rsum (fun n => nth n a 0 * nth n b 0) (length a).
Proof.
  intros Hl. unfold sum_prod. rewrite fold_sum_prod by assumption.
  simpl. ring.
Qed.

Lemma conj_spectrum (a : list R) k :
  (k < length a)%nat ->
  Cconj (nth k (spectrum a) C0) =
  Csum (fun n => Cmul (RtoC (nth n a 0))
                      (cis (1 * (2 * PI * INR (k * n) / INR (length a)))))
       (length a).
Proof.
  intros Hk. rewrite nth_spectrum, Csum_conj by assumption.
  apply Csum_ext. intros n Hn.
  rewrite Cconj_mul, Cconj_RtoC, <- cis_opp. do 2 f_equal.
  rewrite (Nat.mul_comm n k). ring.
Qed.

(** Plancherel's identity for two real arrays of the same length. *)
Lemma plancherel (a b : list R) :
  length a = length b ->
  Cmul (RtoC (INR (length a))) (RtoC (sum_prod a b)) =
  Csum (fun k => Cmul (nth k (spectrum b) C0) (Cconj (nth k (spectrum a) C0)))
       (length a).
Proof.
  intros Hl. set (D := length a) in *.
  rewrite sum_prod_Rsum by assumption. fold D.
  rewrite RtoC_Rsum, <- Csum_mul_l.
  transitivity
    (Csum (fun n => Csum (fun k =>
       Cmul (nth k (spectrum b) C0)
            (Cmul (RtoC (nth n a 0))
                  (cis (1 * (2 * PI * INR (k * n) / INR D))))) D) D).
  - apply Csum_ext. intros n Hn.
    rewrite RtoC_mul.
    transitivity (Cmul (RtoC (nth n a 0))
                       (Cmul (RtoC (INR D)) (RtoC (nth n b 0)))); [cx_ring|].
    assert (Hb : Cmul (RtoC (INR D)) (RtoC (nth n b 0)) =
                 nth n (dft 1 (dft (- 1) (complex b))) C0).
    { rewrite dft_dft by (rewrite ?length_complex; auto; lia).
      rewrite length_complex, <- Hl. fold D. f_equal.
      unfold complex. now rewrite (nth_map_C RtoC 0) by lia. }
    rewrite Hb, nth_dft by (rewrite length_dft, length_complex; lia).
    rewrite length_dft, length_complex, <- Hl. fold D.
    rewrite <- Csum_mul_l. apply Csum_ext. intros k Hk.
    fold (spectrum b). cx_ring.
  - rewrite Csum_swap. apply Csum_ext. intros k Hk.
    rewrite Csum_mul_l. f_equal. symmetry. now apply conj_spectrum.
Qed.

Lemma Cmul_conj_unit z : Cmod z = 1 -> Cmul z (Cconj z) = C1.
Proof.
  intros Hz. unfold Cmod in Hz.
  assert (E : Re z * Re z + Im z * Im z = 1).
  { rewrite <- (sqrt_sqrt (Re z * Re z + Im z * Im z)) by nra.
    rewrite Hz. ring. }
  apply C_eq; unfold Cmul, Cconj, C1, Re, Im in *; simpl; lra.
Qed.

Lemma RtoC_inj x y : RtoC x = RtoC y -> x = y.
Proof. intros E. now apply (f_equal Re) in E. Qed.

Lemma scaled_eq (D : nat) (x y : R) :
  (0 < D)%nat ->
  Cmul (RtoC (INR D)) (RtoC x) = Cmul (RtoC (INR D)) (RtoC y) -> x = y.
Proof.
  intros HD E. rewrite <- !RtoC_mul in E. apply RtoC_inj in E.
  apply lt_0_INR in HD. nra.
Qed.

(** X18. Every unitary vector of positive dimension has similarity 1 to
    itself (Parseval). *)
Theorem similarity_unitary (sp : MySP.t R) :
  dim sp <> O -> is_unitary sp -> similarity sp sp = Ok 1.
Proof.
  intros Hpos Hu. unfold similarity, dot. rewrite Nat.eqb_refl. f_equal.
  apply (scaled_eq (dim sp)); [lia|]. unfold dim in *.
  rewrite plancherel by reflexivity.
  rewrite (Csum_ext _ (fun _ => C1)).
  - rewrite Csum_const. reflexivity.
  - intros k Hk. apply Cmul_conj_unit. now apply Hu.
Qed.

Lemma similarity_unitary_witness :
  similarity (of_values [0; 1; 0]) (of_values [0; 1; 0]) = Ok 1.
Proof.
  apply (similarity_unitary (of_values [0; 1; 0])).
  - simpl. discriminate.
  - apply SmallVectors.unitary_010.
Defined.

(** X19. Binding with a unitary vector keeps similarities: for [a], [b] and
    a unitary [w] of the same positive dimension, the similarity of
    [a.bind(w)] and [b.bind(w)] is that of [a] and [b]. *)
Theorem similarity_bind_unitary (a b w : MySP.t R) :
  dim a = dim b -> dim a = dim w -> dim a <> O -> is_unitary w ->
  exists aw bw,
    bind a w = Ok aw /\ bind b w = Ok bw /\
    similarity aw bw = similarity a b /\
    exists d, similarity a b = Ok d.
Proof.
  intros Hab Haw Hpos Hw.
  destruct (bind_result a w Haw Hpos) as (aw & Ea & _ & Da & Sa).
  destruct (bind_result b w ltac:(congruence) ltac:(congruence))
    as (bw & Eb & _ & Db & Sb).
  exists aw, bw. split; [exact Ea|]. split; [exact Eb|].
  unfold similarity, dot. unfold dim in *.
  assert (E1 : (length (v aw) =? length (v bw))%nat = true)
    by (apply Nat.eqb_eq; congruence).
  assert (E2 : (length (v a) =? length (v b))%nat = true)
    by (now apply Nat.eqb_eq).
  rewrite E1, E2. split; [|eexists; reflexivity]. f_equal.
  apply (scaled_eq (length (v a))); [lia|].
  rewrite <- Da at 1. rewrite !plancherel by congruence.
  rewrite Da, Sa, Sb. apply Csum_ext. intros k Hk.
  rewrite !nth_zip by (rewrite ?length_spectrum; lia).
  rewrite Cconj_mul.
  transitivity (Cmul (Cmul (nth k (spectrum (v b)) C0)
                           (Cconj (nth k (spectrum (v a)) C0)))
                     (Cmul (nth k (spectrum (v w)) C0)
                           (Cconj (nth k (spectrum (v w)) C0)))); [cx_ring|].
  rewrite Cmul_conj_unit by (apply Hw; unfold dim; lia). apply Cmul_1_r.
Qed.

Lemma similarity_bind_unitary_witness :
  exists aw bw,
    bind (of_values [1; 2; 3]) (of_values [0; 1; 0]) = Ok aw /\
    bind (of_values [4; 5; 6]) (of_values [0; 1; 0]) = Ok bw /\
    similarity aw bw = similarity (of_values [1; 2; 3]) (of_values [4; 5; 6]).
Proof.
  destruct (similarity_bind_unitary
              (of_values [1; 2; 3]) (of_values [4; 5; 6]) (of_values [0; 1; 0])
              eq_refl eq_refl ltac:(simpl; discriminate)
              SmallVectors.unitary_010) as (aw & bw & Ha & Hb & Hs & _).
  exists aw, bw. exact (conj Ha (conj Hb Hs)).
Defined.

End SimilarityFacts.

(** * Random construction, and the phase differences it leads to *)

Module PhaseFacts.
Import Py Cx CxFacts Fourier FourierFacts AngleFacts MySP MySPFacts
       SpectrumFacts PowerFacts PhaseDifferences.
Local Open Scope R_scope.

Lemma length_samples (D : nat) (draw : nat -> R) :
  length (scaled_samples 2 draw D) = D.
Proof. unfold scaled_samples, np_scale. now rewrite !length_map, length_seq. Qed.

(** What random construction stores: phases whose unit phasors are the
    Fourier coefficients of the values. *)
Lemma init_spectrum (D : nat) (draw : nat -> R) (sp : MySP.t R) :
  init D draw = Ok sp ->
  exists phase,
    a sp = Some phase /\ MySP.D sp = D /\ length phase = D /\ dim sp = D /\
    (3 <= D)%nat /\ spectrum (v sp) = map cis phase.
Proof.
  unfold init. intros Hinit.
  apply rbind_ok in Hinit as (phase & Hsym & Hinit).
  apply rbind_ok in Hinit as (y & Hy & Hinit).
  apply Ok_inj in Hinit. subst sp. simpl.
  pose proof (length_samples D draw) as Hlen0.
  destruct (symmetrize_spec _ _ Hsym) as (HD & Hlen & H0 & Hk & Hmid).
  rewrite Hlen0 in *. simpl in H0, Hk, Hmid.
  assert (Hcs : conj_sym (map cis phase)).
  { apply conj_sym_phasors; rewrite ?Hlen; auto.
    intros k Hk1 Hk2. now apply Hk. }
  rewrite phasors_cis in Hy.
  destruct (spectrum_real_ifft _ _ Hcs Hy) as (_ & Hspec & Hl).
  exists phase. repeat split; auto.
  unfold dim; simpl. now rewrite Hl, length_map.
Qed.

(** X20. Random construction [MySP(D)] needs three values: it raises
    [IndexError] for D = 0 and [ValueError] for D = 1 and D = 2, whatever
    the samples; from D = 3 on it succeeds, and the object has the
    attribute [D], [D] values and [D] stored phases. *)
Theorem init_dimension (D : nat) (draw : nat -> R) :
  (D = 0%nat -> init D draw = Raise IndexError) /\
  (D = 1%nat \/ D = 2%nat -> init D draw = Raise ValueError) /\
  ((3 <= D)%nat ->
   exists sp phase,
     init D draw = Ok sp /\ MySP.D sp = D /\ dim sp = D /\
     a sp = Some phase /\ length phase = D).
Proof.
  split; [|split].
  - intros ->. reflexivity.
  - intros [-> | ->]; reflexivity.
  - intros HD. destruct (init_accepts D draw HD) as [sp Hsp].
    destruct (init_spectrum D draw sp Hsp)
      as (phase & Ha & HDs & Hl & Hd & _ & _).
    now exists sp, phase.
Qed.

(** ** The vocabulary *)

Lemma for_each_ok {X Y} (f : X -> result Y) (P : Y -> Prop) (l : list X) :
  (forall x, In x l -> exists y, f x = Ok y /\ P y) ->
  exists ys, for_each f l = Ok ys /\ length ys = length l /\ Forall P ys.
Proof.
  induction l as [|x l IH]; intros Hf.
  - exists []. repeat split; constructor.
  - destruct (Hf x (or_introl eq_refl)) as (y & Hy & HP).
    destruct IH as (ys & Hys & Hl & Hall); [intros; apply Hf; now right|].
    exists (y :: ys). simpl. rewrite Hy. cbv beta iota delta [rbind].
    rewrite Hys. cbv beta iota delta [rbind].
    repeat split; [simpl; now rewrite Hl | now constructor].
Qed.

Lemma for_each_raises {X Y} (f : X -> result Y) (e : exn) (l : list X) :
  l <> [] -> (forall x, f x = Raise e) -> for_each f l = Raise e.
Proof.
  intros Hl Hf. destruct l as [|x l]; [congruence|].
  simpl. now rewrite Hf.
Qed.

(** X21. [HRR(N, D)] with D >= 3 builds a vocabulary of [N] unitary vectors
    of dimension [D]; with N >= 1 and D < 3 the construction of the first
    member raises, [IndexError] for D = 0 and [ValueError] for D = 1, 2. *)
Theorem vocabulary_init (N D : nat) (draws : nat -> nat -> R) :
  ((3 <= D)%nat ->
   exists h,
     Vocabulary.init N D draws = Ok h /\
     Vocabulary.N h = N /\ Vocabulary.D h = D /\
     length (Vocabulary.vocab h) = N /\
     Forall (fun s => dim s = D /\ MySP.D s = D /\ is_unitary s)
            (Vocabulary.vocab h)) /\
  ((1 <= N)%nat -> D = 0%nat ->
   Vocabulary.init N D draws = Raise IndexError) /\
  ((1 <= N)%nat -> D = 1%nat \/ D = 2%nat ->
   Vocabulary.init N D draws = Raise ValueError).
Proof.
  assert (Hne : (1 <= N)%nat -> range 0 N <> []).
  { intros HN E. apply (f_equal (@length nat)) in E.
    unfold range in E. rewrite length_seq in E. simpl in E. lia. }
  split; [|split].
  - intros HD. unfold Vocabulary.init.
    destruct (for_each_ok (fun k => init D (draws k))
                (fun s => dim s = D /\ MySP.D s = D /\ is_unitary s)
                (range 0 N)) as (ys & Hys & Hl & Hall).
    { intros k _. destruct (init_accepts D (draws k) HD) as [sp Hsp].
      exists sp. split; [exact Hsp|].
      destruct (init_spectrum D (draws k) sp Hsp)
        as (phase & _ & HDs & Hlp & Hd & _ & Hs).
      repeat split; auto.
      intros n Hn. rewrite Hs, (nth_map_C cis 0) by lia. apply Cmod_cis. }
    rewrite Hys. cbv beta iota delta [rbind].
    eexists. split; [reflexivity|]. simpl.
    unfold range in Hl. rewrite length_seq in Hl.
    repeat split; auto; lia.
  - intros HN ->. unfold Vocabulary.init.
    rewrite (for_each_raises _ IndexError); auto.
  - intros HN HD. unfold Vocabulary.init.
    rewrite (for_each_raises _ ValueError); auto.
    intros k. destruct HD as [-> | ->]; reflexivity.
Qed.

(** ** Phase differences *)

Lemma index_nat {X} (l : list X) (d : X) (i : nat) :
  (i < length l)%nat -> index l (Z.of_nat i) = Ok (nth i l d).
Proof.
  intros Hi. unfold index.
  assert (E : (Z.of_nat i <? 0)%Z = false) by (apply Z.ltb_ge; lia).
  rewrite !E, Nat2Z.id.
  destruct (nth_error l i) as [x|] eqn:Hx.
  - f_equal. symmetry. now apply nth_error_nth.
  - apply nth_error_None in Hx. lia.
Qed.

Lemma for_each_map {X Y} (f : X -> result Y) (g : X -> Y) (l : list X) :
  (forall x, In x l -> f x = Ok (g x)) -> for_each f l = Ok (map g l).
Proof.
  induction l as [|x l IH]; intros Hf; [reflexivity|].
  simpl. rewrite Hf by (now left). cbv beta iota delta [rbind].
  rewrite IH by (intros; apply Hf; now right). reflexivity.
Qed.

(** X22. The relation the decoder inverts.  Let [sp] be randomly
    constructed with every stored phase strictly between -pi and pi, and
    let every coupling [(j, k)] join two positions of the vector with
    [-pi < (a[j] - a[k]) * x <= pi].  Then the phase differences observed on
    [sp.power(x)] are exactly [DeltaA * x]. *)
Theorem phase_differences_linear
        (D : nat) (draw : nat -> R) (sp : MySP.t R) (phase : list R)
        (x : R) (cs : list (nat * nat)) :
  init D draw = Ok sp -> a sp = Some phase ->
  (forall k, (k < D)%nat -> - PI < nth k phase 0 < PI) ->
  (forall j k, In (j, k) cs ->
               (j < D)%nat /\ (k < D)%nat /\
               - PI < (nth j phase 0 - nth k phase 0) * x <= PI) ->
  exists dA,
    DeltaA phase cs = Ok dA /\
    observe sp x cs = Ok (map (fun d => d * x) dA).
Proof.
  intros Hinit Ha Hrange Hcs.
  destruct (init_spectrum D draw sp Hinit)
    as (phase' & Ha' & _ & Hlen & Hdim & HD & Hspec).
  assert (phase' = phase) as -> by congruence.
  assert (Hpos : dim sp <> O) by lia.
  assert (Hu : is_unitary sp).
  { intros n Hn. rewrite Hspec, (nth_map_C cis 0) by lia. apply Cmod_cis. }
  assert (Hang : forall n, (n < dim sp)%nat ->
                           angle (nth n (spectrum (v sp)) C0) = nth n phase 0).
  { intros n Hn. rewrite Hspec, (nth_map_C cis 0) by lia.
    apply angle_cis. specialize (Hrange n ltac:(lia)). lra. }
  destruct (power_spectrum sp x Hpos Hu) as (spx & Hpow & Hdx & Hsx).
  { intros n Hn. rewrite Hang by assumption.
    specialize (Hrange n ltac:(lia)). lra. }
  assert (HV : spectrum (v spx) = map (fun t => cis (x * t)) phase).
  { rewrite Hsx, Hspec, map_map. apply map_ext_in. intros t Ht.
    apply (In_nth _ _ 0) in Ht as (n & Hn & <-).
    rewrite angle_cis; [reflexivity|].
    specialize (Hrange n ltac:(lia)). lra. }
  exists (map (fun c => nth (fst c) phase 0 - nth (snd c) phase 0) cs).
  split.
  - apply for_each_map. intros [j k] Hin.
    destruct (Hcs j k Hin) as (Hj & Hk & _). simpl fst. simpl snd.
    rewrite !(index_nat _ 0) by lia. reflexivity.
  - unfold observe. rewrite Hpow. cbv beta iota delta [rbind].
    rewrite fft_values by (apply dim_nonempty; lia).
    cbv beta iota delta [rbind]. rewrite HV, map_map.
    apply for_each_map. intros [j k] Hin.
    destruct (Hcs j k Hin) as (Hj & Hk & Hx). simpl fst. simpl snd.
    rewrite !(index_nat _ C0) by (rewrite length_map; lia).
    cbv beta iota delta [rbind].
    rewrite !(nth_map_C _ 0) by lia.
    rewrite <- cis_opp, <- cis_add. f_equal.
    rewrite angle_cis by lra. ring.
Qed.

Lemma PI_above_3 : 3 < PI.
Proof. pose proof PI2_3_2. lra. Qed.

(** The phases stored for three samples 1/2: [0, 1, -1]. *)
Lemma phases_of_halves (sp : MySP.t R) (phase : list R) :
  init 3 (fun _ => 1 / 2) = Ok sp -> a sp = Some phase ->
  nth 0 phase 0 = 0 /\ nth 1 phase 0 = 1 /\ nth 2 phase 0 = - 1.
Proof.
  intros Hsp Ha. unfold init in Hsp.
  apply rbind_ok in Hsp as (phase' & Hsym & Hrest).
  apply rbind_ok in Hrest as (y & _ & Hrest).
  apply Ok_inj in Hrest. subst sp. simpl in Ha.
  assert (phase' = phase) as -> by congruence.
  assert (E : symmetrize (scaled_samples 2 (fun _ : nat => 1 / 2) 3) =
              Ok [0; 1 / 2 * 2; - (1 / 2 * 2)]) by reflexivity.
  rewrite E in Hsym. apply Ok_inj in Hsym. subst phase.
  simpl nth. repeat split; lra.
Qed.

Lemma phase_differences_linear_witness :
  exists sp phase dA,
    init 3 (fun _ => 1 / 2) = Ok sp /\ a sp = Some phase /\
    nth 1 phase 0 = 1 /\ nth 2 phase 0 = - 1 /\
    DeltaA phase [(1, 2)%nat; (0, 1)%nat] = Ok dA /\ dA = [2; - 1] /\
    observe sp (5 / 4) [(1, 2)%nat; (0, 1)%nat] =
    Ok (map (fun d => d * (5 / 4)) dA).
Proof.
  destruct (init_accepts 3 (fun _ => 1 / 2) (le_n 3)) as [sp Hsp].
  destruct (init_spectrum 3 (fun _ => 1 / 2) sp Hsp)
    as (phase & Ha & _ & Hlen & _ & _ & _).
  destruct (phases_of_halves sp phase Hsp Ha) as (H0 & H1 & H2).
  pose proof PI_above_3 as HPI.
  assert (Hr : forall k, (k < 3)%nat -> - PI < nth k phase 0 < PI).
  { intros k Hk. destruct k as [|[|[|k]]]; try lia;
      rewrite ?H0, ?H1, ?H2; lra. }
  assert (Hc : forall j k, In (j, k) [(1, 2)%nat; (0, 1)%nat] ->
                           (j < 3)%nat /\ (k < 3)%nat /\
                           - PI < (nth j phase 0 - nth k phase 0) * (5 / 4)
                           <= PI).
  { intros j k [E | [E | []]]; injection E as <- <-;
      rewrite ?H0, ?H1, ?H2; repeat split; try lia; lra. }
  destruct (phase_differences_linear 3 (fun _ => 1 / 2) sp phase (5 / 4)
              [(1, 2)%nat; (0, 1)%nat] Hsp Ha Hr Hc) as (dA & HdA & Hobs).
  assert (Hval : dA = [2; - 1]).
  { assert (E : DeltaA phase [(1, 2)%nat; (0, 1)%nat] =
                Ok (map (fun c => nth (fst c) phase 0 - nth (snd c) phase 0)
                        [(1, 2)%nat; (0, 1)%nat])).
    { apply for_each_map. intros [j k] Hin.
      destruct (Hc j k Hin) as (Hj & Hk & _). simpl fst. simpl snd.
      rewrite !(index_nat _ 0) by lia. reflexivity. }
    rewrite HdA in E. apply Ok_inj in E. subst dA. simpl.
    rewrite H0, H1, H2. repeat f_equal; lra. }
  exists sp, phase, dA.
  exact (conj Hsp (conj Ha (conj H1 (conj H2 (conj HdA (conj Hval Hobs)))))).
Defined.

End PhaseFacts.

(** * The methods that change an object *)

Module InPlaceFacts.
Import Py InPlace.

Section StoreFacts.
Context {A : Type} `{Scalar A}.

Lemma read_write_same (s : store) (r : ref) (arr : list A) :
  r < length s -> read (write s r arr) r = arr.
Proof.
  intros Hr. unfold read, write. rewrite nth_update, Nat.eqb_refl.
  apply Nat.ltb_lt in Hr. now rewrite Hr.
Qed.

Lemma read_write_other (s : store) (r r' : ref) (arr : list A) :
  r' <> r -> read (write s r arr) r' = read s r'.
Proof.
  intros Hr. unfold read, write. rewrite nth_update.
  apply Nat.eqb_neq in Hr. now rewrite Hr.
Qed.

Lemma read_alloc_old (s : store) (arr : list A) (r : ref) :
  r < length s -> read (fst (alloc s arr)) r = read s r.
Proof. intros Hr. unfold read, alloc. simpl. now apply app_nth1. Qed.

Lemma read_alloc_new (s : store) (arr : list A) :
  read (fst (alloc s arr)) (snd (alloc s arr)) = arr.
Proof.
  unfold read, alloc. simpl.
  rewrite app_nth2 by lia. now rewrite Nat.sub_diag.
Qed.

Lemma set_all (l : list A) (z : A) :
  set_slice l None None [z] = Ok (repeat z (length l)).
Proof.
  unfold set_slice, slice, start_of, stop_of.
  rewrite Nat.sub_0_r. change (skipn 0 l) with l.
  rewrite !firstn_all. change (firstn 0 l) with (@nil A).
  change (length [z]) with 1.
  destruct (1 =? length l) eqn:E.
  - apply Nat.eqb_eq in E.
    destruct l as [|x [|y l]]; simpl in E; try lia. reflexivity.
  - rewrite Nat.add_0_l, skipn_all, app_nil_r. reflexivity.
Qed.

(** X23. [make_zero] writes into the array of the object: afterwards
    every object that shares this array has as many values as before, all
    of them 0, and no other array has changed. *)
Theorem make_zero_shared (s : store) (o : obj) :
  v o < length s ->
  exists s',
    make_zero s o = Ok s' /\ length s' = length s /\
    (forall o', v o' = v o ->
                read s' (v o') = repeat s0 (length (read s (v o)))) /\
    (forall r, r <> v o -> read s' r = read s r).
Proof.
  intros Hr. unfold make_zero. rewrite set_all.
  cbv beta iota delta [rbind]. eexists. split; [reflexivity|].
  split; [apply length_update|]. split.
  - intros o' ->. now apply read_write_same.
  - intros r Hne. now apply read_write_other.
Qed.

(** X24. On operands of equal dimension [_bundle] computes the values of
    [bundle], but writes them into the array of [self] -- every object
    sharing that array sees them -- where [bundle] leaves every array as it
    is and returns a new one.  When [self] has a single value and [y] has
    not, [bundle] broadcasts and succeeds, and [_bundle] raises
    [ValueError]. *)
Theorem bundle_in_place (s : store) (o y : obj) :
  v o < length s ->
  (length (read s (v o)) = length (read s (v y)) ->
   let sum := zip_with sadd (read s (v o)) (read s (v y)) in
   (exists s', _bundle s o y = Ok s' /\
               (forall o', v o' = v o -> read s' (v o') = sum) /\
               (forall r, r <> v o -> read s' r = read s r)) /\
   (exists s' o', bundle s o y = Ok (s', o') /\
                  read s' (v o') = sum /\
                  (forall r, r < length s -> read s' r = read s r))) /\
  (length (read s (v o)) = 1 -> length (read s (v y)) <> 1 ->
   _bundle s o y = Raise ValueError /\
   exists s' o', bundle s o y = Ok (s', o') /\
                 length (read s' (v o')) = length (read s (v y))).
Proof.
  intros Hr. split.
  - intros Hl sum. split.
    + unfold _bundle, np_add. rewrite broadcast_same by assumption.
      cbv beta iota delta [rbind].
      rewrite length_zip_with, <- Hl, Nat.min_id, Nat.eqb_refl.
      eexists. split; [reflexivity|]. split.
      * intros o' ->. now apply read_write_same.
      * intros r Hne. now apply read_write_other.
    + unfold bundle, np_add. rewrite broadcast_same by assumption.
      cbv beta iota delta [rbind].
      eexists. eexists. split; [reflexivity|]. split.
      * apply (read_alloc_new s).
      * intros r Hlt. now apply (read_alloc_old s).
  - intros H1 Hy.
    destruct (read s (v o)) as [|x [|x' l]] eqn:Eo; simpl in H1; try lia.
    split.
    + unfold _bundle, np_add. rewrite Eo, broadcast_single_l.
      cbv beta iota delta [rbind]. rewrite length_map. simpl length.
      destruct (length (read s (v y)) =? 1) eqn:E; [|reflexivity].
      apply Nat.eqb_eq in E. contradiction.
    + unfold bundle, np_add. rewrite Eo, broadcast_single_l.
      cbv beta iota delta [rbind].
      eexists. eexists. split; [reflexivity|].
      match goal with
      | |- length ?t = _ =>
          assert (E : t = map (sadd x) (read s (v y)))
            by apply (read_alloc_new s);
          rewrite E
      end.
      apply length_map.
Qed.
End StoreFacts.

Lemma make_zero_shared_witness :
  exists s',
    make_zero [[1; 2; 3]%float; [4]%float] (of_array 0) = Ok s' /\
    read s' (v (of_array 0)) = [0; 0; 0]%float /\
    read s' 1 = [4]%float.
Proof.
  destruct (make_zero_shared [[1; 2; 3]%float; [4]%float] (of_array 0))
    as (s' & Hm & _ & Hsame & Hother); [simpl; lia|].
  exists s'. split; [exact Hm|]. split.
  - exact (Hsame (of_array 0) eq_refl).
  - apply (Hother 1). simpl. discriminate.
Defined.

Lemma bundle_in_place_witness :
  (exists s', _bundle [[1; 2]%float; [4; 8]%float] (of_array 0) (of_array 1)
              = Ok s' /\
              read s' 0 = [5; 10]%float) /\
  _bundle [[1]%float; [4; 8]%float] (of_array 0) (of_array 1)
  = Raise ValueError.
Proof.
  split.
  - destruct (proj1 (proj1 (bundle_in_place [[1; 2]%float; [4; 8]%float]
                                            (of_array 0) (of_array 1)
                                            ltac:(simpl; lia))
                           eq_refl))
      as (s' & Hb & Hsame & _).
    exists s'. split; [exact Hb|]. exact (Hsame (of_array 0) eq_refl).
  - apply (proj2 (bundle_in_place [[1]%float; [4; 8]%float]
                                  (of_array 0) (of_array 1)
                                  ltac:(simpl; lia))).
    + reflexivity.
    + simpl. discriminate.
Defined.

(** X25. [_bind] gives [self] a new array with the values of [bind] and
    changes no existing array: an object that shared the old array of
    [self] keeps its values. *)
Theorem bind_rebinds (s : @store R) (o y : obj) :
  length (read s (v o)) = length (read s (v y)) ->
  length (read s (v o)) <> O ->
  exists s' o' b,
    _bind s o y = Ok (s', o') /\
    MySP.bind (MySP.of_values (read s (v o)))
              (MySP.of_values (read s (v y))) = Ok b /\
    read s' (v o') = MySP.v b /\ D o' = D o /\ v o' = length s /\
    forall r, r < length s -> read s' r = read s r.
Proof.
  intros Hl Hpos.
  destruct (BindFacts.bind_result (MySP.of_values (read s (v o)))
                                  (MySP.of_values (read s (v y))) Hl Hpos)
    as (b & Hb & _).
  unfold _bind. rewrite Hb. cbv beta iota delta [rbind].
  eexists. eexists. exists b. split; [reflexivity|].
  split; [reflexivity|]. split; [apply (read_alloc_new s)|].
  split; [reflexivity|]. split; [reflexivity|].
  intros r Hr. now apply (read_alloc_old s).
Qed.

Lemma bind_rebinds_witness :
  exists s' o' b,
    _bind [[1; 2; 3]%R; [4; 5; 6]%R] (of_array 0) (of_array 1) = Ok (s', o') /\
    MySP.bind (MySP.of_values [1; 2; 3]%R) (MySP.of_values [4; 5; 6]%R) = Ok b /\
    read s' (v o') = MySP.v b /\ read s' 0 = [1; 2; 3]%R.
Proof.
  destruct (bind_rebinds [[1; 2; 3]%R; [4; 5; 6]%R] (of_array 0) (of_array 1)
                         eq_refl ltac:(simpl; discriminate))
    as (s' & o' & b & Hb & Hf & Hv & _ & _ & Hold).
  exists s', o', b.
  exact (conj Hb (conj Hf (conj Hv (Hold 0 ltac:(simpl; lia))))).
Defined.

End InPlaceFacts.

(** * The similarity of two powers *)

Module KernelFacts.
Import Py Cx CxFacts Fourier FourierFacts AngleFacts MySP MySPFacts
       SpectrumFacts PowerFacts Convolution BindFacts SimilarityFacts.
Local Open Scope R_scope.

Lemma Re_Csum f n : Re (Csum f n) = Rsum (fun k => Re (f k)) n.
Proof.
  induction n as [|n IH]; simpl; [reflexivity|].
  now rewrite <- IH.
Qed.

(** X26. Powers of a unitary vector stay unitary, and their similarity
    depends on the difference of the exponents only: for a unitary [v] of
    positive dimension D with no Fourier coefficient on the negative real
    axis, [v.power(x)] and [v.power(y)] are unitary and their similarity is
    the mean of [cos((y - x) * angle)] over the D Fourier coefficients of
    [v]. *)
Theorem similarity_of_powers (sp : MySP.t R) (x y : R) :
  dim sp <> O -> is_unitary sp ->
  (forall n, (n < dim sp)%nat -> angle (nth n (spectrum (v sp)) C0) <> PI) ->
  exists sx sy,
    power sp x = Ok sx /\ power sp y = Ok sy /\
    is_unitary sx /\ is_unitary sy /\
    similarity sx sy =
    Ok (Rsum (fun k => cos ((y - x) * angle (nth k (spectrum (v sp)) C0)))
             (dim sp) / INR (dim sp)).
Proof.
  intros Hpos Hu Hpi.
  destruct (power_spectrum sp x Hpos Hu Hpi) as (sx & Ex & Dx & Sx).
  destruct (power_spectrum sp y Hpos Hu Hpi) as (sy & Ey & Dy & Sy).
  assert (Hunit : forall p s,
            dim s = dim sp ->
            spectrum (v s) = map (fun z => cis (p * angle z)) (spectrum (v sp)) ->
            is_unitary s).
  { intros p s Hd Hs n Hn.
    rewrite Hs, (nth_map_C _ C0) by (rewrite length_spectrum; unfold dim in *; lia).
    apply Cmod_cis. }
  exists sx, sy. split; [exact Ex|]. split; [exact Ey|].
  split; [now apply (Hunit x)|]. split; [now apply (Hunit y)|].
  unfold similarity, dot. unfold dim in *.
  assert (E : (length (v sx) =? length (v sy))%nat = true)
    by (apply Nat.eqb_eq; congruence).
  rewrite E. f_equal.
  assert (HD : 0 < INR (length (v sp))) by (apply lt_0_INR; lia).
  apply (Rmult_eq_reg_l (INR (length (v sp)))); [|lra].
  transitivity (Rsum (fun k => cos ((y - x) *
                  angle (nth k (spectrum (v sp)) C0))) (length (v sp)));
    [|field; lra].
  pose proof (plancherel (v sx) (v sy) ltac:(congruence)) as HP.
  apply (f_equal Re) in HP. rewrite <- RtoC_mul in HP.
  change (Re (RtoC ?r)) with r in HP.
  rewrite Dx in HP. rewrite HP, Re_Csum.
  apply Rsum_ext. intros k Hk.
  rewrite Sx, Sy, !(nth_map_C _ C0) by (rewrite length_spectrum; lia).
  rewrite <- cis_opp, <- cis_add. unfold cis, Re. simpl fst.
  f_equal. ring.
Qed.

Lemma similarity_of_powers_witness :
  exists sx sy,
    power (of_values [0; 1; 0]) 2 = Ok sx /\
    power (of_values [0; 1; 0]) 5 = Ok sy /\
    is_unitary sx /\ is_unitary sy /\
    similarity sx sy =
    Ok (Rsum (fun k => cos ((5 - 2) *
                            angle (nth k (spectrum (v (of_values [0; 1; 0]))) C0)))
             (dim (of_values [0; 1; 0])) / INR (dim (of_values [0; 1; 0]))).
Proof.
  apply (similarity_of_powers (of_values [0; 1; 0]) 2 5).
  - simpl. discriminate.
  - apply SmallVectors.unitary_010.
  - intros n Hn. apply (SmallVectors.angles_010 n Hn).
Defined.

End KernelFacts.

(** * The decode loop in exact arithmetic *)

Module ExactDecoderFacts.
Import Py ExactDecoder Convolution SimilarityFacts.
Local Open Scope R_scope.

Lemma set_mask_none (l : list R) (f : R -> bool) z :
  (forall r, In r l -> f r = false) -> set_mask l (map f l) z = l.
Proof.
  induction l as [|r l IH]; intros Hf; [reflexivity|].
  simpl. rewrite Hf by (now left). f_equal.
  apply IH. intros; apply Hf; now right.
Qed.

Lemma Rsum_scal c f n : Rsum (fun k => c * f k) n = c * Rsum f n.
Proof.
  induction n as [|n IH]; simpl; [ring|]. rewrite IH. ring.
Qed.

Lemma exact_residuals (l : list R) (x x_true : R) :
  zip_with Rminus (map (fun d => d * x_true) l) (map (fun a => a * x) l) =
  map (fun d => d * (x_true - x)) l.
Proof.
  induction l as [|d l IH]; [reflexivity|].
  simpl. rewrite IH. f_equal. ring.
Qed.

(** X27. One iteration on exact data.  When [DeltaPhi] is [DeltaA * x_true]
    and no residual is rejected at the current [x] -- each
    [|DeltaA[i] * (x_true - x)|] is at most [1/iter] -- the body of the loop
    does not fail and multiplies the error by
    [1 - kappa * (DeltaA . DeltaA)]; the increment is
    [kappa * (DeltaA . DeltaA) * (x_true - x)], which is 0 at
    [x = x_true]. *)
Theorem step_contracts (kappa : R) (DeltaA DeltaPhi : list R)
        (iter : nat) (x x_true : R) :
  iter <> O ->
  DeltaPhi = map (fun d => d * x_true) DeltaA ->
  (forall d, In d DeltaA -> Rabs (d * (x_true - x)) <= 1 / INR iter) ->
  exists x' inc,
    step kappa DeltaA DeltaPhi iter x = Ok (x', inc) /\
    inc = kappa * sum_prod DeltaA DeltaA * (x_true - x) /\
    x_true - x' = (1 - kappa * sum_prod DeltaA DeltaA) * (x_true - x).
Proof.
  intros Hiter HPhi Hsmall.
  set (c := x_true - x).
  assert (Hres : zip_with Rminus DeltaPhi (np_scale DeltaA x) =
                 map (fun d => d * c) DeltaA).
  { subst DeltaPhi.
    change (np_scale DeltaA x) with (map (fun a => a * x) DeltaA).
    apply exact_residuals. }
  unfold step, np_sub.
  rewrite broadcast_same
    by (subst DeltaPhi; unfold np_scale; now rewrite !length_map).
  cbv beta iota delta [rbind]. unfold one_over.
  apply Nat.eqb_neq in Hiter. rewrite Hiter. cbv beta iota delta [rbind].
  change (zip_with ssub DeltaPhi (np_scale DeltaA x))
    with (zip_with Rminus DeltaPhi (np_scale DeltaA x)).
  rewrite Hres, set_mask_none.
  - unfold dot. rewrite length_map, Nat.eqb_refl.
    cbv beta iota delta [rbind].
    assert (Hsum : sum_prod DeltaA (map (fun d => d * c) DeltaA) =
                   sum_prod DeltaA DeltaA * c).
    { rewrite !sum_prod_Rsum by (now rewrite ?length_map).
      rewrite Rmult_comm, <- Rsum_scal. apply Rsum_ext. intros k Hk.
      rewrite (nth_indep (map (fun d => d * c) DeltaA) 0 ((fun d => d * c) 0))
        by (now rewrite length_map).
      rewrite (map_nth (fun d => d * c)). ring. }
    rewrite Hsum. eexists. eexists. split; [reflexivity|].
    split; [ring | unfold c; ring].
  - intros r Hr. apply in_map_iff in Hr as (d & <- & Hd).
    unfold gtb. destruct (Rlt_dec (1 / INR iter) (Rabs (d * c))) as [Hlt|];
      [|reflexivity].
    specialize (Hsmall d Hd). fold c in Hsmall. lra.
Qed.

Lemma step_contracts_witness :
  exists x' inc,
    step (1 / 10) [1; 2] (map (fun d => d * (1 / 4)) [1; 2]) 1 0 = Ok (x', inc) /\
    1 / 4 - x' = (1 - 1 / 10 * sum_prod [1; 2] [1; 2]) * (1 / 4 - 0).
Proof.
  destruct (step_contracts (1 / 10) [1; 2] (map (fun d => d * (1 / 4)) [1; 2])
                           1 0 (1 / 4)) as (x' & inc & Hs & _ & Hx).
  - discriminate.
  - reflexivity.
  - intros d [<- | [<- | []]]; simpl INR;
      rewrite Rabs_right by lra; lra.
  - exists x', inc. exact (conj Hs Hx).
Defined.

End ExactDecoderFacts.
